(** * Boolean searcher of bleve: a shallow embedding of
    [search/searchers/search_boolean.go] and the properties of its merge-join.

    Layout of the development:
    - [index], [search], [scorers]: the collaborators the Go file imports
      (identifier order, document matches, the match pool, the searcher
      interface, the conjunction scorer).  Their sources are not part of the
      file under study; each is modelled from the contract the specification
      gives for it.
    - the state-and-error monad [Comp] in which the methods are written;
    - the methods of [BooleanSearcher], in source order;
    - [StreamSearcher], a leaf searcher over a fixed stream, used as child;
    - the theorems. *)

From Stdlib Require Import ZArith NArith List Bool Lia String Permutation.
From Stdlib Require Import Strings.Byte Floats.PrimFloat.
Import ListNotations.

Set Implicit Arguments.

(* ===================================================================== *)
(** ** Package [index]: ordered document identifiers *)
(* ===================================================================== *)

Module index.

(** Modelled from the spec: the type [index.IndexInternalID] is declared
    outside the file under study.  "An opaque byte sequence; supports compare
    and equals; total order."  A value of this type is a non-nil byte slice
    (the empty sequence included); the nil identifier of Go is the [None] of
    an [option IndexInternalID]. *)
Definition IndexInternalID : Type := list byte.

(** [bytes.Compare]: lexicographic order on bytes, result -1, 0 or 1. *)
Fixpoint Compare (a b : IndexInternalID) : Z :=
  match a, b with
  | [], [] => 0
  | [], _ :: _ => -1
  | _ :: _, [] => 1
  | x :: a', y :: b' =>
      match N.compare (Byte.to_N x) (Byte.to_N y) with
      | Lt => -1
      | Gt => 1
      | Eq => Compare a' b'
      end
  end%Z.

(** [bytes.Equal]. *)
Fixpoint Equals (a b : IndexInternalID) : bool :=
  match a, b with
  | [], [] => true
  | x :: a', y :: b' => Byte.eqb x y && Equals a' b'
  | _, _ => false
  end.

End index.

(* ===================================================================== *)
(** ** Package [search]: matches, pool, searcher interface *)
(* ===================================================================== *)

Module search.

(** A Go [error] value, identified with its message. *)
Definition error : Type := string.

(** Ways a call can end without a Go return value. *)
Inductive fault : Type :=
| Panic      (* nil dereference, method call on a nil interface *)
| OutOfFuel. (* the loop bound of the model was reached *)

(** Modelled from the spec: [search.DocumentMatch] is declared outside the
    file under study.  "A mutable, poolable record: identifier + score".
    [ptr] is the identity of the object a [*DocumentMatch] points to; two
    pointers are equal in Go exactly when their [ptr] agree.  Explanations and
    term locations are not modelled. *)
Record DocumentMatch : Type := {
  ptr : nat;
  IndexInternalID : index.IndexInternalID;
  Score : float
}.

(** Pointer equality [a == b] on [*DocumentMatch], nil included. *)
Definition same (a b : option DocumentMatch) : bool :=
  match a, b with
  | None, None => true
  | Some x, Some y => Nat.eqb (ptr x) (ptr y)
  | _, _ => false
  end.

(** Modelled from the spec: [search.SearchContext] is declared outside the
    file under study; the boolean searcher uses only its
    [DocumentMatchPool].  The context is reduced to that pool.
    - [acquired]: how many matches have been handed out by [Get]; every
      acquisition has a new identity, also when the real pool reuses the
      storage of a released match ("generation counters" of the spec, 9);
    - [avail]: the matches returned by [Put], newest first;
    - [stale]: ghost field, the identities that were read after they had been
      returned to the pool.  No decision of the code depends on it. *)
Record SearchContext : Type := {
  acquired : nat;
  avail : list DocumentMatch;
  stale : list nat
}.

(** [ctx.DocumentMatchPool.Get()], then filling in identifier and score. *)
Definition Get (id : index.IndexInternalID) (score : float)
    (ctx : SearchContext) : DocumentMatch * SearchContext :=
  ({| ptr := acquired ctx; IndexInternalID := id; Score := score |},
   {| acquired := S (acquired ctx); avail := avail ctx; stale := stale ctx |}).

(** [ctx.DocumentMatchPool.Put(d)]; putting nil does nothing. *)
Definition Put (d : option DocumentMatch) (ctx : SearchContext) : SearchContext :=
  match d with
  | None => ctx
  | Some m =>
      {| acquired := acquired ctx; avail := m :: avail ctx; stale := stale ctx |}
  end.

(** Is the object with identity [p] in the pool? *)
Definition released (p : nat) (ctx : SearchContext) : bool :=
  existsb (fun m => Nat.eqb (ptr m) p) (avail ctx).

(** Ghost: a field of [m] is read.  Records the read when [m] has already
    been returned to the pool. *)
Definition touch (m : DocumentMatch) (ctx : SearchContext) : SearchContext :=
  if released (ptr m) ctx
  then {| acquired := acquired ctx; avail := avail ctx;
          stale := ptr m :: stale ctx |}
  else ctx.

(** What a call of [Next] or [Advance] on a searcher gives back: the Go pair
    of a match pointer and an error, or no return at all. *)
Inductive reply : Type :=
| Reply (m : option DocumentMatch) (err : option error)
| Crashed (f : fault).

(** Modelled from the spec: the interface [search.Searcher] (4.1, "Sub-Searcher
    Contract") is declared outside the file under study.  Only the methods the
    boolean searcher calls on its children are listed.  A searcher is a value
    of the state type [S]; a method that mutates the receiver returns the new
    state. *)
Class Searcher (S : Type) : Type := {
  Next : S -> SearchContext -> reply * S * SearchContext;
  Advance : S -> SearchContext -> index.IndexInternalID ->
            reply * S * SearchContext;
  Weight : S -> float;
  SetQueryNorm : S -> float -> S;
  Close : S -> option error * S;
  Min : S -> Z
}.

End search.

Import search(error, fault, Panic, OutOfFuel, DocumentMatch, SearchContext,
              reply, Reply, Crashed).

(* ===================================================================== *)
(** ** The boolean searcher: state *)
(* ===================================================================== *)

(** Modelled from the spec: [scorers.ConjunctionQueryScorer] is declared
    outside the file under study.  The explain flag only selects whether
    explanations (not modelled) are computed. *)
Record ConjunctionQueryScorer : Type := { explain : bool }.

Definition NewConjunctionQueryScorer (explain : bool) : ConjunctionQueryScorer :=
  {| explain := explain |}.

(** [type BooleanSearcher struct] (lines 20-34).  [TM], [TS] and [TN] are the
    dynamic types of the three children; a nil interface is [None].  The
    children are owned by the boolean searcher (no other alias calls them).
    [indexReader] is passed through and never used: it is left out.
    [matches] is the scratch slice of length 2 made by the constructor. *)
Record BooleanSearcher (TM TS TN : Type) : Type := {
  mustSearcher : option TM;
  shouldSearcher : option TS;
  mustNotSearcher : option TN;
  queryNorm : float;
  currMust : option DocumentMatch;
  currShould : option DocumentMatch;
  currMustNot : option DocumentMatch;
  currentID : option index.IndexInternalID;
  min : Z;
  scorer : ConjunctionQueryScorer;
  matches : option DocumentMatch * option DocumentMatch;
  initialized : bool
}.

Section Fields.
Context {TM TS TN : Type}.
Local Abbreviation BS := (BooleanSearcher TM TS TN).

Definition set_mustSearcher (v : option TM) (s : BS) : BS :=
  {| mustSearcher := v; shouldSearcher := shouldSearcher s;
     mustNotSearcher := mustNotSearcher s; queryNorm := queryNorm s;
     currMust := currMust s; currShould := currShould s;
     currMustNot := currMustNot s; currentID := currentID s; min := min s;
     scorer := scorer s; matches := matches s; initialized := initialized s |}.

Definition set_shouldSearcher (v : option TS) (s : BS) : BS :=
  {| mustSearcher := mustSearcher s; shouldSearcher := v;
     mustNotSearcher := mustNotSearcher s; queryNorm := queryNorm s;
     currMust := currMust s; currShould := currShould s;
     currMustNot := currMustNot s; currentID := currentID s; min := min s;
     scorer := scorer s; matches := matches s; initialized := initialized s |}.

Definition set_mustNotSearcher (v : option TN) (s : BS) : BS :=
  {| mustSearcher := mustSearcher s; shouldSearcher := shouldSearcher s;
     mustNotSearcher := v; queryNorm := queryNorm s;
     currMust := currMust s; currShould := currShould s;
     currMustNot := currMustNot s; currentID := currentID s; min := min s;
     scorer := scorer s; matches := matches s; initialized := initialized s |}.

Definition set_queryNorm (v : float) (s : BS) : BS :=
  {| mustSearcher := mustSearcher s; shouldSearcher := shouldSearcher s;
     mustNotSearcher := mustNotSearcher s; queryNorm := v;
     currMust := currMust s; currShould := currShould s;
     currMustNot := currMustNot s; currentID := currentID s; min := min s;
     scorer := scorer s; matches := matches s; initialized := initialized s |}.

Definition set_currMust (v : option DocumentMatch) (s : BS) : BS :=
  {| mustSearcher := mustSearcher s; shouldSearcher := shouldSearcher s;
     mustNotSearcher := mustNotSearcher s; queryNorm := queryNorm s;
     currMust := v; currShould := currShould s;
     currMustNot := currMustNot s; currentID := currentID s; min := min s;
     scorer := scorer s; matches := matches s; initialized := initialized s |}.

Definition set_currShould (v : option DocumentMatch) (s : BS) : BS :=
  {| mustSearcher := mustSearcher s; shouldSearcher := shouldSearcher s;
     mustNotSearcher := mustNotSearcher s; queryNorm := queryNorm s;
     currMust := currMust s; currShould := v;
     currMustNot := currMustNot s; currentID := currentID s; min := min s;
     scorer := scorer s; matches := matches s; initialized := initialized s |}.

Definition set_currMustNot (v : option DocumentMatch) (s : BS) : BS :=
  {| mustSearcher := mustSearcher s; shouldSearcher := shouldSearcher s;
     mustNotSearcher := mustNotSearcher s; queryNorm := queryNorm s;
     currMust := currMust s; currShould := currShould s;
     currMustNot := v; currentID := currentID s; min := min s;
     scorer := scorer s; matches := matches s; initialized := initialized s |}.

Definition set_currentID (v : option index.IndexInternalID) (s : BS) : BS :=
  {| mustSearcher := mustSearcher s; shouldSearcher := shouldSearcher s;
     mustNotSearcher := mustNotSearcher s; queryNorm := queryNorm s;
     currMust := currMust s; currShould := currShould s;
     currMustNot := currMustNot s; currentID := v; min := min s;
     scorer := scorer s; matches := matches s; initialized := initialized s |}.

Definition set_matches (v : option DocumentMatch * option DocumentMatch)
    (s : BS) : BS :=
  {| mustSearcher := mustSearcher s; shouldSearcher := shouldSearcher s;
     mustNotSearcher := mustNotSearcher s; queryNorm := queryNorm s;
     currMust := currMust s; currShould := currShould s;
     currMustNot := currMustNot s; currentID := currentID s; min := min s;
     scorer := scorer s; matches := v; initialized := initialized s |}.

Definition set_initialized (v : bool) (s : BS) : BS :=
  {| mustSearcher := mustSearcher s; shouldSearcher := shouldSearcher s;
     mustNotSearcher := mustNotSearcher s; queryNorm := queryNorm s;
     currMust := currMust s; currShould := currShould s;
     currMustNot := currMustNot s; currentID := currentID s; min := min s;
     scorer := scorer s; matches := matches s; initialized := v |}.

End Fields.

(** [x != nil]. *)
Definition notNil {A} (x : option A) : bool :=
  match x with
  | Some _ => true
  | None => false
  end.

(* ===================================================================== *)
(** ** The monad of the methods *)
(* ===================================================================== *)

(** How a method call ends: a Go return without error, a Go return with an
    error, or no return.  Whatever the end, the receiver and the context keep
    the changes made so far: the state is returned beside every outcome. *)
Inductive outcome (A : Type) : Type :=
| Ok (a : A)
| Err (e : error)
| Stop (f : fault).
Arguments Err {A} e.
Arguments Stop {A} f.

Section Monad.
Context {St : Type}.

Definition Comp (A : Type) : Type := St -> outcome A * St.

Definition ret {A} (a : A) : Comp A := fun st => (Ok a, st).

Definition bind {A B} (c : Comp A) (k : A -> Comp B) : Comp B :=
  fun st =>
    match c st with
    | (Ok a, st') => k a st'
    | (Err e, st') => (Err e, st')
    | (Stop f, st') => (Stop f, st')
    end.

Definition get : Comp St := fun st => (Ok st, st).
Definition put (st : St) : Comp unit := fun _ => (Ok tt, st).
Definition raise {A} (e : error) : Comp A := fun st => (Err e, st).
Definition stop {A} (f : fault) : Comp A := fun st => (Stop f, st).

End Monad.
Arguments Comp St A : clear implicits.

Declare Scope comp_scope.
Delimit Scope comp_scope with comp.
Notation "x <- c ;; k" := (bind c (fun x => k))
  (at level 61, c at next level, right associativity) : comp_scope.
Notation "c ;;; k" := (bind c (fun _ => k))
  (at level 61, right associativity) : comp_scope.
Open Scope comp_scope.

(* ===================================================================== *)
(** ** The boolean searcher: methods *)
(* ===================================================================== *)

Section Methods.
Context {TM TS TN : Type}.
Context {searcherM : search.Searcher TM}.
Context {searcherS : search.Searcher TS}.
Context {searcherN : search.Searcher TN}.

(** Modelled from the spec: the ranking formula of the conjunction scorer is
    "an external collaborator's concern": a function of the constituents'
    scores, deterministic, otherwise unknown (4.3). *)
Variable combine : list float -> float.

Local Abbreviation BS := (BooleanSearcher TM TS TN).
Local Abbreviation World := (BooleanSearcher TM TS TN * SearchContext)%type.

(** Reading and writing the receiver [s] and the context [ctx]. *)
Definition gets {A} (f : BS -> A) : Comp World A :=
  fun w => (Ok (f (fst w)), w).

Definition modify (f : BS -> BS) : Comp World unit :=
  fun w => (Ok tt, (f (fst w), snd w)).

Definition withCtx (f : SearchContext -> SearchContext) : Comp World unit :=
  fun w => (Ok tt, (fst w, f (snd w))).

(** [ctx.DocumentMatchPool.Put(d)]. *)
Definition poolPut (d : option DocumentMatch) : Comp World unit :=
  withCtx (search.Put d).

(** [m.IndexInternalID], a read of the object [m]. *)
Definition readID (m : DocumentMatch) : Comp World index.IndexInternalID :=
  withCtx (search.touch m) ;;; ret (search.IndexInternalID m).

(** [d != nil && d.IndexInternalID.Compare(id) < 0]. *)
Definition isBefore (d : option DocumentMatch) (id : index.IndexInternalID)
    : Comp World bool :=
  match d with
  | None => ret false
  | Some m => i <- readID m ;; ret (index.Compare i id <? 0)%Z
  end.

(** [d != nil && d.IndexInternalID.Equals(id)]. *)
Definition isAt (d : option DocumentMatch) (id : index.IndexInternalID)
    : Comp World bool :=
  match d with
  | None => ret false
  | Some m => i <- readID m ;; ret (index.Equals i id)
  end.

(** The call of a child and what every call site does with its result:
    [s.currMust, err = s.mustSearcher.Op(ctx ...); if err != nil { return err }].
    The returned pointer is stored whether or not there is an error.  Calling
    a method on a nil interface panics. *)
Definition pullMust
    (op : TM -> SearchContext -> reply * TM * SearchContext) : Comp World unit :=
  fun w =>
    match mustSearcher (fst w) with
    | None => (Stop Panic, w)
    | Some c =>
        match op c (snd w) with
        | (Reply m err, c', ctx') =>
            let s' := set_currMust m (set_mustSearcher (Some c') (fst w)) in
            match err with
            | Some e => (Err e, (s', ctx'))
            | None => (Ok tt, (s', ctx'))
            end
        | (Crashed f, c', ctx') =>
            (Stop f, (set_mustSearcher (Some c') (fst w), ctx'))
        end
    end.

Definition pullShould
    (op : TS -> SearchContext -> reply * TS * SearchContext) : Comp World unit :=
  fun w =>
    match shouldSearcher (fst w) with
    | None => (Stop Panic, w)
    | Some c =>
        match op c (snd w) with
        | (Reply m err, c', ctx') =>
            let s' := set_currShould m (set_shouldSearcher (Some c') (fst w)) in
            match err with
            | Some e => (Err e, (s', ctx'))
            | None => (Ok tt, (s', ctx'))
            end
        | (Crashed f, c', ctx') =>
            (Stop f, (set_shouldSearcher (Some c') (fst w), ctx'))
        end
    end.

Definition pullMustNot
    (op : TN -> SearchContext -> reply * TN * SearchContext) : Comp World unit :=
  fun w =>
    match mustNotSearcher (fst w) with
    | None => (Stop Panic, w)
    | Some c =>
        match op c (snd w) with
        | (Reply m err, c', ctx') =>
            let s' := set_currMustNot m (set_mustNotSearcher (Some c') (fst w)) in
            match err with
            | Some e => (Err e, (s', ctx'))
            | None => (Ok tt, (s', ctx'))
            end
        | (Crashed f, c', ctx') =>
            (Stop f, (set_mustNotSearcher (Some c') (fst w), ctx'))
        end
    end.

(** [op(ctx, ID)] as a function of receiver and context. *)
Definition advanceTo {T} `{search.Searcher T} (ID : index.IndexInternalID)
    : T -> SearchContext -> reply * T * SearchContext :=
  fun c ctx => search.Advance c ctx ID.

(** Modelled from the spec: [ConjunctionQueryScorer.Score(ctx, constituents)]
    is defined outside the file under study.  It reads every constituent and
    gives back one match at their identifier whose score combines theirs.
    The result is the object of the first constituent (identity [ptr] kept):
    the caller tests [s.currMust != skipReturn] against it, and the spec lets
    the previous must match be "the one just emitted to the caller" (4.2).
    A nil constituent is a nil dereference. *)
Fixpoint constituents (cons : list (option DocumentMatch))
    : option (list DocumentMatch) :=
  match cons with
  | [] => Some []
  | None :: _ => None
  | Some m :: rest =>
      match constituents rest with
      | Some ms => Some (m :: ms)
      | None => None
      end
  end.

Fixpoint touchAll (ms : list DocumentMatch) : Comp World unit :=
  match ms with
  | [] => ret tt
  | m :: rest => withCtx (search.touch m) ;;; touchAll rest
  end.

Definition Score (sc : ConjunctionQueryScorer)
    (cons : list (option DocumentMatch)) : Comp World DocumentMatch :=
  match constituents cons with
  | Some (m0 :: rest) =>
      touchAll (m0 :: rest) ;;;
      ret {| search.ptr := search.ptr m0;
             search.IndexInternalID := search.IndexInternalID m0;
             search.Score := combine (map search.Score (m0 :: rest)) |}
  | _ => stop Panic
  end.

(** The block that recomputes [s.currentID] from the driving clause.  It is
    written out three times in the source: lines 104-110, 137-143, 319-325. *)
Definition setCurrentID : Comp World unit :=
  s <- get ;;
  match mustSearcher (fst s), currMust (fst s) with
  | Some _, Some m =>
      i <- readID m ;; modify (set_currentID (Some i))
  | _, _ =>
      match mustSearcher (fst s), currShould (fst s) with
      | None, Some m =>
          i <- readID m ;; modify (set_currentID (Some i))
      | _, _ => modify (set_currentID None)
      end
  end.

(** [func NewBooleanSearcher] with [computeQueryNorm] (lines 36-69). *)
Definition computeQueryNorm (s : BS) : BS :=
  (* first calculate sum of squared weights *)
  let sumOfSquaredWeights := 0%float in
  let sumOfSquaredWeights :=
    match mustSearcher s with
    | Some c => (sumOfSquaredWeights + search.Weight c)%float
    | None => sumOfSquaredWeights
    end in
  let sumOfSquaredWeights :=
    match shouldSearcher s with
    | Some c => (sumOfSquaredWeights + search.Weight c)%float
    | None => sumOfSquaredWeights
    end in
  (* now compute query norm from this *)
  let s := set_queryNorm (1 / sqrt sumOfSquaredWeights)%float s in
  (* finally tell all the downstream searchers the norm *)
  let s :=
    match mustSearcher s with
    | Some c => set_mustSearcher (Some (search.SetQueryNorm c (queryNorm s))) s
    | None => s
    end in
  match shouldSearcher s with
  | Some c => set_shouldSearcher (Some (search.SetQueryNorm c (queryNorm s))) s
  | None => s
  end.

Definition NewBooleanSearcher (mustSearcher : option TM)
    (shouldSearcher : option TS) (mustNotSearcher : option TN)
    (explain : bool) : BS :=
  (* build our searcher; the fields not named take Go's zero values *)
  let rv :=
    {| mustSearcher := mustSearcher;
       shouldSearcher := shouldSearcher;
       mustNotSearcher := mustNotSearcher;
       queryNorm := 0%float;
       currMust := None; currShould := None; currMustNot := None;
       currentID := None;
       min := 0%Z;
       scorer := NewConjunctionQueryScorer explain;
       matches := (None, None);
       initialized := false |} in
  computeQueryNorm rv.

(** [func (s *BooleanSearcher) initSearchers] (lines 71-114). *)
Definition initSearchers : Comp World unit :=
  (* get all searchers pointing at their first match *)
  s <- get ;;
  (if notNil (mustSearcher (fst s)) then
     (if notNil (currMust (fst s)) then poolPut (currMust (fst s)) else ret tt) ;;;
     pullMust search.Next
   else ret tt) ;;;
  s <- get ;;
  (if notNil (shouldSearcher (fst s)) then
     (if notNil (currShould (fst s)) then poolPut (currShould (fst s)) else ret tt) ;;;
     pullShould search.Next
   else ret tt) ;;;
  s <- get ;;
  (if notNil (mustNotSearcher (fst s)) then
     (if notNil (currMustNot (fst s)) then poolPut (currMustNot (fst s)) else ret tt) ;;;
     pullMustNot search.Next
   else ret tt) ;;;
  setCurrentID ;;;
  modify (set_initialized true).

(** [func (s *BooleanSearcher) advanceNextMust] (lines 116-145). *)
Definition advanceNextMust (skipReturn : option DocumentMatch)
    : Comp World unit :=
  s <- get ;;
  (if notNil (mustSearcher (fst s)) then
     (if negb (search.same (currMust (fst s)) skipReturn)
      then poolPut (currMust (fst s)) else ret tt) ;;;
     pullMust search.Next
   else
     (if negb (search.same (currShould (fst s)) skipReturn)
      then poolPut (currShould (fst s)) else ret tt) ;;;
     pullShould search.Next) ;;;
  setCurrentID.

(** [func (s *BooleanSearcher) Weight] (lines 147-157). *)
Definition Weight (s : BS) : float :=
  let rv := 0%float in
  let rv :=
    match mustSearcher s with
    | Some c => (rv + search.Weight c)%float
    | None => rv
    end in
  match shouldSearcher s with
  | Some c => (rv + search.Weight c)%float
  | None => rv
  end.

(** [func (s *BooleanSearcher) SetQueryNorm] (lines 159-166). *)
Definition SetQueryNorm (s : BS) (qnorm : float) : BS :=
  let s :=
    match mustSearcher s with
    | Some c => set_mustSearcher (Some (search.SetQueryNorm c qnorm)) s
    | None => s
    end in
  match shouldSearcher s with
  | Some c => set_shouldSearcher (Some (search.SetQueryNorm c qnorm)) s
  | None => s
  end.

(** One pass through the body of the [for] loop of [Next]. *)
Inductive flow : Type :=
| Continue
| Break (rv : DocumentMatch).

(** "score bonus matches should": the block of lines 217-232, written out
    again at lines 245-260. *)
Definition scoreBonus : Comp World flow :=
  s <- get ;;
  let cons :=
    if notNil (currMust (fst s))
    then [currMust (fst s); currShould (fst s)]
    else [currShould (fst s)] in
  modify (set_matches
            (if notNil (currMust (fst s))
             then (currMust (fst s), currShould (fst s))
             else (currShould (fst s), snd (matches (fst s))))) ;;;
  rv <- Score (scorer (fst s)) cons ;;
  advanceNextMust (Some rv) ;;;
  ret (Break rv).

(** "match is OK anyway": the block of lines 234-242, written out again at
    lines 262-270. *)
Definition scoreMustOnly : Comp World flow :=
  s <- get ;;
  let cons := [currMust (fst s)] in
  modify (set_matches (currMust (fst s), snd (matches (fst s)))) ;;;
  rv <- Score (scorer (fst s)) cons ;;
  advanceNextMust (Some rv) ;;;
  ret (Break rv).

(** [s.shouldSearcher.Min()]; a nil interface panics. *)
Definition shouldMin : Comp World Z :=
  s <- get ;;
  match shouldSearcher (fst s) with
  | Some c => ret (search.Min c)
  | None => stop Panic
  end.

(** Lines 273-276: the candidate does not qualify. *)
Definition reject : Comp World flow :=
  advanceNextMust None ;;; ret Continue.

(** Lines 207-276 of the loop body: the should clause.  [cid] is
    [s.currentID], which no statement before the calls of [advanceNextMust]
    assigns. *)
Definition shouldStage (cid : index.IndexInternalID) : Comp World flow :=
  s <- get ;;
  before <- isBefore (currShould (fst s)) cid ;;
  if before then
    (* advance should searcher to our candidate entry *)
    (if notNil (currShould (fst s)) then poolPut (currShould (fst s)) else ret tt) ;;;
    pullShould (advanceTo cid) ;;;
    s <- get ;;
    at_ <- isAt (currShould (fst s)) cid ;;
    if at_ then scoreBonus
    else
      m <- shouldMin ;;
      if (m =? 0)%Z then scoreMustOnly else reject
  else
    at_ <- isAt (currShould (fst s)) cid ;;
    if at_ then scoreBonus
    else
      (* s.shouldSearcher == nil || s.shouldSearcher.Min() == 0 *)
      optional <- (if notNil (shouldSearcher (fst s))
                   then m <- shouldMin ;; ret (m =? 0)%Z
                   else ret true) ;;
      if optional then scoreMustOnly else reject.

(** Lines 181-205 of the loop body, the must-not clause, followed by the
    should clause unless the candidate is excluded ([continue]). *)
Definition Next_body (cid : index.IndexInternalID) : Comp World flow :=
  s <- get ;;
  before <- isBefore (currMustNot (fst s)) cid ;;
  if before then
    (if notNil (currMustNot (fst s)) then poolPut (currMustNot (fst s)) else ret tt) ;;;
    (* advance must not searcher to our candidate entry *)
    pullMustNot (advanceTo cid) ;;;
    s <- get ;;
    at_ <- isAt (currMustNot (fst s)) cid ;;
    if at_ then
      (* the candidate is excluded *)
      advanceNextMust None ;;; ret Continue
    else shouldStage cid
  else
    at_ <- isAt (currMustNot (fst s)) cid ;;
    if at_ then
      (* the candidate is excluded *)
      advanceNextMust None ;;; ret Continue
    else shouldStage cid.

(** [for s.currentID != nil { ... }; return rv, nil] (lines 180-278).  The
    loop runs at most [fuel] passes. *)
Fixpoint Next_loop (fuel : nat) : Comp World (option DocumentMatch) :=
  s <- get ;;
  match currentID (fst s) with
  | None => ret None
  | Some cid =>
      match fuel with
      | O => stop OutOfFuel
      | S fuel' =>
          r <- Next_body cid ;;
          match r with
          | Continue => Next_loop fuel'
          | Break rv => ret (Some rv)
          end
      end
  end.

(** [func (s *BooleanSearcher) Next] (lines 168-279).  [Ok None] is the
    return [nil, nil]: the end of the stream. *)
Definition Next (fuel : nat) : Comp World (option DocumentMatch) :=
  s <- get ;;
  (if negb (initialized (fst s)) then initSearchers else ret tt) ;;;
  Next_loop fuel.

(** [func (s *BooleanSearcher) Advance] (lines 281-328). *)
Definition Advance (fuel : nat) (ID : index.IndexInternalID)
    : Comp World (option DocumentMatch) :=
  s <- get ;;
  (if negb (initialized (fst s)) then initSearchers else ret tt) ;;;
  s <- get ;;
  (if notNil (mustSearcher (fst s)) then
     (if notNil (currMust (fst s)) then poolPut (currMust (fst s)) else ret tt) ;;;
     pullMust (advanceTo ID)
   else ret tt) ;;;
  s <- get ;;
  (if notNil (shouldSearcher (fst s)) then
     (if notNil (currShould (fst s)) then poolPut (currShould (fst s)) else ret tt) ;;;
     pullShould (advanceTo ID)
   else ret tt) ;;;
  s <- get ;;
  (if notNil (mustNotSearcher (fst s)) then
     (if notNil (currMustNot (fst s)) then poolPut (currMustNot (fst s)) else ret tt) ;;;
     pullMustNot (advanceTo ID)
   else ret tt) ;;;
  setCurrentID ;;;
  Next fuel.

(** [func (s *BooleanSearcher) Close] (lines 343-363). *)
Definition Close (s : BS) : option error * BS :=
  match
    match mustSearcher s with
    | Some c =>
        let (err, c') := search.Close c in
        (err, set_mustSearcher (Some c') s)
    | None => (None, s)
    end
  with
  | (Some err, s) => (Some err, s)
  | (None, s) =>
      match
        match shouldSearcher s with
        | Some c =>
            let (err, c') := search.Close c in
            (err, set_shouldSearcher (Some c') s)
        | None => (None, s)
        end
      with
      | (Some err, s) => (Some err, s)
      | (None, s) =>
          match mustNotSearcher s with
          | Some c =>
              let (err, c') := search.Close c in
              (err, set_mustNotSearcher (Some c') s)
          | None => (None, s)
          end
      end
  end.

(** [func (s *BooleanSearcher) Min] (lines 365-367). *)
Definition Min (s : BS) : Z := 0.

End Methods.

(* ===================================================================== *)
(** ** Children: a leaf searcher over a fixed stream *)
(* ===================================================================== *)

(** Modelled from the spec: the leaf searchers that produce the three input
    streams are outside the file under study.  [StreamSearcher] follows the
    Sub-Searcher Contract (4.1) over a fixed stream of (identifier, score):
    - [ahead] holds the matches not yet passed; once the searcher has
      [started], its head is the current position;
    - [Next] moves past the current position and gives the match there;
    - [Advance] skips forward to the first match with identifier at least the
      target and, when the searcher is already positioned at or past the
      target, gives the current position without consuming it;
    - every match given out is acquired from the pool of the context;
    - [SetQueryNorm] stores the factor, which is multiplied into every score
      given out afterwards;
    - [faults] is a schedule of injected failures, one entry per call of
      [Next] or [Advance]: [Some e] makes that call fail with [e] and leaves
      the position alone.  Past the end of the schedule no call fails. *)
Record StreamSearcher : Type := {
  started : bool;
  ahead : list (index.IndexInternalID * float);
  faults : list (option error);
  weight : float;
  norms : list float;
  minimum : Z;
  closeErr : option error;
  closes : nat
}.

Definition set_position (b : bool) (l : list (index.IndexInternalID * float))
    (c : StreamSearcher) : StreamSearcher :=
  {| started := b; ahead := l; faults := faults c; weight := weight c;
     norms := norms c; minimum := minimum c; closeErr := closeErr c;
     closes := closes c |}.

Definition set_faults (fs : list (option error)) (c : StreamSearcher)
    : StreamSearcher :=
  {| started := started c; ahead := ahead c; faults := fs; weight := weight c;
     norms := norms c; minimum := minimum c; closeErr := closeErr c;
     closes := closes c |}.

(** The score of a match as it leaves the searcher. *)
Definition scaled (c : StreamSearcher) (raw : float) : float :=
  match norms c with
  | q :: _ => (raw * q)%float
  | [] => raw
  end.

(** The match at the current position, or the end of the stream. *)
Definition emit (c : StreamSearcher) (ctx : SearchContext)
    : reply * StreamSearcher * SearchContext :=
  match ahead c with
  | [] => (Reply None None, c, ctx)
  | (id, raw) :: _ =>
      let (m, ctx') := search.Get id (scaled c raw) ctx in
      (Reply (Some m) None, c, ctx')
  end.

(** One call: consult the failure schedule, then move and emit. *)
Definition serve (move : StreamSearcher -> StreamSearcher)
    (c : StreamSearcher) (ctx : SearchContext)
    : reply * StreamSearcher * SearchContext :=
  match faults c with
  | Some e :: fs => (Reply None (Some e), set_faults fs c, ctx)
  | None :: fs => emit (move (set_faults fs c)) ctx
  | [] => emit (move c) ctx
  end.

Fixpoint dropWhile {A} (p : A -> bool) (l : list A) : list A :=
  match l with
  | [] => []
  | x :: l' => if p x then dropWhile p l' else l
  end.

Definition stepPast (c : StreamSearcher) : StreamSearcher :=
  if started c then set_position true (tl (ahead c)) c
  else set_position true (ahead c) c.

(** The entry [x] of a stream lies before the identifier [ID]. *)
Definition before (ID : index.IndexInternalID)
    (x : index.IndexInternalID * float) : bool :=
  (index.Compare (fst x) ID <? 0)%Z.

Definition skipTo (ID : index.IndexInternalID) (c : StreamSearcher)
    : StreamSearcher :=
  set_position true (dropWhile (before ID) (ahead c)) c.

#[global] Instance StreamSearcher_Searcher : search.Searcher StreamSearcher := {
  search.Next := serve stepPast;
  search.Advance := fun c ctx ID => serve (skipTo ID) c ctx;
  search.Weight := weight;
  search.SetQueryNorm := fun c q =>
    {| started := started c; ahead := ahead c; faults := faults c;
       weight := weight c; norms := q :: norms c; minimum := minimum c;
       closeErr := closeErr c; closes := closes c |};
  search.Close := fun c =>
    (closeErr c,
     {| started := started c; ahead := ahead c; faults := faults c;
        weight := weight c; norms := norms c; minimum := minimum c;
        closeErr := closeErr c; closes := S (closes c) |});
  search.Min := minimum
}.

(** A stream searcher before its first call. *)
Definition NewStreamSearcher (stream : list (index.IndexInternalID * float))
    (weight : float) (minimum : Z) : StreamSearcher :=
  {| started := false; ahead := stream; faults := []; weight := weight;
     norms := []; minimum := minimum; closeErr := None; closes := 0 |}.

(** The context of a new search request: an untouched pool. *)
Definition NewSearchContext : SearchContext :=
  {| search.acquired := 0; search.avail := []; search.stale := [] |}.

(* ===================================================================== *)
(** ** The boolean searcher is a searcher *)
(* ===================================================================== *)

Section AsSearcher.
Context {TM TS TN : Type}.
Context {searcherM : search.Searcher TM}.
Context {searcherS : search.Searcher TS}.
Context {searcherN : search.Searcher TN}.
Variable combine : list float -> float.

(** The Go pair a call of the boolean searcher returns. *)
Definition asReply (r : outcome (option DocumentMatch) *
                        (BooleanSearcher TM TS TN * SearchContext))
    : reply * BooleanSearcher TM TS TN * SearchContext :=
  match r with
  | (Ok m, (s, ctx)) => (Reply m None, s, ctx)
  | (Err e, (s, ctx)) => (Reply None (Some e), s, ctx)
  | (Stop f, (s, ctx)) => (Crashed f, s, ctx)
  end.

(** [BooleanSearcher] implements [search.Searcher], so that boolean
    searchers nest.  [fuel] bounds the loop of every call of [Next]. *)
Definition BooleanSearcher_Searcher (fuel : nat)
    : search.Searcher (BooleanSearcher TM TS TN) :=
  {| search.Next := fun s ctx => asReply (Next combine fuel (s, ctx));
     search.Advance := fun s ctx ID => asReply (Advance combine fuel ID (s, ctx));
     search.Weight := Weight;
     search.SetQueryNorm := SetQueryNorm;
     search.Close := Close;
     search.Min := Min |}.

End AsSearcher.

(* ===================================================================== *)
(** ** Driving a searcher *)
(* ===================================================================== *)

Section Drivers.
Context {TM TS TN : Type}.
Context {searcherM : search.Searcher TM}.
Context {searcherS : search.Searcher TS}.
Context {searcherN : search.Searcher TN}.
Variable combine : list float -> float.

Local Abbreviation World := (BooleanSearcher TM TS TN * SearchContext)%type.

(** The caller's loop [for { m, err := s.Next(ctx); if m == nil { break } }]:
    at most [calls] calls of [Next]; the matches returned, in order, then how
    the last call ended ([Ok tt] when it returned [nil, nil]). *)
Fixpoint drain (calls fuel : nat) (w : World)
    : list DocumentMatch * outcome unit * World :=
  match calls with
  | O => ([], Stop OutOfFuel, w)
  | S calls' =>
      match Next combine fuel w with
      | (Ok None, w') => ([], Ok tt, w')
      | (Ok (Some m), w') =>
          let '(ms, o, w'') := drain calls' fuel w' in (m :: ms, o, w'')
      | (Err e, w') => ([], Err e, w')
      | (Stop f, w') => ([], Stop f, w')
      end
  end.

(** "Repeatedly calling [Next] until reaching an identifier >= X": the first
    result that is the end of the stream or a match at or after [X]. *)
Fixpoint nextUntil (calls fuel : nat) (X : index.IndexInternalID) (w : World)
    : outcome (option DocumentMatch) * World :=
  match calls with
  | O => (Stop OutOfFuel, w)
  | S calls' =>
      match Next combine fuel w with
      | (Ok (Some m), w') =>
          if (index.Compare (search.IndexInternalID m) X <? 0)%Z
          then nextUntil calls' fuel X w'
          else (Ok (Some m), w')
      | r => r
      end
  end.

(** A call the caller can make. *)
Inductive call : Type :=
| CallNext
| CallAdvance (ID : index.IndexInternalID).

Definition perform (fuel : nat) (c : call) : Comp World (option DocumentMatch) :=
  match c with
  | CallNext => Next combine fuel
  | CallAdvance ID => Advance combine fuel ID
  end.

(** A script of calls: the matches handed to the caller, newest first, as
    long as no call fails; [None] when one does not return without error. *)
Fixpoint session (fuel : nat) (script : list call) (w : World)
    : option (list DocumentMatch * World) :=
  match script with
  | [] => Some ([], w)
  | c :: script' =>
      match perform fuel c w with
      | (Ok r, w') =>
          match session fuel script' w' with
          | Some (ms, w'') =>
              Some (ms ++ match r with Some m => [m] | None => [] end, w'')
          | None => None
          end
      | _ => None
      end
  end.

End Drivers.

(* ===================================================================== *)
(** ** Vocabulary of the statements *)
(* ===================================================================== *)

(** The scorer of bleve adds the constituents' scores; used where a
    statement needs one concrete ranking formula. *)
Definition sumScores (scores : list float) : float :=
  fold_left PrimFloat.add scores 0%float.

(** The weights [computeQueryNorm] adds up: those of the must and should
    children that are present. *)
Definition presentWeights {TM TS : Type}
    `{search.Searcher TM} `{search.Searcher TS}
    (must : option TM) (should : option TS) : list float :=
  match must with Some c => [search.Weight c] | None => [] end ++
  match should with Some c => [search.Weight c] | None => [] end.

(** The first error in a list of optional errors. *)
Fixpoint firstError (errs : list (option error)) : option error :=
  match errs with
  | [] => None
  | Some e :: _ => Some e
  | None :: rest => firstError rest
  end.

(** The error a child's [Close] would return, and the child after it. *)
Definition closeError {T} `{search.Searcher T} (c : option T) : option error :=
  match c with
  | Some c => fst (search.Close c)
  | None => None
  end.

Definition closed {T} `{search.Searcher T} (c : option T) : option T :=
  option_map (fun c => snd (search.Close c)) c.

(** A single-byte identifier. *)
Definition docID (b : byte) : index.IndexInternalID := [b].

(** The identifiers of a list of matches, in order. *)
Definition identifiers (ms : list DocumentMatch) : list index.IndexInternalID :=
  map search.IndexInternalID ms.

(** Streams of single-byte identifiers, every raw score 1. *)
Definition streamOf (ids : list byte) : list (index.IndexInternalID * float) :=
  map (fun b => (docID b, 1%float)) ids.

(** A should-only boolean searcher over one leaf, and the same leaf used
    directly: the two should clauses compared in the nesting example. *)
Definition requiringLeaf : StreamSearcher :=
  NewStreamSearcher (streamOf ["002"%byte]) 1%float 1.

Definition requiringInner
    : BooleanSearcher StreamSearcher StreamSearcher StreamSearcher :=
  NewBooleanSearcher None (Some requiringLeaf) None false.

Definition outerMust : StreamSearcher :=
  NewStreamSearcher (streamOf ["001"%byte; "002"%byte]) 1%float 0.

(** The outer searcher with the leaf itself as should clause. *)
Definition flatOuter
    : BooleanSearcher StreamSearcher StreamSearcher StreamSearcher :=
  NewBooleanSearcher (Some outerMust) (Some requiringLeaf) None false.

(** The outer searcher with the should-only boolean searcher as should
    clause. *)
Definition nestedOuter
    : BooleanSearcher StreamSearcher
        (BooleanSearcher StreamSearcher StreamSearcher StreamSearcher)
        StreamSearcher :=
  @NewBooleanSearcher _ _ _ _ (BooleanSearcher_Searcher sumScores 8)
    (Some outerMust) (Some requiringInner) None false.

(* ===================================================================== *)
(** ** Judgements on computations *)
(* ===================================================================== *)

Section Judgements.
Context {St : Type}.

(** Partial correctness: from a state in [P], a run of [c] that returns
    without error ends in [Q]. *)
Definition triple {A} (P : St -> Prop) (c : Comp St A) (Q : A -> St -> Prop)
    : Prop :=
  forall w a w', P w -> c w = (Ok a, w') -> Q a w'.

(** [I] is kept by every run of [c] that returns without error. *)
Definition stable {A} (I : St -> Prop) (c : Comp St A) : Prop :=
  triple I c (fun _ => I).

(** Total correctness: from a state in [P], [c] returns without error and
    ends in [Q]. *)
Definition returns {A} (P : St -> Prop) (c : Comp St A) (Q : A -> St -> Prop)
    : Prop :=
  forall w, P w -> exists a w', c w = (Ok a, w') /\ Q a w'.

End Judgements.

Section Failures.
Context {TM TS TN : Type}.
Context {searcherM : search.Searcher TM}.
Context {searcherS : search.Searcher TS}.
Context {searcherN : search.Searcher TN}.

Local Abbreviation World := (BooleanSearcher TM TS TN * SearchContext)%type.

(** [r] is what a call of [Next] or of [Advance] on the child [c] gives in
    the context [ctx]. *)
Definition childCall {T} `{search.Searcher T} (c : T) (ctx : SearchContext)
    (r : reply * T * SearchContext) : Prop :=
  search.Next c ctx = r \/ exists ID, search.Advance c ctx ID = r.

(** One change of the world: a call of a child that returns without error,
    its result stored in the child's slot; a match put back into the pool; a
    read; an assignment to [currentID], [matches] or [initialized]. *)
Inductive step : World -> World -> Prop :=
| step_must s ctx c m c' ctx' :
    mustSearcher s = Some c ->
    childCall c ctx (Reply m None, c', ctx') ->
    step (s, ctx) (set_currMust m (set_mustSearcher (Some c') s), ctx')
| step_should s ctx c m c' ctx' :
    shouldSearcher s = Some c ->
    childCall c ctx (Reply m None, c', ctx') ->
    step (s, ctx) (set_currShould m (set_shouldSearcher (Some c') s), ctx')
| step_mustNot s ctx c m c' ctx' :
    mustNotSearcher s = Some c ->
    childCall c ctx (Reply m None, c', ctx') ->
    step (s, ctx) (set_currMustNot m (set_mustNotSearcher (Some c') s), ctx')
| step_put s ctx d : step (s, ctx) (s, search.Put d ctx)
| step_touch s ctx m : step (s, ctx) (s, search.touch m ctx)
| step_currentID s ctx v : step (s, ctx) (set_currentID v s, ctx)
| step_matches s ctx v : step (s, ctx) (set_matches v s, ctx)
| step_initialized s ctx : step (s, ctx) (set_initialized true s, ctx).

(** The worlds a call passes through. *)
Inductive evolves (w1 : World) : World -> Prop :=
| evolves_refl : evolves w1 w1
| evolves_step w2 w3 : evolves w1 w2 -> step w2 w3 -> evolves w1 w3.

(** In the world [w0] a child is called, the call returns the error [e], and
    [w] is [w0] with what the call returned stored: the child's new state,
    the context as the child left it, and the returned pointer in the
    child's slot.  Nothing else differs. *)
Inductive childFailure (e : error) : World -> World -> Prop :=
| failure_must s ctx c m c' ctx' :
    mustSearcher s = Some c ->
    childCall c ctx (Reply m (Some e), c', ctx') ->
    childFailure e (s, ctx)
      (set_currMust m (set_mustSearcher (Some c') s), ctx')
| failure_should s ctx c m c' ctx' :
    shouldSearcher s = Some c ->
    childCall c ctx (Reply m (Some e), c', ctx') ->
    childFailure e (s, ctx)
      (set_currShould m (set_shouldSearcher (Some c') s), ctx')
| failure_mustNot s ctx c m c' ctx' :
    mustNotSearcher s = Some c ->
    childCall c ctx (Reply m (Some e), c', ctx') ->
    childFailure e (s, ctx)
      (set_currMustNot m (set_mustNotSearcher (Some c') s), ctx').

(** How a call of the boolean searcher may end, seen from its caller: after
    a return without error the world has evolved; an error is the error of a
    failing child call, and the world is left as that call left it. *)
Definition propagates {A} (w : World) (o : outcome A) (w' : World) : Prop :=
  match o with
  | Ok _ => evolves w w'
  | Err e => exists w0, evolves w w0 /\ childFailure e w0 w'
  | Stop _ => True
  end.

Definition faithful {A} (c : Comp World A) : Prop :=
  forall w o w', c w = (o, w') -> propagates w o w'.

End Failures.

(* ===================================================================== *)
(** ** Worlds used as examples *)
(* ===================================================================== *)

(** The error of the failing children below. *)
Definition readFailed : error := "read failed"%string.

(** No must, no should, and a must-not child whose first call fails. *)
Definition brokenMustNot : StreamSearcher :=
  set_faults [Some readFailed] (NewStreamSearcher (streamOf ["004"%byte]) 1%float 0).

Definition onlyBrokenMustNot
    : BooleanSearcher StreamSearcher StreamSearcher StreamSearcher :=
  NewBooleanSearcher None None (Some brokenMustNot) false.

(** Must [1,3,5] whose third call fails, must-not [3]. *)
Definition failingMust : StreamSearcher :=
  set_faults [None; None; Some readFailed]
    (NewStreamSearcher (streamOf ["001"%byte; "003"%byte; "005"%byte]) 1%float 0).

Definition failingThird
    : BooleanSearcher StreamSearcher StreamSearcher StreamSearcher :=
  NewBooleanSearcher (Some failingMust) None
    (Some (NewStreamSearcher (streamOf ["003"%byte]) 1%float 0)) false.

(** The world after the first call of [Next] on [failingThird], which
    returns the match 1. *)
Definition afterFirstNext
    : BooleanSearcher StreamSearcher StreamSearcher StreamSearcher * SearchContext :=
  snd (Next sumScores 2 (failingThird, NewSearchContext)).

(** The world after the second call, which fails. *)
Definition afterFailedNext
    : BooleanSearcher StreamSearcher StreamSearcher StreamSearcher * SearchContext :=
  snd (Next sumScores 2 afterFirstNext).

(** No must, no should, and a must-not child over [4]. *)
Definition onlyMustNot
    : BooleanSearcher StreamSearcher StreamSearcher StreamSearcher :=
  NewBooleanSearcher None None
    (Some (NewStreamSearcher (streamOf ["004"%byte]) 1%float 0)) false.

(* ===================================================================== *)
(** ** The merge, read off the children *)
(* ===================================================================== *)

(** What the loop of [Next] computes, stated on the states of three stream
    children alone.  The theorems relate the methods to these functions and
    these functions to the streams. *)

Definition item : Type := (index.IndexInternalID * float)%type.

Definition children : Type :=
  (option StreamSearcher * option StreamSearcher * option StreamSearcher)%type.

Definition kids
    (s : BooleanSearcher StreamSearcher StreamSearcher StreamSearcher)
    : children :=
  (mustSearcher s, shouldSearcher s, mustNotSearcher s).

(** The current position of [c] lies before [cid] / is [cid]. *)
Definition headBefore (cid : index.IndexInternalID) (c : StreamSearcher) : bool :=
  match ahead c with
  | x :: _ => before cid x
  | [] => false
  end.

Definition headAt (cid : index.IndexInternalID) (c : StreamSearcher) : bool :=
  match ahead c with
  | x :: _ => index.Equals (fst x) cid
  | [] => false
  end.

(** A clause that does not drive is advanced to the candidate when it is
    behind, and left alone otherwise. *)
Definition align (cid : index.IndexInternalID) (c : option StreamSearcher)
    : option StreamSearcher :=
  match c with
  | Some c => Some (if headBefore cid c then skipTo cid c else c)
  | None => None
  end.

Definition atCandidate (cid : index.IndexInternalID)
    (c : option StreamSearcher) : bool :=
  match c with
  | Some c => headAt cid c
  | None => false
  end.

(** The score of the match at the current position, as the child emits it. *)
Definition headScore (c : option StreamSearcher) : list float :=
  match c with
  | Some c =>
      match ahead c with
      | x :: _ => [scaled c (snd x)]
      | [] => []
      end
  | None => []
  end.

(** [s.shouldSearcher == nil || s.shouldSearcher.Min() == 0]. *)
Definition optionalShould (c : option StreamSearcher) : bool :=
  match c with
  | Some c => (minimum c =? 0)%Z
  | None => true
  end.

(** The identifier that drives: the must child's position, or the should
    child's when there is no must child. *)
Definition driver (k : children) : list item :=
  match k with
  | (Some cm, _, _) => ahead cm
  | (None, Some cs, _) => ahead cs
  | (None, None, _) => []
  end.

Definition driverID (k : children) : option index.IndexInternalID :=
  option_map fst (head (driver k)).

Section Merge.
Variable combine : list float -> float.

(** One pass of the loop: [None] when there is no candidate; otherwise the
    match emitted, if the candidate qualifies, and the children after the
    pass. *)
Definition mergeStep (k : children) : option (option item * children) :=
  match k with
  | (Some cm, cs, cn) =>
      match ahead cm with
      | [] => None
      | x :: _ =>
          let cid := fst x in
          let cn1 := align cid cn in
          if atCandidate cid cn1
          then Some (None, (Some (stepPast cm), cs, cn1))
          else
            let cs1 := align cid cs in
            if atCandidate cid cs1
            then Some (Some (cid, combine (scaled cm (snd x) :: headScore cs1)),
                       (Some (stepPast cm), cs1, cn1))
            else if optionalShould cs
            then Some (Some (cid, combine [scaled cm (snd x)]),
                       (Some (stepPast cm), cs1, cn1))
            else Some (None, (Some (stepPast cm), cs1, cn1))
      end
  | (None, Some cs, cn) =>
      match ahead cs with
      | [] => None
      | x :: _ =>
          let cid := fst x in
          let cn1 := align cid cn in
          if atCandidate cid cn1
          then Some (None, (None, Some (stepPast cs), cn1))
          else Some (Some (cid, combine [scaled cs (snd x)]),
                     (None, Some (stepPast cs), cn1))
      end
  | (None, None, _) => None
  end.

(** The loop: the first candidate that qualifies, or the end of the stream;
    [None] when [fuel] passes do not suffice. *)
Fixpoint mergeLoop (fuel : nat) (k : children)
    : option (option item * children) :=
  match mergeStep k with
  | None => Some (None, k)
  | Some (r, k') =>
      match fuel with
      | O => None
      | S fuel' =>
          match r with
          | Some x => Some (Some x, k')
          | None => mergeLoop fuel' k'
          end
      end
  end.

End Merge.

(** What [Advance] does to the children. *)
Definition skipAll (ID : index.IndexInternalID) (k : children) : children :=
  match k with
  | (cm, cs, cn) =>
      (option_map (skipTo ID) cm, option_map (skipTo ID) cs,
       option_map (skipTo ID) cn)
  end.

(** What the first pull does to a child. *)
Definition startAll (k : children) : children :=
  match k with
  | (cm, cs, cn) =>
      (option_map stepPast cm, option_map stepPast cs, option_map stepPast cn)
  end.

(** The slot [cur] holds the match at the current position of [c]. *)
Definition shows (cur : option DocumentMatch) (c : StreamSearcher) : Prop :=
  match ahead c with
  | [] => cur = None
  | x :: _ =>
      exists m, cur = Some m /\ search.IndexInternalID m = fst x /\
                search.Score m = scaled c (snd x)
  end.

(** A child that never fails, pulled at least once, and its slot. *)
Definition positioned (c : option StreamSearcher) (cur : option DocumentMatch)
    : Prop :=
  match c with
  | None => cur = None
  | Some c => started c = true /\ faults c = [] /\ shows cur c
  end.

(** A child that never fails and has not been called. *)
Definition unstarted (c : option StreamSearcher) : Prop :=
  match c with
  | None => True
  | Some c => started c = false /\ faults c = []
  end.

(** The states of a boolean searcher over streams between two calls: after
    the first call ... *)
Definition ready
    (s : BooleanSearcher StreamSearcher StreamSearcher StreamSearcher) : Prop :=
  initialized s = true /\
  positioned (mustSearcher s) (currMust s) /\
  positioned (shouldSearcher s) (currShould s) /\
  positioned (mustNotSearcher s) (currMustNot s) /\
  currentID s = driverID (kids s).

(** ... and before it. *)
Definition fresh
    (s : BooleanSearcher StreamSearcher StreamSearcher StreamSearcher) : Prop :=
  initialized s = false /\
  currMust s = None /\ currShould s = None /\ currMustNot s = None /\
  unstarted (mustSearcher s) /\ unstarted (shouldSearcher s) /\
  unstarted (mustNotSearcher s).

(** The match returned is the one the merge computes (the end of the stream
    for [None]). *)
Definition reports (r : option DocumentMatch) (x : option item) : Prop :=
  match r, x with
  | None, None => True
  | Some m, Some x =>
      search.IndexInternalID m = fst x /\ search.Score m = snd x
  | _, _ => False
  end.

(** From the searcher state [s] and any context, [c] returns without error
    with a result and a searcher state in [Q]. *)
Definition runs {St C A} (c : Comp (St * C) A) (s : St) (Q : A -> St -> Prop)
    : Prop :=
  forall ctx, exists a s' ctx', c (s, ctx) = (Ok a, (s', ctx')) /\ Q a s'.

(** The pass of the loop ends as the merge says. *)
Definition flowReports (fl : flow) (r : option item) : Prop :=
  match fl, r with
  | Continue, None => True
  | Break rv, Some x =>
      search.IndexInternalID rv = fst x /\ search.Score rv = snd x
  | _, _ => False
  end.

(** The children as the next call finds them: the first call of a fresh
    searcher pulls every child once. *)
Definition position
    (s : BooleanSearcher StreamSearcher StreamSearcher StreamSearcher)
    : children :=
  if initialized s then kids s else startAll (kids s).

(** The states a boolean searcher over streams that never fail goes
    through. *)
Definition consistent
    (s : BooleanSearcher StreamSearcher StreamSearcher StreamSearcher) : Prop :=
  ready s \/ fresh s.

(* ===================================================================== *)
(** ** What the streams say *)
(* ===================================================================== *)

(** The matches a child has not passed yet; none for an absent child. *)
Definition lookahead (c : option StreamSearcher) : list item :=
  match c with
  | Some c => ahead c
  | None => []
  end.

(** The identifier [i] occurs in the stream [l]. *)
Definition member (i : index.IndexInternalID) (l : list item) : bool :=
  existsb (fun y => index.Equals (fst y) i) l.

(** Strictly increasing identifiers, no duplicates. *)
Fixpoint ascendingIDs (l : list index.IndexInternalID) : bool :=
  match l with
  | [] => true
  | i :: l' =>
      match l' with
      | [] => true
      | j :: _ => (index.Compare i j <? 0)%Z && ascendingIDs l'
      end
  end.

Definition ascending (l : list item) : bool := ascendingIDs (map fst l).

(** Every child emits in strictly increasing order ... *)
Definition sortedKids (k : children) : Prop :=
  match k with
  | (cm, cs, cn) =>
      ascending (lookahead cm) = true /\
      ascending (lookahead cs) = true /\
      ascending (lookahead cn) = true
  end.

(** ... and has been pulled. *)
Definition startedKids (k : children) : Prop :=
  match k with
  | (cm, cs, cn) =>
      (forall c, cm = Some c -> started c = true) /\
      (forall c, cs = Some c -> started c = true) /\
      (forall c, cn = Some c -> started c = true)
  end.

(** The candidate [x] of the driving stream qualifies: it is not in the
    must-not stream and, when a must child drives and the should child
    requires a match, it is in the should stream. *)
Definition qualifies (k : children) (x : item) : bool :=
  match k with
  | (cm, cs, cn) =>
      negb (member (fst x) (lookahead cn)) &&
      match cm with
      | Some _ => optionalShould cs || member (fst x) (lookahead cs)
      | None => true
      end
  end.

(** The score the should child gives to [i], if it has [i]. *)
Definition scoreAt (i : index.IndexInternalID) (c : option StreamSearcher)
    : list float :=
  match c with
  | Some c =>
      match find (fun y => index.Equals (fst y) i) (ahead c) with
      | Some y => [scaled c (snd y)]
      | None => []
      end
  | None => []
  end.

Section Expected.
Variable combine : list float -> float.

(** The match emitted for a qualifying candidate. *)
Definition expect (k : children) (x : item) : item :=
  match k with
  | (Some cm, cs, _) =>
      (fst x, combine (scaled cm (snd x) :: scoreAt (fst x) cs))
  | (None, Some cs, _) => (fst x, combine [scaled cs (snd x)])
  | (None, None, _) => x
  end.

(** Everything a searcher whose children stand at [k] still emits. *)
Definition expected (k : children) : list item :=
  map (expect k) (filter (qualifies k) (driver k)).

End Expected.

(** The matches a caller received, as pairs of identifier and score. *)
Definition emitted (ms : list DocumentMatch) : list item :=
  map (fun m => (search.IndexInternalID m, search.Score m)) ms.

(** What a caller sees of one result: identifier and score, or the end. *)
Definition seen (r : option DocumentMatch) : option item :=
  option_map (fun m => (search.IndexInternalID m, search.Score m)) r.

(** A searcher with all three clauses, the should clause required: must
    [1,3,5,7], should [3,4,7] with minimum 1, must-not [4,7]. *)
Definition threeMust : StreamSearcher :=
  NewStreamSearcher (streamOf ["001"; "003"; "005"; "007"]%byte) 1%float 0.

Definition threeShould : StreamSearcher :=
  NewStreamSearcher (streamOf ["003"; "004"; "007"]%byte) 1%float 1.

Definition threeMustNot : StreamSearcher :=
  NewStreamSearcher (streamOf ["004"; "007"]%byte) 1%float 0.

Definition threeClauses
    : BooleanSearcher StreamSearcher StreamSearcher StreamSearcher :=
  NewBooleanSearcher (Some threeMust) (Some threeShould) (Some threeMustNot)
    false.

(** The first match it returns. *)
Definition threeFirst : DocumentMatch :=
  match fst (Next sumScores 5 (threeClauses, NewSearchContext)) with
  | Ok (Some m) => m
  | _ => {| search.ptr := 0; search.IndexInternalID := []; search.Score := 0%float |}
  end.

(** The matches a caller holds after one call and a run of [Next]. *)
Definition andThen (r : option DocumentMatch) (ms : list DocumentMatch)
    : list DocumentMatch :=
  match r with
  | Some m => m :: ms
  | None => ms
  end.

(* ===================================================================== *)
(** ** Where the matches are *)
(* ===================================================================== *)

(** From the world [w], a run of [c] that returns without error ends with a
    result and a world in [Q]. *)
Definition yields {St A} (c : Comp St A) (w : St) (Q : A -> St -> Prop)
    : Prop :=
  match c w with
  | (Ok a, w') => Q a w'
  | _ => True
  end.

(** Modelled from the spec: what a child does to the pool (4.1, 5).  A call
    that gives a match has acquired exactly that match and has put nothing
    back; a call that gives none has left the pool alone. *)
Definition drawsOne {T} (ctx : SearchContext)
    (r : reply * T * SearchContext) : Prop :=
  match r with
  | (Reply (Some m) _, _, ctx') =>
      search.ptr m = search.acquired ctx /\
      ctx' = {| search.acquired := S (search.acquired ctx);
                search.avail := search.avail ctx;
                search.stale := search.stale ctx |}
  | (Reply None _, _, ctx') => ctx' = ctx
  | (Crashed _, _, _) => True
  end.

Definition frugal (T : Type) `{search.Searcher T} : Prop :=
  forall (c : T) (ctx : SearchContext),
    drawsOne ctx (search.Next c ctx) /\
    forall ID, drawsOne ctx (search.Advance c ctx ID).
Arguments frugal T {_}.

(** The identity of the object in a slot. *)
Definition optPtr (d : option DocumentMatch) : list nat :=
  match d with
  | Some m => [search.ptr m]
  | None => []
  end.

(** The objects the searcher holds in [currMust], [currShould] and
    [currMustNot]. *)
Definition held {TM TS TN} (s : BooleanSearcher TM TS TN) : list nat :=
  optPtr (currMust s) ++ optPtr (currShould s) ++ optPtr (currMustNot s).

(** Every place a match can be: a slot of the searcher, the pool, or the
    hands of the caller, who was given the matches [out]. *)
Definition places {TM TS TN} (out : list DocumentMatch)
    (w : BooleanSearcher TM TS TN * SearchContext) : list nat :=
  held (fst w) ++ map search.ptr (search.avail (snd w)) ++ map search.ptr out.

(** Every match acquired so far is in exactly one place, nothing else is
    anywhere, and no match was read after it had been put back. *)
Definition accounted {TM TS TN} (out : list DocumentMatch)
    (w : BooleanSearcher TM TS TN * SearchContext) : Prop :=
  (forall p, count_occ Nat.eq_dec (places out w) p =
             if p <? search.acquired (snd w) then 1 else 0) /\
  search.stale (snd w) = [].

(** [currMust] is used only with a must child, and while there is a
    candidate the must child's slot is filled. *)
Definition driven {TM TS TN} (s : BooleanSearcher TM TS TN) : Prop :=
  (mustSearcher s = None -> currMust s = None) /\
  (mustSearcher s <> None -> currentID s <> None -> currMust s <> None).

(** [currMust] is used only with a must child. *)
Definition tidy {TM TS TN} (s : BooleanSearcher TM TS TN) : Prop :=
  mustSearcher s = None -> currMust s = None.

(** Inside the loop of [Next]: with a must child, its slot is filled. *)
Definition inLoop {TM TS TN} (s : BooleanSearcher TM TS TN) : Prop :=
  tidy s /\ (mustSearcher s <> None -> currMust s <> None).

(** The slot of the clause that drives. *)
Definition drivingSlot {TM TS TN} (s : BooleanSearcher TM TS TN)
    : option DocumentMatch :=
  if notNil (mustSearcher s) then currMust s else currShould s.

(** After a pass of the loop: a match that leaves the loop is in the
    caller's hands. *)
Definition settled {TM TS TN} (out : list DocumentMatch) (r : flow)
    (w : BooleanSearcher TM TS TN * SearchContext) : Prop :=
  match r with
  | Continue => accounted out w
  | Break rv => accounted (rv :: out) w
  end /\ driven (fst w).

(* ===================================================================== *)
(** ** Sizes: [Count] and [DocumentMatchPoolSize] *)
(* ===================================================================== *)

(** Go's [uint64], and [int] as it is on a 64-bit platform: a sum wraps
    around. *)
Definition uint64 (z : Z) : Z := (z mod 2 ^ 64)%Z.

Definition int (z : Z) : Z := ((z + 2 ^ 63) mod 2 ^ 64 - 2 ^ 63)%Z.

Module sized.

(** Modelled from the spec: the two methods of the interface
    [search.Searcher] that the boolean searcher calls on its children in
    [Count] and [DocumentMatchPoolSize]; the interface is declared outside
    the file under study.  Neither method changes the receiver. *)
Class Searcher (S : Type) : Type := {
  Count : S -> Z;
  DocumentMatchPoolSize : S -> Z
}.

End sized.

Section Sizes.
Context {TM TS TN : Type}.
Context {sizedM : sized.Searcher TM}.
Context {sizedS : sized.Searcher TS}.
Context {sizedN : sized.Searcher TN}.

(** [func (s *BooleanSearcher) Count] (lines 330-341). *)
Definition Count (s : BooleanSearcher TM TS TN) : Z :=
  (* for now return a worst case *)
  let sum := 0%Z in
  let sum :=
    match mustSearcher s with
    | Some c => uint64 (sum + sized.Count c)
    | None => sum
    end in
  let sum :=
    match shouldSearcher s with
    | Some c => uint64 (sum + sized.Count c)
    | None => sum
    end in
  sum.

(** [func (s *BooleanSearcher) DocumentMatchPoolSize] (lines 369-381). *)
Definition DocumentMatchPoolSize (s : BooleanSearcher TM TS TN) : Z :=
  let rv := 3%Z in
  let rv :=
    match mustSearcher s with
    | Some c => int (rv + sized.DocumentMatchPoolSize c)
    | None => rv
    end in
  let rv :=
    match shouldSearcher s with
    | Some c => int (rv + sized.DocumentMatchPoolSize c)
    | None => rv
    end in
  let rv :=
    match mustNotSearcher s with
    | Some c => int (rv + sized.DocumentMatchPoolSize c)
    | None => rv
    end in
  rv.

(** A boolean searcher can be the child of another one. *)
#[global] Instance BooleanSearcher_sized
    : sized.Searcher (BooleanSearcher TM TS TN) := {
  sized.Count := Count;
  sized.DocumentMatchPoolSize := DocumentMatchPoolSize
}.

End Sizes.

(** Modelled from the spec: a leaf over a stream counts the documents it
    still has to give, and needs one match of the pool (a term searcher of
    the library reports the number of documents of its term and 1). *)
#[global] Instance StreamSearcher_sized : sized.Searcher StreamSearcher := {
  sized.Count := fun c => uint64 (Z.of_nat (List.length (ahead c)));
  sized.DocumentMatchPoolSize := fun _ => 1%Z
}.

(** A script of calls on the searcher [threeClauses] and the world after
    it. *)
Definition threeScript : list call :=
  [CallNext; CallAdvance (docID "005"); CallNext].

Definition threeAfter
    : list DocumentMatch *
      (BooleanSearcher StreamSearcher StreamSearcher StreamSearcher *
       SearchContext) :=
  match session sumScores 5 threeScript (threeClauses, NewSearchContext) with
  | Some r => r
  | None => ([], (threeClauses, NewSearchContext))
  end.

(* ===================================================================== *)
(** ** No nil dereference *)
(* ===================================================================== *)

(** From the searcher state [s] and any context, [c] does not panic, and a
    run that returns without error ends with a result and a state in [Q].
    An error of a child and the end of the fuel are allowed. *)
Definition safely {St C A} (c : Comp (St * C) A) (s : St)
    (Q : A -> St -> Prop) : Prop :=
  forall ctx,
    match c (s, ctx) with
    | (Ok a, (s', _)) => Q a s'
    | (Err _, _) => True
    | (Stop Panic, _) => False
    | (Stop OutOfFuel, _) => True
    end.

(** A call of a child does not panic, and leaves the child in a state of
    [ok] when it returns without error. *)
Definition calm {T} (ok : T -> Prop) (r : reply * T * SearchContext) : Prop :=
  match r with
  | (Reply _ None, c', _) => ok c'
  | (Reply _ (Some _), _, _) => True
  | (Crashed Panic, _, _) => False
  | (Crashed OutOfFuel, _, _) => True
  end.

(** A child that never panics in the states of [ok]. *)
Definition sound (T : Type) `{search.Searcher T} (ok : T -> Prop) : Prop :=
  forall (c : T) (ctx : SearchContext),
    ok c ->
    calm ok (search.Next c ctx) /\
    forall ID, calm ok (search.Advance c ctx ID).
Arguments sound T {_} ok.

Definition okChild {T} (ok : T -> Prop) (c : option T) : Prop :=
  match c with
  | Some c => ok c
  | None => True
  end.

Section WellFormed.
Context {TM TS TN : Type}.
Variable okM : TM -> Prop.
Variable okS : TS -> Prop.
Variable okN : TN -> Prop.

(** The children are in good states. *)
Definition staffed (s : BooleanSearcher TM TS TN) : Prop :=
  okChild okM (mustSearcher s) /\ okChild okS (shouldSearcher s) /\
  okChild okN (mustNotSearcher s).

(** A slot is filled only by a child that is there. *)
Definition backed (s : BooleanSearcher TM TS TN) : Prop :=
  (currMust s <> None -> mustSearcher s <> None) /\
  (currShould s <> None -> shouldSearcher s <> None) /\
  (currMustNot s <> None -> mustNotSearcher s <> None).

(** The candidate [cid] is the identifier of the match in the slot of the
    clause that drives. *)
Definition candidate (cid : index.IndexInternalID)
    (s : BooleanSearcher TM TS TN) : Prop :=
  exists m, drivingSlot s = Some m /\ search.IndexInternalID m = cid.

(** The states of a boolean searcher between two calls that returned
    without error. *)
Definition wellFormed (s : BooleanSearcher TM TS TN) : Prop :=
  staffed s /\ backed s /\
  forall cid, currentID s = Some cid -> candidate cid s.

End WellFormed.

Section Play.
Context {TM TS TN : Type}.
Context {searcherM : search.Searcher TM}.
Context {searcherS : search.Searcher TS}.
Context {searcherN : search.Searcher TN}.
Variable combine : list float -> float.

(** How a script of calls ends: the first call that does not return without
    error ends it. *)
Fixpoint play (fuel : nat) (script : list call)
    (w : BooleanSearcher TM TS TN * SearchContext) : outcome unit :=
  match script with
  | [] => Ok tt
  | c :: script' =>
      match perform combine fuel c w with
      | (Ok _, w') => play fuel script' w'
      | (Err e, _) => Err e
      | (Stop f, _) => Stop f
      end
  end.

End Play.

(* ===================================================================== *)
(** ** Where a call fails *)
(* ===================================================================== *)

Section Raising.
Context {TM TS TN : Type}.
Context {searcherM : search.Searcher TM}.
Context {searcherS : search.Searcher TS}.
Context {searcherN : search.Searcher TN}.

Local Abbreviation World := (BooleanSearcher TM TS TN * SearchContext)%type.

(** The statements that call a child and store what it returns:
    [s.currMust, err = s.mustSearcher.Next(ctx)] (lines 78, 123),
    [s.currMust, err = s.mustSearcher.Advance(ctx, ID)] (line 295), and the
    same for the should child (lines 88, 131, 212, 304) and the must-not
    child (lines 98, 186, 313). *)
Inductive callSite : Comp World unit -> Prop :=
| call_must_Next : callSite (pullMust search.Next)
| call_must_Advance ID : callSite (pullMust (advanceTo ID))
| call_should_Next : callSite (pullShould search.Next)
| call_should_Advance ID : callSite (pullShould (advanceTo ID))
| call_mustNot_Next : callSite (pullMustNot search.Next)
| call_mustNot_Advance ID : callSite (pullMustNot (advanceTo ID)).

(** [raisedAt c w w0 e w']: the run of [c] from the world [w] ends with the
    error [e] in the world [w'], and it ends there because a child call
    failed.  The statements of [c] before that call were run and returned
    without error, leaving the world [w0]; the call was made in [w0],
    returned [e] and left [w']; no statement of [c] ran after it.
    - [raised_call]: [c] is the failing call itself;
    - [raised_first]: the call is in the first part of [c ;; k], and [k] is
      not run;
    - [raised_later]: the first part of [c ;; k] is run from [w], returns
      [a] without error and leaves [w1]; the call is in [k a], run from
      [w1]. *)
Inductive raisedAt
    : forall A : Type, Comp World A -> World -> World -> error -> World -> Prop :=
| raised_call (c : Comp World unit) w e w' :
    callSite c -> c w = (Err e, w') -> raisedAt c w w e w'
| raised_first (A B : Type) (c : Comp World A) (k : A -> Comp World B)
    w w0 e w' :
    raisedAt c w w0 e w' -> raisedAt (bind c k) w w0 e w'
| raised_later (A B : Type) (c : Comp World A) (k : A -> Comp World B)
    w a w1 w0 e w' :
    c w = (Ok a, w1) -> raisedAt (k a) w1 w0 e w' ->
    raisedAt (bind c k) w w0 e w'.

(** Every error of [c] is raised by a child call, after statements that
    changed the world step by step. *)
Definition tracked {A} (c : Comp World A) : Prop :=
  forall w e w',
    c w = (Err e, w') ->
    exists w0, raisedAt c w w0 e w' /\ evolves w w0 /\ childFailure e w0 w'.

End Raising.

(* ===================================================================== *)
(** ** More example searchers *)
(* ===================================================================== *)

(** A boolean searcher as must-not child: the inner searcher has the must
    stream [5], the outer one the must stream [1,5]. *)
Definition excludingInner
    : BooleanSearcher StreamSearcher StreamSearcher StreamSearcher :=
  NewBooleanSearcher
    (Some (NewStreamSearcher (streamOf ["005"%byte]) 1%float 0)) None None
    false.

Definition excludingOuter
    : BooleanSearcher StreamSearcher StreamSearcher
        (BooleanSearcher StreamSearcher StreamSearcher StreamSearcher) :=
  NewBooleanSearcher
    (Some (NewStreamSearcher (streamOf ["001"%byte; "005"%byte]) 1%float 0))
    None (Some excludingInner) false.


(** Must [1,3,5,7] alone. *)
Definition mustAlone
    : BooleanSearcher StreamSearcher StreamSearcher StreamSearcher :=
  NewBooleanSearcher (Some threeMust) None None false.

(** The match of a result that is one. *)
Definition theMatch (r : outcome (option DocumentMatch)) : DocumentMatch :=
  match r with
  | Ok (Some m) => m
  | _ => {| search.ptr := 0; search.IndexInternalID := [];
            search.Score := 0%float |}
  end.

(* ===================================================================== *)
(** ** What a child emits when it is only asked for the next match *)
(* ===================================================================== *)

(** The matches a searcher gives to successive calls of [Next], whatever
    context each call is given, for as long as every call gives a match and
    no error. *)
Inductive nextRun {T} `{search.Searcher T} (c : T)
    : list DocumentMatch -> T -> Prop :=
| nextRun_nil : nextRun c [] c
| nextRun_more ms c1 ctx m c2 ctx' :
    nextRun c ms c1 ->
    search.Next c1 ctx = (Reply (Some m) None, c2, ctx') ->
    nextRun c (ms ++ [m]) c2.

(** The searcher [c] emits its matches in strictly increasing order of
    identifier: the matches of every such run of calls of [Next] do. *)
Definition emitsAscending {T} `{search.Searcher T} (c : T) : Prop :=
  forall ms c', nextRun c ms c' -> ascendingIDs (identifiers ms) = true.

(** From the searcher state [s] and any context, a run of [c] that returns
    without error ends with a result and a searcher state in [Q]. *)
Definition gives {St C A} (c : Comp (St * C) A) (s : St) (Q : A -> St -> Prop)
    : Prop :=
  forall ctx,
    match c (s, ctx) with
    | (Ok a, (s', _)) => Q a s'
    | _ => True
    end.

Section Ascent.
Context {TM TS TN : Type}.
Context {searcherM : search.Searcher TM}.
Context {searcherS : search.Searcher TS}.
Context {searcherN : search.Searcher TN}.

Local Abbreviation BS := (BooleanSearcher TM TS TN).

(** The child that drives the iteration, the must child or else the should
    child, emits in strictly increasing order. *)
Definition drivingAscends (s : BS) : Prop :=
  match mustSearcher s with
  | Some c => emitsAscending c
  | None =>
      match shouldSearcher s with
      | Some c => emitsAscending c
      | None => True
      end
  end.

(** A searcher no call was made on: as [NewBooleanSearcher] leaves it. *)
Definition unused (s : BS) : Prop :=
  initialized s = false /\ currMust s = None /\ currShould s = None.

(** Since the state [s0] the driving child was asked for its next match
    only, and gave the matches [ns]. *)
Definition trail (s0 s : BS) (ns : list DocumentMatch) : Prop :=
  match mustSearcher s0 with
  | Some c0 => exists c, mustSearcher s = Some c /\ nextRun c0 ns c
  | None =>
      mustSearcher s = None /\
      match shouldSearcher s0 with
      | Some c0 => exists c, shouldSearcher s = Some c /\ nextRun c0 ns c
      | None => False
      end
  end.

(** Inside the loop of [Next] with the candidate [cid]: the driving child's
    slot holds its latest match, which is at [cid]; before it the child gave
    the identifiers [past]. *)
Definition leads (s0 : BS) (past : list index.IndexInternalID)
    (cid : index.IndexInternalID) (s : BS) : Prop :=
  initialized s = true /\ tidy s /\
  exists m ns,
    drivingSlot s = Some m /\ search.IndexInternalID m = cid /\
    trail s0 s ns /\ identifiers ns = past ++ [cid].

(** Between two calls, after the first one. *)
Definition between (s0 : BS) (past : list index.IndexInternalID) (s : BS)
    : Prop :=
  initialized s = true /\ tidy s /\
  forall cid, currentID s = Some cid -> leads s0 past cid s.

(** What a pass of the loop leaves: the candidate is behind, and a match
    that leaves the loop is at the candidate. *)
Definition passed (s0 : BS) (past : list index.IndexInternalID)
    (cid : index.IndexInternalID) (fl : flow) (s' : BS) : Prop :=
  between s0 (past ++ [cid]) s' /\
  match fl with
  | Break rv => search.IndexInternalID rv = cid
  | Continue => True
  end.

(** What a call of [Next] leaves: the driving child has gone on, and a
    match that is returned is at the last identifier the child left behind. *)
Definition returned (s0 : BS) (past : list index.IndexInternalID)
    (r : option DocumentMatch) (s' : BS) : Prop :=
  exists past',
    between s0 past' s' /\ ascendingIDs past' = true /\
    match r with
    | Some rv => exists mid, past' = past ++ mid ++ [search.IndexInternalID rv]
    | None => True
    end.

(** Where a searcher stands between two calls of [Next]: no call was made
    yet, or the driving child has left the identifiers [past] behind. *)
Definition poised (s0 : BS) (past : list index.IndexInternalID) (s : BS)
    : Prop :=
  (s = s0 /\ unused s0 /\ past = []) \/ between s0 past s.

End Ascent.

(* ===================================================================== *)
(** * Theorems *)
(* ===================================================================== *)

(** ** The order on identifiers *)

Lemma Equals_eq (a b : index.IndexInternalID) :
  index.Equals a b = true <-> a = b.
Proof.
  revert b; induction a as [|x a IH]; intros [|y b]; simpl;
    try (split; [discriminate | congruence]); try tauto.
  rewrite andb_true_iff, IH. split.
  - intros [Hxy ->]. now rewrite (Byte.byte_dec_bl _ _ Hxy).
  - intros [= -> ->]. split; [now apply Byte.byte_dec_lb | reflexivity].
Qed.

Lemma to_N_inj (x y : byte) : Byte.to_N x = Byte.to_N y -> x = y.
Proof.
  intros H. pose proof (Byte.of_to_N x) as Hx. rewrite H, Byte.of_to_N in Hx.
  congruence.
Qed.

Lemma Compare_eq (a b : index.IndexInternalID) :
  index.Compare a b = 0%Z <-> a = b.
Proof.
  revert b; induction a as [|x a IH]; intros [|y b]; simpl;
    try (split; [discriminate | congruence]); try tauto.
  destruct (N.compare_spec (Byte.to_N x) (Byte.to_N y)) as [He|Hl|Hg].
  - apply to_N_inj in He; subst y. rewrite IH. split; congruence.
  - split; [discriminate|]. intros [= -> ->]. lia.
  - split; [discriminate|]. intros [= -> ->]. lia.
Qed.

Lemma Compare_refl (a : index.IndexInternalID) : index.Compare a a = 0%Z.
Proof. now apply Compare_eq. Qed.

Lemma Compare_range (a b : index.IndexInternalID) :
  index.Compare a b = (-1)%Z \/ index.Compare a b = 0%Z \/ index.Compare a b = 1%Z.
Proof.
  revert b; induction a as [|x a IH]; intros [|y b]; simpl; auto.
  destruct (N.compare (Byte.to_N x) (Byte.to_N y)); auto.
Qed.

Lemma Compare_antisym (a b : index.IndexInternalID) :
  index.Compare b a = (- index.Compare a b)%Z.
Proof.
  revert b; induction a as [|x a IH]; intros [|y b]; simpl; auto.
  rewrite (N.compare_antisym (Byte.to_N x) (Byte.to_N y)).
  destruct (N.compare (Byte.to_N x) (Byte.to_N y)); simpl; auto.
Qed.

Lemma Compare_trans (a b c : index.IndexInternalID) :
  (index.Compare a b < 0)%Z -> (index.Compare b c < 0)%Z ->
  (index.Compare a c < 0)%Z.
Proof.
  revert b c; induction a as [|x a IH]; intros [|y b] [|z c]; simpl;
    try lia.
  destruct (N.compare_spec (Byte.to_N x) (Byte.to_N y)) as [He|Hl|Hg];
    destruct (N.compare_spec (Byte.to_N y) (Byte.to_N z)) as [He'|Hl'|Hg'];
    try lia; intros H1 H2.
  - rewrite He, He', N.compare_refl. eauto.
  - rewrite He. now apply N.compare_lt_iff in Hl' as ->.
  - rewrite <- He'. now apply N.compare_lt_iff in Hl as ->.
  - assert (Hxz : (Byte.to_N x < Byte.to_N z)%N) by lia.
    now apply N.compare_lt_iff in Hxz as ->.
Qed.

Lemma Equals_Compare (a b : index.IndexInternalID) :
  index.Equals a b = (index.Compare a b =? 0)%Z.
Proof.
  destruct (index.Equals a b) eqn:E.
  - apply Equals_eq in E; subst. now rewrite Compare_refl.
  - symmetry. apply Z.eqb_neq. intros H. apply Compare_eq in H.
    apply Equals_eq in H. congruence.
Qed.

(** The three-way split used throughout: [a] is before, at, or after [b]. *)
Lemma Compare_cases (a b : index.IndexInternalID) :
  ((index.Compare a b <? 0)%Z = true /\ index.Equals a b = false) \/
  ((index.Compare a b <? 0)%Z = false /\ index.Equals a b = true /\ a = b) \/
  ((index.Compare a b <? 0)%Z = false /\ index.Equals a b = false /\
   (index.Compare b a <? 0)%Z = true).
Proof.
  rewrite Equals_Compare, (Compare_antisym a b).
  destruct (Compare_range a b) as [H|[H|H]]; rewrite H; simpl.
  - left; auto.
  - right; left. repeat split. now apply Compare_eq.
  - right; right; auto.
Qed.

(** ** Construction, [Close] and [Min] *)

Section Generic.
Context {TM TS TN : Type}.
Context {searcherM : search.Searcher TM}.
Context {searcherS : search.Searcher TS}.
Context {searcherN : search.Searcher TN}.

(** C6.  The constructor sets the query norm to 1 / sqrt of the sum of the
    weights of the must and should children that are present (an absent child
    adds nothing, the must-not child is never asked), hands exactly that norm
    to the must and should children by one call of [SetQueryNorm] each, and
    leaves the must-not child alone.  With no weight to add, or with weights
    that are zero, the sum is 0 and the norm is the infinity of float64:
    nothing guards the division. *)
Theorem NewBooleanSearcher_queryNorm :
  forall (must : option TM) (should : option TS) (mustNot : option TN)
         (explain : bool),
    let norm :=
      (1 / sqrt (fold_left PrimFloat.add (presentWeights must should) 0))%float in
    let s := NewBooleanSearcher must should mustNot explain in
    queryNorm s = norm /\
    mustSearcher s = option_map (fun c => search.SetQueryNorm c norm) must /\
    shouldSearcher s = option_map (fun c => search.SetQueryNorm c norm) should /\
    mustNotSearcher s = mustNot /\
    queryNorm (NewBooleanSearcher (@None TM) (@None TS) mustNot explain)
      = infinity /\
    (forall l1 l2 m1 m2 (z1 z2 : bool),
        let zero (z : bool) := if z then 0%float else (-0)%float in
        let mustLeaf := NewStreamSearcher l1 (zero z1) m1 in
        let shouldLeaf := NewStreamSearcher l2 (zero z2) m2 in
        let s0 := NewBooleanSearcher (Some mustLeaf) (Some shouldLeaf) mustNot
                    explain in
        queryNorm s0 = infinity /\
        option_map norms (mustSearcher s0) = Some [infinity] /\
        option_map norms (shouldSearcher s0) = Some [infinity]).
Proof.
  intros must should mustNot explain.
  cbv zeta. unfold NewBooleanSearcher, computeQueryNorm, presentWeights.
  destruct must as [cm|], should as [cs|]; simpl;
    (repeat apply conj; try reflexivity);
    intros l1 l2 m1 m2 [|] [|]; repeat apply conj; reflexivity.
Qed.

(** C7.  [Close] closes the must child, then the should child, then the
    must-not child.  The error returned is the first one a child returns, in
    that order; a child after the failing one is not closed (its state is
    untouched), a child before it has been closed. *)
Theorem Close_stops_at_first_error :
  forall s : BooleanSearcher TM TS TN,
    let em := closeError (mustSearcher s) in
    let es := closeError (shouldSearcher s) in
    let en := closeError (mustNotSearcher s) in
    fst (Close s) = firstError [em; es; en] /\
    mustSearcher (snd (Close s)) = closed (mustSearcher s) /\
    shouldSearcher (snd (Close s)) =
      match em with
      | None => closed (shouldSearcher s)
      | Some _ => shouldSearcher s
      end /\
    mustNotSearcher (snd (Close s)) =
      match em, es with
      | None, None => closed (mustNotSearcher s)
      | _, _ => mustNotSearcher s
      end.
Proof.
  intros [cm cs cn q m1 m2 m3 cid mn sc ms ini]; cbv zeta.
  unfold Close, closeError, closed; simpl.
  destruct cm as [cm|], cs as [cs|], cn as [cn|]; simpl;
    repeat match goal with
           | |- context [search.Close ?c] =>
               destruct (search.Close c) as [[?|] ?]; simpl
           end;
    repeat split; reflexivity.
Qed.

End Generic.

(** C10.  [Min] of a boolean searcher is 0 whatever its children are, also
    for a should-only searcher whose should child requires a match
    ([requiringInner]).  Nested as the should clause of another boolean
    searcher it therefore reads as optional: the outer searcher over must
    [1,2] emits 1 and 2, where with the requiring leaf itself as should clause
    it emits only 2. *)
Theorem Min_is_zero :
  (forall (TM TS TN : Type) (s : BooleanSearcher TM TS TN), Min s = 0%Z) /\
  search.Min requiringLeaf = 1%Z /\
  Min requiringInner = 0%Z /\
  (let '(ms, o, _) := drain sumScores 4 8 (flatOuter, NewSearchContext) in
   identifiers ms = [docID "002"] /\ o = Ok tt) /\
  (let '(ms, o, _) :=
     @drain _ _ _ _ (BooleanSearcher_Searcher sumScores 8) _ sumScores 4 8
       (nestedOuter, NewSearchContext) in
   identifiers ms = [docID "001"; docID "002"] /\ o = Ok tt).
Proof.
  split; [reflexivity|].
  vm_compute. repeat split.
Qed.

(** ** The scenario of the specification *)

(** C8.  Must [1,3,5], should [3,4] with minimum 0, must-not [4]: four calls
    of [Next] give the matches 1, 3, 5, in that order, and then the end of
    the stream.  Whatever the ranking formula, the raw scores and the
    weights, the score of 3 combines the must match and the should match
    (each as its child emitted it, scaled by the query norm), the scores of 1
    and 5 the must match alone. *)
Theorem scenario_must_1_3_5 :
  forall (combine : list float -> float) (a1 a3 a5 b3 b4 c4 wm ws wn : float)
         (explain : bool) (fuel : nat),
    let must :=
      NewStreamSearcher
        [(docID "001", a1); (docID "003", a3); (docID "005", a5)] wm 0 in
    let should :=
      NewStreamSearcher [(docID "003", b3); (docID "004", b4)] ws 0 in
    let mustNot := NewStreamSearcher [(docID "004", c4)] wn 0 in
    let s := NewBooleanSearcher (Some must) (Some should) (Some mustNot) explain in
    let q := queryNorm s in
    let '(ms, o, _) := drain combine 4 (S fuel) (s, NewSearchContext) in
    o = Ok tt /\
    map (fun m => (search.IndexInternalID m, search.Score m)) ms =
      [(docID "001", combine [a1 * q]);
       (docID "003", combine [a3 * q; b3 * q]);
       (docID "005", combine [a5 * q])]%float.
Proof.
  intros. vm_compute. split; reflexivity.
Qed.

(** ** Errors of the children *)

Section Propagation.
Context {TM TS TN : Type}.
Context {searcherM : search.Searcher TM}.
Context {searcherS : search.Searcher TS}.
Context {searcherN : search.Searcher TN}.
Variable combine : list float -> float.

Local Abbreviation World := (BooleanSearcher TM TS TN * SearchContext)%type.

Lemma bind_inv {St A B} (c : Comp St A) (k : A -> Comp St B) w o w' :
  bind c k w = (o, w') ->
  (exists a w1, c w = (Ok a, w1) /\ k a w1 = (o, w')) \/
  (exists e, c w = (Err e, w') /\ o = Err e) \/
  (exists f, c w = (Stop f, w') /\ o = Stop f).
Proof.
  unfold bind. destruct (c w) as [[a|e|f] w1]; intros H.
  - left. eauto.
  - right; left. inversion H; subst. eauto.
  - right; right. inversion H; subst. eauto.
Qed.

Lemma evolves_trans (w1 w2 w3 : World) :
  evolves w1 w2 -> evolves w2 w3 -> evolves w1 w3.
Proof.
  intros H12 H23. induction H23; [assumption|].
  eapply evolves_step; eauto.
Qed.

Lemma evolves_one (w1 w2 : World) : step w1 w2 -> evolves w1 w2.
Proof. intros H. eapply evolves_step; [apply evolves_refl | exact H]. Qed.

Lemma faithful_bind {A B} (c : Comp World A) (k : A -> Comp World B) :
  faithful c -> (forall a, faithful (k a)) -> faithful (bind c k).
Proof.
  intros Hc Hk w o w' H.
  destruct (bind_inv _ _ _ H) as [(a & w1 & H1 & H2)|[(e & H1 & ->)|(f & H1 & ->)]].
  - apply Hc in H1. apply Hk in H2. simpl in H1.
    destruct o as [b|e|f]; simpl in *.
    + eapply evolves_trans; eauto.
    + destruct H2 as (w0 & Hev & Hf). exists w0. split; [|exact Hf].
      eapply evolves_trans; eauto.
    + exact I.
  - apply Hc in H1. exact H1.
  - exact I.
Qed.

Lemma faithful_ret {A} (a : A) : faithful (ret a : Comp World A).
Proof. intros w o w' [= <- <-]. apply evolves_refl. Qed.

Lemma faithful_get : faithful (get : Comp World World).
Proof. intros w o w' [= <- <-]. apply evolves_refl. Qed.

Lemma faithful_stop {A} (f : fault) : faithful (stop f : Comp World A).
Proof. intros w o w' [= <- <-]. exact I. Qed.

Lemma faithful_poolPut d : faithful (poolPut d : Comp World unit).
Proof.
  intros [s ctx] o w' [= <- <-]. apply evolves_one. apply step_put.
Qed.

Lemma faithful_touch m :
  faithful (withCtx (search.touch m) : Comp World unit).
Proof.
  intros [s ctx] o w' [= <- <-]. apply evolves_one. apply step_touch.
Qed.

Lemma faithful_set_currentID v :
  faithful (modify (set_currentID v) : Comp World unit).
Proof.
  intros [s ctx] o w' [= <- <-]. apply evolves_one. apply step_currentID.
Qed.

Lemma faithful_set_matches v :
  faithful (modify (set_matches v) : Comp World unit).
Proof.
  intros [s ctx] o w' [= <- <-]. apply evolves_one. apply step_matches.
Qed.

Lemma faithful_set_initialized :
  faithful (modify (set_initialized true) : Comp World unit).
Proof.
  intros [s ctx] o w' [= <- <-]. apply evolves_one. apply step_initialized.
Qed.

Lemma faithful_pullMust op :
  (forall c ctx, childCall c ctx (op c ctx)) ->
  faithful (pullMust op : Comp World unit).
Proof.
  intros Hop [s ctx] o w'. unfold pullMust; simpl.
  destruct (mustSearcher s) as [c|] eqn:Hc; [|intros [= <- <-]; exact I].
  specialize (Hop c ctx).
  destruct (op c ctx) as [[[m [e|]|f] c'] ctx']; intros [= <- <-]; simpl.
  - exists (s, ctx). split; [apply evolves_refl|].
    eapply failure_must; eauto.
  - apply evolves_one. eapply step_must; eauto.
  - exact I.
Qed.

Lemma faithful_pullShould op :
  (forall c ctx, childCall c ctx (op c ctx)) ->
  faithful (pullShould op : Comp World unit).
Proof.
  intros Hop [s ctx] o w'. unfold pullShould; simpl.
  destruct (shouldSearcher s) as [c|] eqn:Hc; [|intros [= <- <-]; exact I].
  specialize (Hop c ctx).
  destruct (op c ctx) as [[[m [e|]|f] c'] ctx']; intros [= <- <-]; simpl.
  - exists (s, ctx). split; [apply evolves_refl|].
    eapply failure_should; eauto.
  - apply evolves_one. eapply step_should; eauto.
  - exact I.
Qed.

Lemma faithful_pullMustNot op :
  (forall c ctx, childCall c ctx (op c ctx)) ->
  faithful (pullMustNot op : Comp World unit).
Proof.
  intros Hop [s ctx] o w'. unfold pullMustNot; simpl.
  destruct (mustNotSearcher s) as [c|] eqn:Hc; [|intros [= <- <-]; exact I].
  specialize (Hop c ctx).
  destruct (op c ctx) as [[[m [e|]|f] c'] ctx']; intros [= <- <-]; simpl.
  - exists (s, ctx). split; [apply evolves_refl|].
    eapply failure_mustNot; eauto.
  - apply evolves_one. eapply step_mustNot; eauto.
  - exact I.
Qed.

Lemma childCall_Next {T} `{search.Searcher T} (c : T) ctx :
  childCall c ctx (search.Next c ctx).
Proof. now left. Qed.

Lemma childCall_advanceTo {T} `{search.Searcher T} ID (c : T) ctx :
  childCall c ctx (advanceTo ID c ctx).
Proof. right. now exists ID. Qed.

Create HintDb faithful.
#[local] Hint Resolve faithful_ret faithful_get faithful_stop faithful_poolPut
  faithful_touch faithful_set_currentID faithful_set_matches
  faithful_set_initialized : faithful.
#[local] Hint Resolve childCall_Next childCall_advanceTo : faithful.
#[local] Hint Extern 1 (faithful (pullMust _)) =>
  apply faithful_pullMust; intros : faithful.
#[local] Hint Extern 1 (faithful (pullShould _)) =>
  apply faithful_pullShould; intros : faithful.
#[local] Hint Extern 1 (faithful (pullMustNot _)) =>
  apply faithful_pullMustNot; intros : faithful.

(** Walks through a computation built from [bind], conditionals and the
    primitives above. *)
Ltac faith :=
  repeat first
    [ progress cbv zeta
    | apply faithful_bind; [| intro]
    | match goal with
      | |- faithful (if ?b then _ else _) => destruct b
      | |- faithful (match ?x with _ => _ end) => destruct x
      end
    | solve [auto with faithful] ].

Lemma faithful_readID m : faithful (readID m : Comp World _).
Proof. unfold readID. faith. Qed.
#[local] Hint Resolve faithful_readID : faithful.

Lemma faithful_isBefore d id : faithful (isBefore d id : Comp World _).
Proof. unfold isBefore. faith. Qed.

Lemma faithful_isAt d id : faithful (isAt d id : Comp World _).
Proof. unfold isAt. faith. Qed.
#[local] Hint Resolve faithful_isBefore faithful_isAt : faithful.

Lemma faithful_touchAll ms : faithful (touchAll ms : Comp World _).
Proof. induction ms; simpl; faith. Qed.
#[local] Hint Resolve faithful_touchAll : faithful.

Lemma faithful_Score sc cons : faithful (Score combine sc cons : Comp World _).
Proof. unfold Score. faith. Qed.
#[local] Hint Resolve faithful_Score : faithful.

Lemma faithful_setCurrentID : faithful (setCurrentID : Comp World _).
Proof. unfold setCurrentID. faith. Qed.
#[local] Hint Resolve faithful_setCurrentID : faithful.

Lemma faithful_initSearchers : faithful (initSearchers : Comp World _).
Proof. unfold initSearchers. faith. Qed.

Lemma faithful_advanceNextMust skip :
  faithful (advanceNextMust skip : Comp World _).
Proof. unfold advanceNextMust. faith. Qed.
#[local] Hint Resolve faithful_initSearchers faithful_advanceNextMust : faithful.

Lemma faithful_shouldMin : faithful (shouldMin : Comp World _).
Proof. unfold shouldMin. faith. Qed.
#[local] Hint Resolve faithful_shouldMin : faithful.

Lemma faithful_scoreBonus : faithful (scoreBonus combine : Comp World _).
Proof. unfold scoreBonus. faith. Qed.

Lemma faithful_scoreMustOnly : faithful (scoreMustOnly combine : Comp World _).
Proof. unfold scoreMustOnly. faith. Qed.

Lemma faithful_reject : faithful (reject : Comp World _).
Proof. unfold reject. faith. Qed.
#[local] Hint Resolve faithful_scoreBonus faithful_scoreMustOnly
  faithful_reject : faithful.

Lemma faithful_shouldStage cid :
  faithful (shouldStage combine cid : Comp World _).
Proof. unfold shouldStage. faith. Qed.
#[local] Hint Resolve faithful_shouldStage : faithful.

Lemma faithful_Next_body cid : faithful (Next_body combine cid : Comp World _).
Proof. unfold Next_body. faith. Qed.
#[local] Hint Resolve faithful_Next_body : faithful.

Lemma faithful_Next_loop fuel :
  faithful (Next_loop combine fuel : Comp World _).
Proof. induction fuel; simpl; faith. Qed.
#[local] Hint Resolve faithful_Next_loop : faithful.

Lemma faithful_Next fuel : faithful (Next combine fuel : Comp World _).
Proof. unfold Next. faith. Qed.
#[local] Hint Resolve faithful_Next : faithful.

Lemma faithful_Advance fuel ID :
  faithful (Advance combine fuel ID : Comp World _).
Proof. unfold Advance. faith. Qed.
#[local] Hint Resolve faithful_Advance : faithful.

(** *** Where the error is raised *)

(** What [raisedAt] says is what the run does. *)
Lemma raisedAt_run {A} (c : Comp World A) w w0 e w' :
  raisedAt c w w0 e w' -> c w = (Err e, w').
Proof.
  induction 1 as [c w e w' _ H|A B c k w w0 e w' _ IH|A B c k w a w1 w0 e w' H _ IH].
  - exact H.
  - unfold bind. now rewrite IH.
  - unfold bind. now rewrite H.
Qed.

(** The error comes out of a call of a child, made in the world [w0], and
    the world that call leaves is the world the caller gets. *)
Lemma raisedAt_call {A} (c : Comp World A) w w0 e w' :
  raisedAt c w w0 e w' ->
  exists site : Comp World unit, callSite site /\ site w0 = (Err e, w').
Proof.
  induction 1 as [c w e w' Hs H|A B c k w w0 e w' _ IH
                 |A B c k w a w1 w0 e w' _ _ IH].
  - now exists c.
  - exact IH.
  - exact IH.
Qed.

Lemma tracked_bind {A B} (c : Comp World A) (k : A -> Comp World B) :
  faithful c -> tracked c -> (forall a, tracked (k a)) -> tracked (bind c k).
Proof.
  intros Hf Hc Hk w e w' H.
  destruct (bind_inv _ _ _ H) as [(a & w1 & H1 & H2)|[(e' & H1 & E)|(f & _ & E)]];
    [| |discriminate].
  - destruct (Hk a _ _ _ H2) as (w0 & Hr & Hev & Hfail).
    exists w0. split; [eapply raised_later; eauto|]. split; [|exact Hfail].
    eapply evolves_trans; [exact (Hf _ _ _ H1) | exact Hev].
  - injection E as <-.
    destruct (Hc _ _ _ H1) as (w0 & Hr & Hev & Hfail).
    exists w0. split; [now apply raised_first | now split].
Qed.

Lemma tracked_ret {A} (a : A) : tracked (ret a : Comp World A).
Proof. intros w e w' H. discriminate H. Qed.

Lemma tracked_get : tracked (get : Comp World World).
Proof. intros w e w' H. discriminate H. Qed.

Lemma tracked_stop {A} (f : fault) : tracked (stop f : Comp World A).
Proof. intros w e w' H. discriminate H. Qed.

Lemma tracked_withCtx f : tracked (withCtx f : Comp World unit).
Proof. intros w e w' H. discriminate H. Qed.

Lemma tracked_poolPut d : tracked (poolPut d : Comp World unit).
Proof. intros w e w' H. discriminate H. Qed.

Lemma tracked_modify f : tracked (modify f : Comp World unit).
Proof. intros w e w' H. discriminate H. Qed.

Lemma tracked_call (c : Comp World unit) :
  callSite c -> faithful c -> tracked c.
Proof.
  intros Hsite Hf [s ctx] e w' H. exists (s, ctx).
  split; [now apply raised_call|]. split; [apply evolves_refl|].
  destruct Hsite; unfold pullMust, pullShould, pullMustNot in H;
    cbn [fst snd] in H;
    match type of H with
    | match ?x with _ => _ end = _ =>
        destruct x as [c|] eqn:Hc; [|discriminate]
    end;
    match type of H with
    | match ?op c ctx with _ => _ end = _ =>
        destruct (op c ctx) as [[[m [e'|]|f] c'] ctx'] eqn:Hop;
        try discriminate
    end;
    injection H as <- <-;
    first [ eapply failure_must | eapply failure_should
          | eapply failure_mustNot ];
    eauto; first [ left; exact Hop | right; eexists; exact Hop ].
Qed.

Create HintDb tracked.
#[local] Hint Resolve tracked_ret tracked_get tracked_stop tracked_withCtx
  tracked_poolPut tracked_modify : tracked.
#[local] Hint Extern 1 (tracked (pullMust _)) =>
  apply tracked_call; [constructor | auto with faithful] : tracked.
#[local] Hint Extern 1 (tracked (pullShould _)) =>
  apply tracked_call; [constructor | auto with faithful] : tracked.
#[local] Hint Extern 1 (tracked (pullMustNot _)) =>
  apply tracked_call; [constructor | auto with faithful] : tracked.

(** Walks through a computation as [faith] does. *)
Ltac track :=
  repeat first
    [ progress cbv zeta
    | apply tracked_bind; [solve [faith] | | intro]
    | match goal with
      | |- tracked (if ?b then _ else _) => destruct b
      | |- tracked (match ?x with _ => _ end) => destruct x
      end
    | solve [auto with tracked] ].

Lemma tracked_readID m : tracked (readID m : Comp World _).
Proof. unfold readID. track. Qed.
#[local] Hint Resolve tracked_readID : tracked.

Lemma tracked_isBefore d id : tracked (isBefore d id : Comp World _).
Proof. unfold isBefore. track. Qed.

Lemma tracked_isAt d id : tracked (isAt d id : Comp World _).
Proof. unfold isAt. track. Qed.
#[local] Hint Resolve tracked_isBefore tracked_isAt : tracked.

Lemma tracked_touchAll ms : tracked (touchAll ms : Comp World _).
Proof. induction ms; simpl; track. Qed.
#[local] Hint Resolve tracked_touchAll : tracked.

Lemma tracked_Score sc cons : tracked (Score combine sc cons : Comp World _).
Proof. unfold Score. track. Qed.
#[local] Hint Resolve tracked_Score : tracked.

Lemma tracked_setCurrentID : tracked (setCurrentID : Comp World _).
Proof. unfold setCurrentID. track. Qed.
#[local] Hint Resolve tracked_setCurrentID : tracked.

Lemma tracked_initSearchers : tracked (initSearchers : Comp World _).
Proof. unfold initSearchers. track. Qed.

Lemma tracked_advanceNextMust skip :
  tracked (advanceNextMust skip : Comp World _).
Proof. unfold advanceNextMust. track. Qed.
#[local] Hint Resolve tracked_initSearchers tracked_advanceNextMust : tracked.

Lemma tracked_shouldMin : tracked (shouldMin : Comp World _).
Proof. unfold shouldMin. track. Qed.
#[local] Hint Resolve tracked_shouldMin : tracked.

Lemma tracked_scoreBonus : tracked (scoreBonus combine : Comp World _).
Proof. unfold scoreBonus. track. Qed.

Lemma tracked_scoreMustOnly : tracked (scoreMustOnly combine : Comp World _).
Proof. unfold scoreMustOnly. track. Qed.

Lemma tracked_reject : tracked (reject : Comp World _).
Proof. unfold reject. track. Qed.
#[local] Hint Resolve tracked_scoreBonus tracked_scoreMustOnly
  tracked_reject : tracked.

Lemma tracked_shouldStage cid :
  tracked (shouldStage combine cid : Comp World _).
Proof. unfold shouldStage. track. Qed.
#[local] Hint Resolve tracked_shouldStage : tracked.

Lemma tracked_Next_body cid : tracked (Next_body combine cid : Comp World _).
Proof. unfold Next_body. track. Qed.
#[local] Hint Resolve tracked_Next_body : tracked.

Lemma tracked_Next_loop fuel :
  tracked (Next_loop combine fuel : Comp World _).
Proof. induction fuel; simpl; track. Qed.
#[local] Hint Resolve tracked_Next_loop : tracked.

Lemma tracked_Next fuel : tracked (Next combine fuel : Comp World _).
Proof. unfold Next. track. Qed.
#[local] Hint Resolve tracked_Next : tracked.

Lemma tracked_Advance fuel ID :
  tracked (Advance combine fuel ID : Comp World _).
Proof. unfold Advance. track. Qed.
#[local] Hint Resolve tracked_Advance : tracked.

(** What a failing child call leaves alone. *)
Lemma childFailure_frame e (w0 w' : World) :
  childFailure e w0 w' ->
  currentID (fst w') = currentID (fst w0) /\
  matches (fst w') = matches (fst w0) /\
  initialized (fst w') = initialized (fst w0).
Proof. intros H. destruct H; repeat split. Qed.

(** C4, amended.  When a call of [Next] or [Advance] returns an error [e],
    the call has run its statements one after the other, each returning
    without error, up to a statement that calls [Next] or [Advance] on a
    child ([raisedAt]); that call, made in the world [w0] the statements
    before it had left, returned [e]; and the world the caller gets is the
    world that call left: [w0] with the context as the child left it, the
    child's new state, and the pointer returned with the error in the
    child's slot ([childFailure]).  Nothing is done after the failing call,
    the error is not wrapped and no call is retried; nothing done before it
    is rolled back: [w0] is reached from the caller's world by child calls
    that returned without error, puts, reads and assignments ([evolves]),
    and [currentID], [matches] and [initialized] keep the values they had in
    [w0].  A call that returns without error has only made child calls that
    returned without error. *)
Theorem child_error_returned_unchanged :
  forall (fuel : nat) (c : call) (w : World)
         (o : outcome (option DocumentMatch)) (w' : World),
    perform combine fuel c w = (o, w') ->
    match o with
    | Ok _ => evolves w w'
    | Err e =>
        exists w0,
          raisedAt (perform combine fuel c) w w0 e w' /\
          evolves w w0 /\ childFailure e w0 w' /\
          currentID (fst w') = currentID (fst w0) /\
          matches (fst w') = matches (fst w0) /\
          initialized (fst w') = initialized (fst w0)
    | Stop _ => True
    end.
Proof.
  intros fuel c w o w' H.
  assert (Hf : faithful (perform combine fuel c : Comp World _))
    by (destruct c; simpl; auto with faithful).
  assert (Ht : tracked (perform combine fuel c : Comp World _))
    by (destruct c; simpl; auto with tracked).
  destruct o as [r|e|f]; [exact (Hf _ _ _ H) | | exact I].
  destruct (Ht _ _ _ H) as (w0 & Hr & Hev & Hfail).
  exists w0. split; [exact Hr|]. split; [exact Hev|]. split; [exact Hfail|].
  exact (childFailure_frame Hfail).
Qed.

(** Once set, [initialized] stays set. *)
Lemma evolves_initialized (w w' : World) :
  evolves w w' -> initialized (fst w) = true -> initialized (fst w') = true.
Proof.
  induction 1 as [|w2 w3 _ IH Hs]; [auto|].
  intros Hi. specialize (IH Hi). destruct Hs; simpl in *; auto.
Qed.

Lemma Next_loop_eq fuel (w : World) :
  Next_loop combine fuel w =
  match currentID (fst w) with
  | None => (Ok None, w)
  | Some cid =>
      match fuel with
      | O => (Stop OutOfFuel, w)
      | S fuel' =>
          match Next_body combine cid w with
          | (Ok Continue, w1) => Next_loop combine fuel' w1
          | (Ok (Break rv), w1) => (Ok (Some rv), w1)
          | (Err e, w1) => (Err e, w1)
          | (Stop f, w1) => (Stop f, w1)
          end
      end
  end.
Proof.
  destruct fuel; simpl; unfold bind, get; simpl;
    destruct (currentID (fst w)); try reflexivity.
  destruct (Next_body combine i w) as [[[|rv]|e|f] w1]; reflexivity.
Qed.

Lemma Next_eq fuel (w : World) :
  Next combine fuel w =
  if initialized (fst w) then Next_loop combine fuel w
  else
    match initSearchers w with
    | (Ok _, w1) => Next_loop combine fuel w1
    | (Err e, w1) => (Err e, w1)
    | (Stop f, w1) => (Stop f, w1)
    end.
Proof.
  unfold Next, bind at 1 2, get.
  destruct (initialized (fst w)); simpl; [reflexivity|].
  destruct (initSearchers w) as [[[]|e|f] w1]; reflexivity.
Qed.

Lemma Next_loop_end fuel : forall (w w' : World),
  Next_loop combine fuel w = (Ok None, w') -> currentID (fst w') = None.
Proof.
  induction fuel as [|fuel IH]; intros w w'; rewrite Next_loop_eq;
    destruct (currentID (fst w)) eqn:E; try discriminate;
    try (intros [= <-]; exact E).
  destruct (Next_body combine i w) as [[[|rv]|e|f] w1]; try discriminate.
  apply IH.
Qed.

Lemma initSearchers_initialized (w w' : World) :
  initSearchers w = (Ok tt, w') -> initialized (fst w') = true.
Proof.
  unfold initSearchers. intros H.
  repeat match type of H with
         | bind _ _ _ = (Ok _, _) =>
             apply bind_inv in H;
             destruct H as [(? & ? & _ & H)|[(? & _ & ?)|(? & _ & ?)]];
             try discriminate
         end.
  unfold modify in H. inversion H; subst. reflexivity.
Qed.

(** C9, amended.  With no must child and no should child the first call of
    [Next] never returns a match, whatever the must-not child holds: it
    returns the end of the stream, unless the one call it makes, [Next] on
    the must-not child, fails, and then it returns that error.  And for every
    boolean searcher: once a call of [Next] has returned the end of the
    stream, every later call returns the end of the stream again and changes
    nothing. *)
Theorem end_of_stream_is_final :
  forall (mustNot : option TN) (explain : bool) (ctx : SearchContext)
         (fuel fuel1 fuel2 : nat) (w w' : World),
    fst (Next combine fuel
           (NewBooleanSearcher (@None TM) (@None TS) mustNot explain, ctx)) =
      match mustNot with
      | None => Ok None
      | Some c =>
          match fst (fst (search.Next c ctx)) with
          | Reply _ None => Ok None
          | Reply _ (Some e) => Err e
          | Crashed f => Stop f
          end
      end /\
    (Next combine fuel1 w = (Ok None, w') ->
     Next combine fuel2 w' = (Ok None, w')).
Proof.
  intros mustNot explain ctx fuel fuel1 fuel2 w w'. split.
  - rewrite Next_eq. unfold NewBooleanSearcher, computeQueryNorm; simpl.
    unfold initSearchers, bind, get, pullMustNot; simpl.
    destruct mustNot as [c|]; simpl.
    + destruct (search.Next c ctx) as [[[m [e|]|f] c'] ctx']; simpl;
        try reflexivity.
      rewrite Next_loop_eq. reflexivity.
    + rewrite Next_loop_eq. reflexivity.
  - intros H.
    assert (Hc : currentID (fst w') = None /\ initialized (fst w') = true).
    { rewrite Next_eq in H. destruct (initialized (fst w)) eqn:Hi.
      - split; [eapply Next_loop_end; eauto|].
        apply (evolves_initialized (faithful_Next_loop _ _ H) Hi).
      - destruct (initSearchers w) as [[[]|e|f] w1] eqn:Hinit;
          try discriminate.
        split; [eapply Next_loop_end; eauto|].
        apply (evolves_initialized (faithful_Next_loop _ _ H)).
        eapply initSearchers_initialized; eauto. }
    destruct Hc as [Hc Hi].
    rewrite Next_eq, Hi, Next_loop_eq, Hc. reflexivity.
Qed.

End Propagation.

(** C4, as stated, fails.  On [failingThird] the second call of [Next]
    returns the error of the must child; before that call [currMust] held
    the match 3 and the pool was empty, after it [currMust] is nil and the
    match 3 is in the pool. *)
Lemma failed_call_changes_state :
  fst (Next sumScores 2 afterFirstNext) = Err readFailed /\
  option_map search.IndexInternalID (currMust (fst afterFirstNext))
    = Some (docID "003") /\
  search.avail (snd afterFirstNext) = [] /\
  currMust (fst afterFailedNext) = None /\
  identifiers (search.avail (snd afterFailedNext)) = [docID "003"] /\
  currMust (fst afterFailedNext) <> currMust (fst afterFirstNext) /\
  search.avail (snd afterFailedNext) <> search.avail (snd afterFirstNext).
Proof.
  vm_compute. repeat split; discriminate.
Qed.

Lemma child_error_returned_unchanged_witness :
  exists w0,
    raisedAt (perform sumScores 2 CallNext) afterFirstNext w0 readFailed
      afterFailedNext /\
    evolves afterFirstNext w0 /\
    childFailure readFailed w0 afterFailedNext /\
    currentID (fst afterFailedNext) = currentID (fst w0) /\
    matches (fst afterFailedNext) = matches (fst w0) /\
    initialized (fst afterFailedNext) = initialized (fst w0).
Proof.
  apply (@child_error_returned_unchanged _ _ _ _ _ _ sumScores 2 CallNext
           afterFirstNext (Err readFailed) afterFailedNext).
  vm_compute. reflexivity.
Defined.

(** C9, as stated, fails: with a must-not child whose first call fails, the
    first call of [Next] returns that error, not the end of the stream. *)
Lemma broken_mustNot_fails_first_Next :
  fst (Next sumScores 1 (onlyBrokenMustNot, NewSearchContext)) = Err readFailed /\
  fst (Next sumScores 1 (onlyBrokenMustNot, NewSearchContext)) <> Ok None.
Proof.
  vm_compute. split; [reflexivity | discriminate].
Qed.

Lemma end_of_stream_is_final_witness :
  fst (Next sumScores 0 (onlyMustNot, NewSearchContext)) = Ok None /\
  Next sumScores 5 (snd (Next sumScores 0 (onlyMustNot, NewSearchContext))) =
    (Ok None, snd (Next sumScores 0 (onlyMustNot, NewSearchContext))).
Proof.
  destruct (@end_of_stream_is_final _ _ _ _ _ _ sumScores
              (Some (NewStreamSearcher (streamOf ["004"%byte]) 1%float 0))
              false NewSearchContext 0 0 5
              (onlyMustNot, NewSearchContext)
              (snd (Next sumScores 0 (onlyMustNot, NewSearchContext))))
    as [HA HB].
  split; [exact HA | apply HB; vm_compute; reflexivity].
Defined.

(** ** Running the methods: the rules of [runs] *)

Section Running.
Context {TM TS TN : Type}.
Context {searcherM : search.Searcher TM}.
Context {searcherS : search.Searcher TS}.
Context {searcherN : search.Searcher TN}.
Variable combine : list float -> float.

Local Abbreviation BS := (BooleanSearcher TM TS TN).
Local Abbreviation World := (BooleanSearcher TM TS TN * SearchContext)%type.

Lemma runs_ret {A} (a : A) (s : BS) (Q : A -> BS -> Prop) :
  Q a s -> runs (ret a : Comp World A) s Q.
Proof. intros H ctx. exists a, s, ctx. split; [reflexivity | exact H]. Qed.

Lemma runs_bind {A B} (c : Comp World A) (k : A -> Comp World B) (s : BS)
    (Q : A -> BS -> Prop) (R : B -> BS -> Prop) :
  runs c s Q -> (forall a s1, Q a s1 -> runs (k a) s1 R) ->
  runs (bind c k) s R.
Proof.
  intros Hc Hk ctx. destruct (Hc ctx) as (a & s1 & ctx1 & Hrun & HQ).
  destruct (Hk a s1 HQ ctx1) as (b & s2 & ctx2 & Hrun2 & HR).
  exists b, s2, ctx2. split; [|exact HR].
  unfold bind. rewrite Hrun. exact Hrun2.
Qed.

Lemma runs_get {B} (k : World -> Comp World B) (s : BS) (R : B -> BS -> Prop) :
  (forall ctx0, runs (k (s, ctx0)) s R) -> runs (bind get k) s R.
Proof. intros Hk ctx. exact (Hk ctx ctx). Qed.

Lemma runs_weaken {A} (c : Comp World A) (s : BS) (Q Q' : A -> BS -> Prop) :
  runs c s Q -> (forall a s', Q a s' -> Q' a s') -> runs c s Q'.
Proof.
  intros Hc HQ ctx. destruct (Hc ctx) as (a & s1 & ctx1 & Hrun & H).
  exists a, s1, ctx1. auto.
Qed.

Lemma run_modify (f : BS -> BS) (s : BS) :
  runs (modify f) s (fun a s' => a = tt /\ s' = f s).
Proof. intros ctx. exists tt, (f s), ctx. repeat split. Qed.

Lemma run_poolPut d (s : BS) :
  runs (poolPut d) s (fun a s' => a = tt /\ s' = s).
Proof. intros ctx. exists tt, s, (search.Put d ctx). repeat split. Qed.

Lemma run_readID m (s : BS) :
  runs (readID m) s (fun a s' => a = search.IndexInternalID m /\ s' = s).
Proof.
  intros ctx. exists (search.IndexInternalID m), s, (search.touch m ctx).
  repeat split.
Qed.

Lemma run_isBefore d id (s : BS) :
  runs (isBefore d id) s
    (fun a s' =>
       a = match d with
           | Some m => (index.Compare (search.IndexInternalID m) id <? 0)%Z
           | None => false
           end /\ s' = s).
Proof.
  destruct d as [m|]; simpl; [|now apply runs_ret].
  eapply runs_bind; [apply run_readID|].
  intros a s1 [-> ->]. now apply runs_ret.
Qed.

Lemma run_isAt d id (s : BS) :
  runs (isAt d id) s
    (fun a s' =>
       a = match d with
           | Some m => index.Equals (search.IndexInternalID m) id
           | None => false
           end /\ s' = s).
Proof.
  destruct d as [m|]; simpl; [|now apply runs_ret].
  eapply runs_bind; [apply run_readID|].
  intros a s1 [-> ->]. now apply runs_ret.
Qed.

Lemma run_touchAll ms (s : BS) :
  runs (touchAll ms) s (fun a s' => a = tt /\ s' = s).
Proof.
  induction ms as [|m ms IH]; simpl; [now apply runs_ret|].
  eapply runs_bind with (Q := fun _ s' => s' = s).
  - intros ctx. exists tt, s, (search.touch m ctx). split; reflexivity.
  - intros _ s1 ->. exact IH.
Qed.

(** The scorer on one or two matches. *)
Lemma run_Score sc m0 rest (s : BS) :
  runs (Score combine sc (map Some (m0 :: rest))) s
    (fun rv s' =>
       (search.ptr rv = search.ptr m0 /\
        search.IndexInternalID rv = search.IndexInternalID m0 /\
        search.Score rv = combine (map search.Score (m0 :: rest))) /\
       s' = s).
Proof.
  unfold Score.
  assert (Hc : forall l, constituents (map Some l) = Some l).
  { induction l as [|x l IH]; simpl; [reflexivity | now rewrite IH]. }
  rewrite Hc.
  eapply runs_bind; [apply run_touchAll|].
  intros a s1 [_ ->]. apply runs_ret. repeat split.
Qed.

Lemma run_setCurrentID (s : BS) :
  runs setCurrentID s
    (fun a s' =>
       a = tt /\
       s' = set_currentID
              match mustSearcher s with
              | Some _ => option_map search.IndexInternalID (currMust s)
              | None => option_map search.IndexInternalID (currShould s)
              end s).
Proof.
  unfold setCurrentID. apply runs_get; intros ctx0.
  cbn [fst].
  destruct (mustSearcher s) as [c|]; [destruct (currMust s) as [m|]|
                                      destruct (currShould s) as [m|]];
    simpl.
  - eapply runs_bind; [apply run_readID|].
    intros a s1 [-> ->]. apply run_modify.
  - apply run_modify.
  - eapply runs_bind; [apply run_readID|].
    intros a s1 [-> ->]. apply run_modify.
  - apply run_modify.
Qed.

Lemma run_shouldMin c (s : BS) :
  shouldSearcher s = Some c ->
  runs shouldMin s (fun a s' => a = search.Min c /\ s' = s).
Proof.
  intros Hc. unfold shouldMin. apply runs_get; intros ctx0.
  cbn [fst]. rewrite Hc. now apply runs_ret.
Qed.

End Running.

(** ** The methods over stream children *)

Section Simulation.
Variable combine : list float -> float.

Local Abbreviation BS :=
  (BooleanSearcher StreamSearcher StreamSearcher StreamSearcher).

(** *** The stream searcher *)

Lemma started_stepPast c : started (stepPast c) = true.
Proof. unfold stepPast. destruct (started c); reflexivity. Qed.

Lemma faults_stepPast c : faults (stepPast c) = faults c.
Proof. unfold stepPast. destruct (started c); reflexivity. Qed.

Lemma ahead_stepPast c :
  ahead (stepPast c) = if started c then tl (ahead c) else ahead c.
Proof. unfold stepPast. destruct (started c); reflexivity. Qed.

Lemma scaled_stepPast c r : scaled (stepPast c) r = scaled c r.
Proof. unfold stepPast. destruct (started c); reflexivity. Qed.

Lemma minimum_stepPast c : minimum (stepPast c) = minimum c.
Proof. unfold stepPast. destruct (started c); reflexivity. Qed.

Lemma emit_shows c ctx :
  exists cur ctx', emit c ctx = (Reply cur None, c, ctx') /\ shows cur c.
Proof.
  unfold emit, shows. destruct (ahead c) as [|[i r] l]; simpl.
  - exists None, ctx. split; reflexivity.
  - eexists; eexists. split; [reflexivity|]. eexists. repeat split.
Qed.

Lemma serve_shows move c ctx :
  faults c = [] ->
  exists cur ctx',
    serve move c ctx = (Reply cur None, move c, ctx') /\ shows cur (move c).
Proof. intros Hf. unfold serve. rewrite Hf. apply emit_shows. Qed.

(** What a slot shows decides the tests of the loop. *)
Lemma shows_before cur c cid (H : shows cur c) :
  match cur with
  | Some m => (index.Compare (search.IndexInternalID m) cid <? 0)%Z
  | None => false
  end = headBefore cid c.
Proof.
  revert H. unfold shows, headBefore, before. destruct (ahead c) as [|x l].
  - now intros ->.
  - intros (m & -> & Hid & _). simpl. now rewrite Hid.
Qed.

Lemma shows_at cur c cid (H : shows cur c) :
  match cur with
  | Some m => index.Equals (search.IndexInternalID m) cid
  | None => false
  end = headAt cid c.
Proof.
  revert H. unfold shows, headAt. destruct (ahead c) as [|x l].
  - now intros ->.
  - intros (m & -> & Hid & _). simpl. now rewrite Hid.
Qed.

Lemma shows_ID cur c :
  shows cur c ->
  option_map search.IndexInternalID cur = option_map fst (head (ahead c)).
Proof.
  unfold shows. destruct (ahead c) as [|x l].
  - now intros ->.
  - intros (m & -> & Hid & _). simpl. now rewrite Hid.
Qed.

(** *** The calls of the children *)

Lemma run_pullMust op move (s : BS) c :
  (forall c ctx, op c ctx = serve move c ctx) ->
  mustSearcher s = Some c -> faults c = [] ->
  runs (pullMust op) s
    (fun a s' =>
       a = tt /\
       exists cur, s' = set_currMust cur (set_mustSearcher (Some (move c)) s) /\
                   shows cur (move c)).
Proof.
  intros Hop Hc Hf ctx. unfold pullMust; cbn [fst snd]. rewrite Hc, Hop.
  destruct (serve_shows move c ctx Hf) as (cur & ctx' & -> & Hs).
  exists tt. eexists. exists ctx'. split; [reflexivity|]. eauto.
Qed.

Lemma run_pullShould op move (s : BS) c :
  (forall c ctx, op c ctx = serve move c ctx) ->
  shouldSearcher s = Some c -> faults c = [] ->
  runs (pullShould op) s
    (fun a s' =>
       a = tt /\
       exists cur,
         s' = set_currShould cur (set_shouldSearcher (Some (move c)) s) /\
         shows cur (move c)).
Proof.
  intros Hop Hc Hf ctx. unfold pullShould; cbn [fst snd]. rewrite Hc, Hop.
  destruct (serve_shows move c ctx Hf) as (cur & ctx' & -> & Hs).
  exists tt. eexists. exists ctx'. split; [reflexivity|]. eauto.
Qed.

Lemma run_pullMustNot op move (s : BS) c :
  (forall c ctx, op c ctx = serve move c ctx) ->
  mustNotSearcher s = Some c -> faults c = [] ->
  runs (pullMustNot op) s
    (fun a s' =>
       a = tt /\
       exists cur,
         s' = set_currMustNot cur (set_mustNotSearcher (Some (move c)) s) /\
         shows cur (move c)).
Proof.
  intros Hop Hc Hf ctx. unfold pullMustNot; cbn [fst snd]. rewrite Hc, Hop.
  destruct (serve_shows move c ctx Hf) as (cur & ctx' & -> & Hs).
  exists tt. eexists. exists ctx'. split; [reflexivity|]. eauto.
Qed.

Lemma Next_is_serve (c : StreamSearcher) ctx :
  search.Next c ctx = serve stepPast c ctx.
Proof. reflexivity. Qed.

Lemma advanceTo_is_serve ID (c : StreamSearcher) ctx :
  advanceTo ID c ctx = serve (skipTo ID) c ctx.
Proof. reflexivity. Qed.

(** Putting back what a slot holds, if anything. *)
Lemma run_recycle (cur : option DocumentMatch) (s : BS) :
  runs (if notNil cur then poolPut cur else ret tt) s
    (fun a s' => a = tt /\ s' = s).
Proof. destruct (notNil cur); [apply run_poolPut | now apply runs_ret]. Qed.

Lemma run_recycle_unless (b : bool) (cur : option DocumentMatch) (s : BS) :
  runs (if b then poolPut cur else ret tt) s (fun a s' => a = tt /\ s' = s).
Proof. destruct b; [apply run_poolPut | now apply runs_ret]. Qed.

(** *** The passes of the loop *)

(** Reduces field reads of updated states. *)
Ltac fields :=
  cbn [mustSearcher shouldSearcher mustNotSearcher queryNorm currMust
       currShould currMustNot currentID min scorer matches initialized
       set_mustSearcher set_shouldSearcher set_mustNotSearcher set_queryNorm
       set_currMust set_currShould set_currMustNot set_currentID set_matches
       set_initialized fst snd].

Ltac fields_in H :=
  cbn [mustSearcher shouldSearcher mustNotSearcher queryNorm currMust
       currShould currMustNot currentID min scorer matches initialized
       set_mustSearcher set_shouldSearcher set_mustNotSearcher set_queryNorm
       set_currMust set_currShould set_currMustNot set_currentID set_matches
       set_initialized fst snd] in H.

Lemma same_mustNot (s : BS) c cur
    (Hc : mustNotSearcher s = c) (Hcur : currMustNot s = cur) :
  s = set_currMustNot cur (set_mustNotSearcher c s).
Proof. subst. destruct s; reflexivity. Qed.

Lemma same_should (s : BS) c cur
    (Hc : shouldSearcher s = c) (Hcur : currShould s = cur) :
  s = set_currShould cur (set_shouldSearcher c s).
Proof. subst. destruct s; reflexivity. Qed.

Lemma positioned_skipTo cid c cur
    (Hf : faults c = []) (Hs : shows cur (skipTo cid c)) :
  positioned (Some (skipTo cid c)) cur.
Proof. repeat split; assumption. Qed.

(** Lines 181-205: the must-not child is brought to the candidate; the pass
    goes on as its position says. *)
Lemma run_Next_body_split (s : BS) cid (R : flow -> BS -> Prop) :
  positioned (mustNotSearcher s) (currMustNot s) ->
  (forall cur s1,
      s1 = set_currMustNot cur
             (set_mustNotSearcher (align cid (mustNotSearcher s)) s) ->
      positioned (align cid (mustNotSearcher s)) cur ->
      runs (if atCandidate cid (align cid (mustNotSearcher s))
            then advanceNextMust None ;;; ret Continue
            else shouldStage combine cid) s1 R) ->
  runs (Next_body combine cid) s R.
Proof.
  intros Hpos Hk. unfold Next_body. apply runs_get; intros ctx0; cbn [fst].
  eapply runs_bind; [apply run_isBefore|]. intros b s1 [-> ->].
  revert Hpos Hk.
  destruct (mustNotSearcher s) as [c|] eqn:Hc; cbn [positioned align atCandidate];
    intros Hpos Hk.
  - destruct Hpos as (Hst & Hf & Hsh).
    rewrite (@shows_before _ _ cid Hsh).
    destruct (headBefore cid c) eqn:Hb.
    + eapply runs_bind; [apply run_recycle|]. intros a s1 [-> ->].
      eapply runs_bind;
        [eapply run_pullMustNot;
         [apply advanceTo_is_serve | exact Hc | exact Hf]|].
      intros a s1 [-> (cur & -> & Hcur)].
      apply runs_get; intros ctx1; fields.
      eapply runs_bind; [apply run_isAt|]. intros b s2 [-> ->].
      rewrite (@shows_at _ _ cid Hcur).
      apply (Hk cur); [reflexivity | now apply positioned_skipTo].
    + eapply runs_bind; [apply run_isAt|]. intros b s2 [-> ->].
      rewrite (@shows_at _ _ cid Hsh).
      apply (Hk (currMustNot s)); [now apply same_mustNot | auto].
  - rewrite Hpos.
    eapply runs_bind; [apply run_isAt|]. intros b s2 [-> ->].
    apply (Hk None); [now apply same_mustNot | reflexivity].
Qed.

(** Lines 207-276: the should child is brought to the candidate; the
    candidate is scored with it, scored without it, or dropped. *)
Lemma run_shouldStage_split (s : BS) cid (R : flow -> BS -> Prop) :
  positioned (shouldSearcher s) (currShould s) ->
  (forall cur s1,
      s1 = set_currShould cur
             (set_shouldSearcher (align cid (shouldSearcher s)) s) ->
      positioned (align cid (shouldSearcher s)) cur ->
      runs (if atCandidate cid (align cid (shouldSearcher s))
            then scoreBonus combine
            else if optionalShould (shouldSearcher s)
                 then scoreMustOnly combine
                 else reject) s1 R) ->
  runs (shouldStage combine cid) s R.
Proof.
  intros Hpos Hk. unfold shouldStage. apply runs_get; intros ctx0; cbn [fst].
  eapply runs_bind; [apply run_isBefore|]. intros b s1 [-> ->].
  revert Hpos Hk.
  destruct (shouldSearcher s) as [c|] eqn:Hc;
    cbn [positioned align atCandidate optionalShould notNil];
    intros Hpos Hk.
  - destruct Hpos as (Hst & Hf & Hsh).
    rewrite (@shows_before _ _ cid Hsh).
    destruct (headBefore cid c) eqn:Hb.
    + eapply runs_bind; [apply run_recycle|]. intros a s1 [-> ->].
      eapply runs_bind;
        [eapply run_pullShould;
         [apply advanceTo_is_serve | exact Hc | exact Hf]|].
      intros a s1 [-> (cur & -> & Hcur)].
      apply runs_get; intros ctx1; fields.
      eapply runs_bind; [apply run_isAt|]. intros b s2 [-> ->].
      rewrite (@shows_at _ _ cid Hcur).
      specialize (Hk cur _ eq_refl (@positioned_skipTo _ _ _ Hf Hcur)).
      destruct (headAt cid (skipTo cid c)); [exact Hk|].
      eapply runs_bind; [eapply run_shouldMin; reflexivity|].
      intros a s1 [-> ->]. cbn [search.Min StreamSearcher_Searcher skipTo
                                set_position minimum].
      destruct (minimum c =? 0)%Z; exact Hk.
    + eapply runs_bind; [apply run_isAt|]. intros b s2 [-> ->].
      rewrite (@shows_at _ _ cid Hsh).
      specialize (Hk (currShould s) _ (@same_should _ _ _ Hc eq_refl)
                    (conj Hst (conj Hf Hsh))).
      destruct (headAt cid c); [exact Hk|].
      eapply runs_bind
        with (Q := fun a s' => a = (minimum c =? 0)%Z /\ s' = s).
      * eapply runs_bind; [eapply run_shouldMin; exact Hc|].
        intros a s1 [-> ->]. apply runs_ret. split; reflexivity.
      * intros a s1 [-> ->].
        destruct (minimum c =? 0)%Z; exact Hk.
  - rewrite Hpos.
    eapply runs_bind; [apply run_isAt|]. intros b s2 [-> ->].
    eapply runs_bind with (Q := fun a s' => a = true /\ s' = s);
      [apply runs_ret; split; reflexivity|].
    intros a s1 [-> ->].
    apply (Hk None); [now apply same_should | reflexivity].
Qed.

(** Lines 116-145 with a must child: the must child moves on. *)
Lemma run_advanceNextMust_must (s : BS) skip c
    (Hc : mustSearcher s = Some c) (Hf : faults c = []) :
  runs (advanceNextMust skip) s
    (fun a s' =>
       a = tt /\
       exists cur,
         s' = set_currentID (option_map fst (head (ahead (stepPast c))))
                (set_currMust cur (set_mustSearcher (Some (stepPast c)) s)) /\
         shows cur (stepPast c)).
Proof.
  unfold advanceNextMust. apply runs_get; intros ctx0; cbn [fst].
  rewrite Hc; cbn [notNil].
  eapply runs_bind.
  - eapply runs_bind; [apply run_recycle_unless|]. intros a s1 [-> ->].
    eapply run_pullMust; [apply Next_is_serve | exact Hc | exact Hf].
  - intros a s1 [-> (cur & -> & Hcur)].
    eapply runs_weaken; [apply run_setCurrentID|].
    intros a s' [-> ->]; fields. split; [reflexivity|].
    exists cur. rewrite (shows_ID _ _ Hcur). split; [reflexivity | exact Hcur].
Qed.

(** Lines 116-145 without a must child: the should child moves on. *)
Lemma run_advanceNextMust_should (s : BS) skip c
    (Hm : mustSearcher s = None)
    (Hc : shouldSearcher s = Some c) (Hf : faults c = []) :
  runs (advanceNextMust skip) s
    (fun a s' =>
       a = tt /\
       exists cur,
         s' = set_currentID (option_map fst (head (ahead (stepPast c))))
                (set_currShould cur
                   (set_shouldSearcher (Some (stepPast c)) s)) /\
         shows cur (stepPast c)).
Proof.
  unfold advanceNextMust. apply runs_get; intros ctx0; cbn [fst].
  rewrite Hm; cbn [notNil].
  eapply runs_bind.
  - eapply runs_bind; [apply run_recycle_unless|]. intros a s1 [-> ->].
    eapply run_pullShould; [apply Next_is_serve | exact Hc | exact Hf].
  - intros a s1 [-> (cur & -> & Hcur)].
    eapply runs_weaken; [apply run_setCurrentID|].
    intros a s' [-> ->]; fields. rewrite Hm. split; [reflexivity|].
    exists cur. rewrite (shows_ID _ _ Hcur). split; [reflexivity | exact Hcur].
Qed.

(** Lines 217-232 with a must child. *)
Lemma run_scoreBonus_must (s : BS) cm m m2
    (Hc : mustSearcher s = Some cm) (Hf : faults cm = [])
    (Hm : currMust s = Some m) (Hm2 : currShould s = Some m2) :
  runs (scoreBonus combine) s
    (fun fl s' =>
       exists rv cur,
         fl = Break rv /\
         search.IndexInternalID rv = search.IndexInternalID m /\
         search.Score rv = combine [search.Score m; search.Score m2] /\
         s' = set_currentID (option_map fst (head (ahead (stepPast cm))))
                (set_currMust cur
                   (set_mustSearcher (Some (stepPast cm))
                      (set_matches (Some m, Some m2) s))) /\
         shows cur (stepPast cm)).
Proof.
  unfold scoreBonus. apply runs_get; intros ctx0; cbn [fst].
  rewrite Hm, Hm2; cbn [notNil]; cbv zeta.
  eapply runs_bind; [apply run_modify|]. intros a s1 [-> ->].
  eapply runs_bind; [apply (run_Score combine (scorer s) m [m2])|].
  intros rv s1 [(Hp & Hi & Hs) ->].
  eapply runs_bind;
    [eapply run_advanceNextMust_must; [fields; exact Hc | exact Hf]|].
  intros a s1 [-> (cur & -> & Hcur)]. apply runs_ret.
  exists rv, cur. repeat split; assumption.
Qed.

(** Lines 217-232 without a must child. *)
Lemma run_scoreBonus_should (s : BS) cs m
    (Hn : mustSearcher s = None) (Hm : currMust s = None)
    (Hc : shouldSearcher s = Some cs) (Hf : faults cs = [])
    (Hm2 : currShould s = Some m) :
  runs (scoreBonus combine) s
    (fun fl s' =>
       exists rv cur,
         fl = Break rv /\
         search.IndexInternalID rv = search.IndexInternalID m /\
         search.Score rv = combine [search.Score m] /\
         s' = set_currentID (option_map fst (head (ahead (stepPast cs))))
                (set_currShould cur
                   (set_shouldSearcher (Some (stepPast cs))
                      (set_matches (Some m, snd (matches s)) s))) /\
         shows cur (stepPast cs)).
Proof.
  unfold scoreBonus. apply runs_get; intros ctx0; cbn [fst].
  rewrite Hm, Hm2; cbn [notNil]; cbv zeta.
  eapply runs_bind; [apply run_modify|]. intros a s1 [-> ->].
  eapply runs_bind; [apply (run_Score combine (scorer s) m [])|].
  intros rv s1 [(Hp & Hi & Hs) ->].
  eapply runs_bind;
    [eapply run_advanceNextMust_should;
     [fields; exact Hn | fields; exact Hc | exact Hf]|].
  intros a s1 [-> (cur & -> & Hcur)]. apply runs_ret.
  exists rv, cur. repeat split; assumption.
Qed.

(** Lines 234-242 with a must child. *)
Lemma run_scoreMustOnly_must (s : BS) cm m
    (Hc : mustSearcher s = Some cm) (Hf : faults cm = [])
    (Hm : currMust s = Some m) :
  runs (scoreMustOnly combine) s
    (fun fl s' =>
       exists rv cur,
         fl = Break rv /\
         search.IndexInternalID rv = search.IndexInternalID m /\
         search.Score rv = combine [search.Score m] /\
         s' = set_currentID (option_map fst (head (ahead (stepPast cm))))
                (set_currMust cur
                   (set_mustSearcher (Some (stepPast cm))
                      (set_matches (Some m, snd (matches s)) s))) /\
         shows cur (stepPast cm)).
Proof.
  unfold scoreMustOnly. apply runs_get; intros ctx0; cbn [fst].
  rewrite Hm; cbv zeta.
  eapply runs_bind; [apply run_modify|]. intros a s1 [-> ->].
  eapply runs_bind; [apply (run_Score combine (scorer s) m [])|].
  intros rv s1 [(Hp & Hi & Hs) ->].
  eapply runs_bind;
    [eapply run_advanceNextMust_must; [fields; exact Hc | exact Hf]|].
  intros a s1 [-> (cur & -> & Hcur)]. apply runs_ret.
  exists rv, cur. repeat split; assumption.
Qed.

Lemma at_shows c cur cid
    (Hp : positioned c cur) (Hat : atCandidate cid c = true) :
  exists m2, cur = Some m2 /\ headScore c = [search.Score m2].
Proof.
  destruct c as [c|]; [|discriminate].
  destruct Hp as (_ & _ & Hs). revert Hs Hat.
  unfold shows, atCandidate, headAt, headScore.
  destruct (ahead c) as [|y l]; [discriminate|].
  intros (m2 & -> & _ & Hsc) _. exists m2. now rewrite Hsc.
Qed.

Ltac ready_tac :=
  unfold ready, kids, driverID, driver; fields; cbn [positioned];
  repeat split; auto using started_stepPast;
  try (rewrite faults_stepPast; assumption).

Ltac ready_with H :=
  unfold ready, kids, driverID, driver; fields; rewrite !H;
  cbn [positioned];
  repeat split; auto using started_stepPast;
  try (rewrite faults_stepPast; assumption).

(** One pass of the loop of [Next] is one step of the merge. *)
Lemma run_Next_body (s : BS) cid
    (Hr : ready s) (Hcid : currentID s = Some cid) :
  runs (Next_body combine cid) s
    (fun fl s' =>
       ready s' /\
       exists r, mergeStep combine (kids s) = Some (r, kids s') /\
                 flowReports fl r).
Proof.
  destruct Hr as (Hi & Pm & Ps & Pn & Hd). rewrite Hd in Hcid.
  unfold driverID, driver, kids in Hcid.
  destruct (mustSearcher s) as [cm|] eqn:Hcm.
  - (* a must child drives *)
    destruct Pm as (Hst & Hf & Hsh).
    destruct (ahead cm) as [|x l] eqn:Ha; [discriminate|].
    injection Hcid as Hx. subst cid.
    unfold shows in Hsh; rewrite Ha in Hsh.
    destruct Hsh as (m & Hm & Hmi & Hms).
    apply run_Next_body_split; [exact Pn|]. intros cur s1 -> Pn1.
    destruct (atCandidate (fst x) (align (fst x) (mustNotSearcher s))) eqn:Hex.
    + eapply runs_bind;
        [eapply run_advanceNextMust_must; [fields; exact Hcm | exact Hf]|].
      intros a s1 [-> (cur' & -> & Hcur')]. apply runs_ret. split.
      * ready_tac.
      * exists None. split; [|exact I].
        unfold mergeStep, kids. rewrite Hcm, Ha. cbv zeta. rewrite Hex.
        fields. reflexivity.
    + apply run_shouldStage_split; fields; [exact Ps|].
      intros cur2 s2 -> Ps1.
      destruct (atCandidate (fst x) (align (fst x) (shouldSearcher s))) eqn:Hat.
      * destruct (at_shows _ _ _ Ps1 Hat) as (m2 & -> & Hsc).
        eapply runs_weaken;
          [eapply run_scoreBonus_must;
           [fields; exact Hcm | exact Hf | fields; exact Hm
           | fields; reflexivity]|].
        intros fl s' (rv & cur' & -> & Hi' & Hs' & -> & Hcur'). split.
        -- ready_tac.
        -- eexists. split.
           ++ unfold mergeStep, kids. rewrite Hcm, Ha. cbv zeta.
              rewrite Hex, Hat. fields. reflexivity.
           ++ cbn [flowReports fst snd]. rewrite Hi', Hs', Hmi, Hms, Hsc.
              split; reflexivity.
      * destruct (optionalShould (shouldSearcher s)) eqn:Hopt.
        -- eapply runs_weaken;
             [eapply run_scoreMustOnly_must;
              [fields; exact Hcm | exact Hf | fields; exact Hm]|].
           intros fl s' (rv & cur' & -> & Hi' & Hs' & -> & Hcur'). split.
           ++ ready_tac.
           ++ eexists. split.
              ** unfold mergeStep, kids. rewrite Hcm, Ha. cbv zeta.
                 rewrite Hex, Hat, Hopt. fields. reflexivity.
              ** cbn [flowReports fst snd]. rewrite Hi', Hs', Hmi, Hms.
                 split; reflexivity.
        -- unfold reject.
           eapply runs_bind;
             [eapply run_advanceNextMust_must; [fields; exact Hcm | exact Hf]|].
           intros a s1 [-> (cur' & -> & Hcur')]. apply runs_ret. split.
           ++ ready_tac.
           ++ exists None. split; [|exact I].
              unfold mergeStep, kids. rewrite Hcm, Ha. cbv zeta.
              rewrite Hex, Hat, Hopt. fields. reflexivity.
  - (* no must child: the should child drives *)
    cbn [positioned] in Pm.
    destruct (shouldSearcher s) as [cs|] eqn:Hcs; [|discriminate].
    destruct Ps as (Hst & Hf & Hsh).
    destruct (ahead cs) as [|x l] eqn:Ha; [discriminate|].
    injection Hcid as Hx. subst cid.
    pose proof Hsh as Hsh'.
    unfold shows in Hsh; rewrite Ha in Hsh.
    destruct Hsh as (m & Hm & Hmi & Hms).
    assert (Hnb : headBefore (fst x) cs = false).
    { unfold headBefore, before. rewrite Ha, Compare_refl. reflexivity. }
    assert (Hha : headAt (fst x) cs = true).
    { unfold headAt. rewrite Ha. now apply Equals_eq. }
    apply run_Next_body_split; [exact Pn|]. intros cur s1 -> Pn1.
    destruct (atCandidate (fst x) (align (fst x) (mustNotSearcher s))) eqn:Hex.
    + eapply runs_bind;
        [eapply run_advanceNextMust_should;
         [fields; exact Hcm | fields; exact Hcs | exact Hf]|].
      intros a s1 [-> (cur' & -> & Hcur')]. apply runs_ret. split.
      * ready_with Hcm.
      * exists None. split; [|exact I].
        unfold mergeStep, kids. rewrite Hcm, Hcs, Ha. cbv zeta. rewrite Hex.
        fields. rewrite ?Hcm. reflexivity.
    + apply run_shouldStage_split; fields;
        [rewrite Hcs; repeat split; assumption|].
      rewrite Hcs. cbn [align atCandidate]. rewrite Hnb, Hha.
      intros cur2 s2 -> (_ & _ & Hsh2).
      unfold shows in Hsh2; rewrite Ha in Hsh2.
      destruct Hsh2 as (m' & -> & Hmi' & Hms').
      eapply runs_weaken;
        [eapply run_scoreBonus_should;
         [fields; exact Hcm | fields; exact Pm | fields; reflexivity
         | exact Hf | fields; reflexivity]|].
      intros fl s' (rv & cur' & -> & Hi' & Hs' & -> & Hcur'). split.
      * ready_with Hcm.
      * eexists. split.
        -- unfold mergeStep, kids. rewrite Hcm, Hcs, Ha. cbv zeta.
           rewrite Hex. fields. rewrite ?Hcm. reflexivity.
        -- cbn [flowReports fst snd]. rewrite Hi', Hs', Hmi', Hms'.
           split; reflexivity.
Qed.

Lemma mergeStep_None k :
  mergeStep combine k = None <-> driverID k = None.
Proof.
  destruct k as [[[cm|] [cs|]] cn]; unfold mergeStep, driverID, driver;
    try (destruct (ahead cm) as [|x l]); try (destruct (ahead cs) as [|y l']);
    cbv zeta; cbn [hd_error option_map];
    repeat match goal with
           | |- context [if ?b then _ else _] => destruct b
           end;
    split; intros H; try discriminate; reflexivity.
Qed.

(** The loop of [Next] is the loop of the merge. *)
Lemma run_Next_loop fuel : forall (s : BS) r k',
  ready s -> mergeLoop combine fuel (kids s) = Some (r, k') ->
  runs (Next_loop combine fuel) s
    (fun res s' => ready s' /\ kids s' = k' /\ reports res r).
Proof.
  induction fuel as [|fuel IH]; intros s r k' Hr H; cbn [mergeLoop] in H;
    cbn [Next_loop]; apply runs_get; intros ctx0; cbn [fst];
    destruct (currentID s) as [cid|] eqn:Hcid.
  - destruct (mergeStep combine (kids s)) as [[r0 k0]|] eqn:Hs;
      [discriminate|].
    apply mergeStep_None in Hs. destruct Hr as (_ & _ & _ & _ & Hd).
    congruence.
  - assert (Hs : mergeStep combine (kids s) = None).
    { apply mergeStep_None. destruct Hr as (_ & _ & _ & _ & Hd). congruence. }
    rewrite Hs in H. injection H as <- <-. apply runs_ret.
    split; [exact Hr | split; [reflexivity | exact I]].
  - eapply runs_bind; [apply (run_Next_body Hr Hcid)|].
    intros fl s1 (Hr1 & r0 & Hstep & Hfl). rewrite Hstep in H.
    destruct fl as [|rv], r0 as [x|]; try contradiction.
    + now apply IH.
    + injection H as <- <-. apply runs_ret.
      split; [exact Hr1 | split; [reflexivity | exact Hfl]].
  - assert (Hs : mergeStep combine (kids s) = None).
    { apply mergeStep_None. destruct Hr as (_ & _ & _ & _ & Hd). congruence. }
    rewrite Hs in H. injection H as <- <-. apply runs_ret.
    split; [exact Hr | split; [reflexivity | exact I]].
Qed.

(** *** The first pull and [Advance] *)

Lemma same_must (s : BS) c cur
    (Hc : mustSearcher s = c) (Hcur : currMust s = cur) :
  s = set_currMust cur (set_mustSearcher c s).
Proof. subst. destruct s; reflexivity. Qed.

(** The statement that [initSearchers] and [Advance] make for each child:
    put back the slot, call the child, keep what it returns. *)
Lemma run_reposition_must op move (s : BS)
    (Hop : forall c ctx, op c ctx = serve move c ctx)
    (Hst : forall c, started (move c) = true)
    (Hfa : forall c, faults (move c) = faults c)
    (Hs : match mustSearcher s with
          | Some c => faults c = []
          | None => currMust s = None
          end) :
  runs (if notNil (mustSearcher s)
        then (if notNil (currMust s) then poolPut (currMust s) else ret tt) ;;;
             pullMust op
        else ret tt) s
    (fun _ s' =>
       exists cur,
         s' = set_currMust cur
                (set_mustSearcher (option_map move (mustSearcher s)) s) /\
         positioned (option_map move (mustSearcher s)) cur).
Proof.
  destruct (mustSearcher s) as [c|] eqn:Hc; cbn [notNil option_map].
  - eapply runs_bind; [apply run_recycle|]. intros a s1 [-> ->].
    eapply runs_weaken; [eapply run_pullMust; eauto|].
    intros a s' [-> (cur & -> & Hcur)]. exists cur.
    split; [reflexivity|]. repeat split; auto. now rewrite Hfa.
  - apply runs_ret. exists None. split; [now apply same_must | reflexivity].
Qed.

Lemma run_reposition_should op move (s : BS)
    (Hop : forall c ctx, op c ctx = serve move c ctx)
    (Hst : forall c, started (move c) = true)
    (Hfa : forall c, faults (move c) = faults c)
    (Hs : match shouldSearcher s with
          | Some c => faults c = []
          | None => currShould s = None
          end) :
  runs (if notNil (shouldSearcher s)
        then (if notNil (currShould s) then poolPut (currShould s) else ret tt) ;;;
             pullShould op
        else ret tt) s
    (fun _ s' =>
       exists cur,
         s' = set_currShould cur
                (set_shouldSearcher (option_map move (shouldSearcher s)) s) /\
         positioned (option_map move (shouldSearcher s)) cur).
Proof.
  destruct (shouldSearcher s) as [c|] eqn:Hc; cbn [notNil option_map].
  - eapply runs_bind; [apply run_recycle|]. intros a s1 [-> ->].
    eapply runs_weaken; [eapply run_pullShould; eauto|].
    intros a s' [-> (cur & -> & Hcur)]. exists cur.
    split; [reflexivity|]. repeat split; auto. now rewrite Hfa.
  - apply runs_ret. exists None. split; [now apply same_should | reflexivity].
Qed.

Lemma run_reposition_mustNot op move (s : BS)
    (Hop : forall c ctx, op c ctx = serve move c ctx)
    (Hst : forall c, started (move c) = true)
    (Hfa : forall c, faults (move c) = faults c)
    (Hs : match mustNotSearcher s with
          | Some c => faults c = []
          | None => currMustNot s = None
          end) :
  runs (if notNil (mustNotSearcher s)
        then (if notNil (currMustNot s) then poolPut (currMustNot s)
              else ret tt) ;;;
             pullMustNot op
        else ret tt) s
    (fun _ s' =>
       exists cur,
         s' = set_currMustNot cur
                (set_mustNotSearcher (option_map move (mustNotSearcher s)) s) /\
         positioned (option_map move (mustNotSearcher s)) cur).
Proof.
  destruct (mustNotSearcher s) as [c|] eqn:Hc; cbn [notNil option_map].
  - eapply runs_bind; [apply run_recycle|]. intros a s1 [-> ->].
    eapply runs_weaken; [eapply run_pullMustNot; eauto|].
    intros a s' [-> (cur & -> & Hcur)]. exists cur.
    split; [reflexivity|]. repeat split; auto. now rewrite Hfa.
  - apply runs_ret. exists None. split; [now apply same_mustNot | reflexivity].
Qed.

(** The identifier [setCurrentID] computes is the driver's. *)
Lemma driving_ID (cm cs : option StreamSearcher) cn curM curS
    (Pm : positioned cm curM) (Ps : positioned cs curS) :
  match cm with
  | Some _ => option_map search.IndexInternalID curM
  | None => option_map search.IndexInternalID curS
  end = driverID (cm, cs, cn).
Proof.
  unfold driverID, driver.
  destruct cm as [cm|].
  - destruct Pm as (_ & _ & Hs). apply shows_ID, Hs.
  - destruct cs as [cs|].
    + destruct Ps as (_ & _ & Hs). apply shows_ID, Hs.
    + cbn [positioned] in Ps. now subst.
Qed.

Lemma positioned_faults c cur (Hp : positioned c cur) :
  match c with
  | Some c => faults c = []
  | None => cur = None
  end.
Proof. destruct c as [c|]; [apply Hp | exact Hp]. Qed.

Lemma unstarted_faults c (Hu : unstarted c) :
  match c with
  | Some c => faults c = []
  | None => @None DocumentMatch = None
  end.
Proof. destruct c as [c|]; [apply Hu | reflexivity]. Qed.

(** Lines 71-114 on a fresh searcher: every child is pulled once. *)
Lemma run_initSearchers (s : BS) (Hf : fresh s) :
  runs initSearchers s
    (fun _ s' => ready s' /\ kids s' = startAll (kids s)).
Proof.
  destruct Hf as (Hi & Hm & Hs & Hn & Um & Us & Un).
  unfold initSearchers. apply runs_get; intros ctx0; cbn [fst].
  eapply runs_bind.
  { apply run_reposition_must with (move := stepPast);
      [apply Next_is_serve | apply started_stepPast | apply faults_stepPast|].
    destruct (mustSearcher s); [apply Um | exact Hm]. }
  intros _ s1 (curM & -> & Pm). apply runs_get; intros ctx1; cbn [fst].
  eapply runs_bind.
  { apply run_reposition_should with (move := stepPast);
      [apply Next_is_serve | apply started_stepPast | apply faults_stepPast|].
    fields. destruct (shouldSearcher s); [apply Us | exact Hs]. }
  intros _ s1 (curS & -> & Ps). fields_in Ps. apply runs_get; intros ctx2; cbn [fst].
  eapply runs_bind.
  { apply run_reposition_mustNot with (move := stepPast);
      [apply Next_is_serve | apply started_stepPast | apply faults_stepPast|].
    fields. destruct (mustNotSearcher s); [apply Un | exact Hn]. }
  intros _ s1 (curN & -> & Pn). fields_in Pn. fields.
  eapply runs_bind; [apply run_setCurrentID|]. intros a s1 [-> ->]. fields.
  eapply runs_weaken; [apply run_modify|]. intros a s' [-> ->].
  split; [|reflexivity].
  unfold ready, kids; fields. repeat split; try assumption.
  apply driving_ID; assumption.
Qed.

(** From a consistent state, the first statement of [Next] and of
    [Advance] leaves a ready searcher at [position s]. *)
Lemma run_ensure_initialized (s : BS) (Hc : consistent s) :
  runs (if negb (initialized s) then initSearchers else ret tt) s
    (fun _ s' => ready s' /\ kids s' = position s).
Proof.
  unfold position. destruct Hc as [Hr|Hf].
  - pose proof Hr as (Hi & _). rewrite Hi. apply runs_ret. auto.
  - pose proof Hf as (Hi & _). rewrite Hi. now apply run_initSearchers.
Qed.

(** [Next] over streams is the loop of the merge. *)
Lemma run_Next fuel (s : BS) r k'
    (Hc : consistent s)
    (H : mergeLoop combine fuel (position s) = Some (r, k')) :
  runs (Next combine fuel) s
    (fun res s' => ready s' /\ kids s' = k' /\ reports res r).
Proof.
  unfold Next. apply runs_get; intros ctx0; cbn [fst].
  eapply runs_bind; [apply (run_ensure_initialized Hc)|].
  intros _ s1 (Hr1 & Hk1). apply run_Next_loop; [exact Hr1|].
  now rewrite Hk1.
Qed.

(** [Advance] over streams skips every child to the target and then is the
    loop of the merge. *)
Lemma run_Advance fuel ID (s : BS) r k'
    (Hc : consistent s)
    (H : mergeLoop combine fuel (skipAll ID (position s)) = Some (r, k')) :
  runs (Advance combine fuel ID) s
    (fun res s' => ready s' /\ kids s' = k' /\ reports res r).
Proof.
  unfold Advance. apply runs_get; intros ctx0; cbn [fst].
  eapply runs_bind; [apply (run_ensure_initialized Hc)|].
  intros _ s1 ((Hi & Pm & Ps & Pn & Hd) & Hk1).
  apply runs_get; intros ctx1; cbn [fst].
  eapply runs_bind.
  { apply run_reposition_must with (move := skipTo ID);
      [apply advanceTo_is_serve | reflexivity | reflexivity|].
    apply (positioned_faults _ _ Pm). }
  intros _ s2 (curM & -> & Pm'). apply runs_get; intros ctx2; cbn [fst].
  eapply runs_bind.
  { apply run_reposition_should with (move := skipTo ID);
      [apply advanceTo_is_serve | reflexivity | reflexivity|].
    fields. apply (positioned_faults _ _ Ps). }
  intros _ s2 (curS & -> & Ps'). fields_in Ps'. apply runs_get; intros ctx3; cbn [fst].
  eapply runs_bind.
  { apply run_reposition_mustNot with (move := skipTo ID);
      [apply advanceTo_is_serve | reflexivity | reflexivity|].
    fields. apply (positioned_faults _ _ Pn). }
  intros _ s2 (curN & -> & Pn'). fields_in Pn'. fields.
  eapply runs_bind; [apply run_setCurrentID|]. intros a s2 [-> ->]. fields.
  apply run_Next; [left|].
  - unfold ready, kids; fields. repeat split; try assumption.
    apply driving_ID; assumption.
  - unfold position; fields. rewrite Hi. unfold kids; fields.
    rewrite <- H, <- Hk1. reflexivity.
Qed.

End Simulation.

(** ** The merge and the streams *)

Unset Implicit Arguments.

Lemma before_false_refl (x : item) : before (fst x) x = false.
Proof. unfold before. now rewrite Compare_refl. Qed.

Lemma before_not_at i (y : item) :
  before i y = true -> index.Equals (fst y) i = false.
Proof.
  unfold before. intros H. destruct (index.Equals (fst y) i) eqn:E; [|reflexivity].
  apply Equals_eq in E. rewrite E, Compare_refl in H. discriminate.
Qed.

(** Skipping to [i] drops no entry at or after [i]. *)
Lemma member_dropWhile i j (L : list item) :
  (index.Compare j i <? 0)%Z = false ->
  member j (dropWhile (before i) L) = member j L.
Proof.
  intros Hj. induction L as [|y L IH]; simpl; [reflexivity|].
  destruct (before i y) eqn:Hb; [|reflexivity].
  rewrite IH. destruct (index.Equals (fst y) j) eqn:E; [|reflexivity].
  apply Equals_eq in E. unfold before in Hb. rewrite E in Hb. congruence.
Qed.

Lemma find_dropWhile i j (L : list item) :
  (index.Compare j i <? 0)%Z = false ->
  find (fun y => index.Equals (fst y) j) (dropWhile (before i) L) =
  find (fun y => index.Equals (fst y) j) L.
Proof.
  intros Hj. induction L as [|y L IH]; simpl; [reflexivity|].
  destruct (before i y) eqn:Hb; [|reflexivity].
  rewrite IH. destruct (index.Equals (fst y) j) eqn:E; [|reflexivity].
  apply Equals_eq in E. unfold before in Hb. rewrite E in Hb. congruence.
Qed.

Lemma dropWhile_head {A} (p : A -> bool) (L : list A) x L' :
  dropWhile p L = x :: L' -> p x = false.
Proof.
  induction L as [|y L IH]; simpl; [discriminate|].
  destruct (p y) eqn:E; [exact IH|]. now intros [= <- <-].
Qed.

Lemma ascending_tail (y : item) L :
  ascending (y :: L) = true -> ascending L = true.
Proof.
  unfold ascending; simpl. destruct (map fst L) eqn:E; [reflexivity|].
  now intros [_ H]%andb_true_iff.
Qed.

Lemma ascending_after (y : item) L :
  ascending (y :: L) = true ->
  forall z, In z L -> (index.Compare (fst y) (fst z) < 0)%Z.
Proof.
  revert y. induction L as [|w L IH]; intros y H z Hz; [contradiction|].
  pose proof H as H'. unfold ascending in H'; simpl in H'.
  apply andb_true_iff in H' as [Hyw Hrest]. apply Z.ltb_lt in Hyw.
  destruct Hz as [->|Hz]; [exact Hyw|].
  eapply Compare_trans; [exact Hyw|]. apply (IH w); [exact Hrest | exact Hz].
Qed.

Lemma ascending_dropWhile (p : item -> bool) L :
  ascending L = true -> ascending (dropWhile p L) = true.
Proof.
  induction L as [|y L IH]; simpl; [reflexivity|].
  intros H. destruct (p y); [|exact H].
  apply IH. eapply ascending_tail; eauto.
Qed.

(** In an ascending stream whose head is after [i], [i] does not occur. *)
Lemma member_after i (y : item) L :
  ascending (y :: L) = true ->
  (index.Compare i (fst y) < 0)%Z ->
  member i (y :: L) = false.
Proof.
  intros Ha Hi. unfold member. apply not_true_is_false. intros H.
  apply existsb_exists in H as (z & Hz & E). apply Equals_eq in E.
  destruct Hz as [<-|Hz].
  - rewrite E, Compare_refl in Hi. lia.
  - pose proof (ascending_after _ _ Ha z Hz) as Hyz. rewrite E in Hyz.
    pose proof (Compare_antisym i (fst y)). lia.
Qed.

(** Where an ascending stream stands at or after [i], its head decides
    whether [i] occurs. *)
Lemma head_decides i (L : list item) :
  ascending L = true ->
  match L with y :: _ => before i y | [] => false end = false ->
  match L with y :: _ => index.Equals (fst y) i | [] => false end = member i L.
Proof.
  intros Ha Hb. destruct L as [|y L]; [reflexivity|].
  destruct (Compare_cases (fst y) i) as [[H _]|[(_ & E & _)|(_ & E & Hgt)]].
  - unfold before in Hb. congruence.
  - rewrite E. unfold member; simpl. now rewrite E.
  - rewrite E. symmetry. apply member_after; [exact Ha|].
    now apply Z.ltb_lt.
Qed.

Lemma find_head i (y : item) L :
  index.Equals (fst y) i = true ->
  find (fun z => index.Equals (fst z) i) (y :: L) = Some y.
Proof. intros E; simpl. now rewrite E. Qed.

Lemma member_find_none i (L : list item) :
  member i L = false -> find (fun z => index.Equals (fst z) i) L = None.
Proof.
  induction L as [|y L IH]; simpl; [reflexivity|].
  destruct (index.Equals (fst y) i); [discriminate | exact IH].
Qed.

Lemma dropWhile_stays {A} (p : A -> bool) (L : list A) :
  match L with y :: _ => p y | [] => false end = false ->
  dropWhile p L = L.
Proof. destruct L as [|y L]; simpl; [reflexivity|]. now intros ->. Qed.

Lemma lookahead_align i c :
  lookahead (align i c) = dropWhile (before i) (lookahead c).
Proof.
  destruct c as [c|]; [|reflexivity]. cbn [align lookahead].
  unfold headBefore. destruct (ahead c) as [|y L] eqn:E.
  - now rewrite E.
  - destruct (before i y) eqn:Hb.
    + cbn [skipTo set_position ahead]. now rewrite E.
    + rewrite E. cbn [dropWhile]. now rewrite Hb.
Qed.

Lemma atCandidate_lookahead i c :
  atCandidate i c =
  match lookahead c with y :: _ => index.Equals (fst y) i | [] => false end.
Proof. destruct c as [c|]; reflexivity. Qed.

(** Once aligned, a clause is at the candidate exactly when the candidate
    occurs in its stream. *)
Lemma atCandidate_align i c :
  ascending (lookahead c) = true ->
  atCandidate i (align i c) = member i (lookahead c).
Proof.
  intros Ha. rewrite atCandidate_lookahead, lookahead_align.
  rewrite head_decides.
  - apply member_dropWhile. now rewrite Compare_refl.
  - now apply ascending_dropWhile.
  - destruct (dropWhile (before i) (lookahead c)) as [|y L] eqn:E;
      [reflexivity|]. eapply dropWhile_head; eauto.
Qed.

Lemma scaled_align i c c' r :
  align i (Some c) = Some c' -> scaled c' r = scaled c r.
Proof.
  cbn [align]. intros [= <-]. destruct (headBefore i c); reflexivity.
Qed.

Lemma scoreAt_align i j c :
  (index.Compare j i <? 0)%Z = false ->
  scoreAt j (align i c) = scoreAt j c.
Proof.
  intros Hj. destruct c as [c|]; [|reflexivity].
  pose proof (lookahead_align i (Some c)) as Hl.
  destruct (align i (Some c)) as [c'|] eqn:E; [|discriminate].
  cbn [lookahead] in Hl. cbn [scoreAt]. rewrite Hl, (find_dropWhile _ _ _ Hj).
  destruct (find _ (ahead c)); [|reflexivity].
  now rewrite (scaled_align _ _ _ _ E).
Qed.

Lemma member_align i j c :
  (index.Compare j i <? 0)%Z = false ->
  member j (lookahead (align i c)) = member j (lookahead c).
Proof. intros Hj. rewrite lookahead_align. now apply member_dropWhile. Qed.

Lemma optionalShould_align i c :
  optionalShould (align i c) = optionalShould c.
Proof.
  destruct c as [c|]; [|reflexivity]. cbn [align optionalShould].
  destruct (headBefore i c); reflexivity.
Qed.

Lemma headScore_at i c :
  atCandidate i c = true -> headScore c = scoreAt i c.
Proof.
  destruct c as [c|]; [|discriminate]. cbn [atCandidate headScore scoreAt].
  unfold headAt. destruct (ahead c) as [|y L]; [discriminate|].
  intros E. now rewrite (find_head _ _ _ E).
Qed.

Lemma scoreAt_absent i c :
  member i (lookahead c) = false -> scoreAt i c = [].
Proof.
  destruct c as [c|]; [|reflexivity]. cbn [lookahead scoreAt].
  intros H. now rewrite (member_find_none _ _ H).
Qed.

Lemma ascending_align i c :
  ascending (lookahead c) = true -> ascending (lookahead (align i c)) = true.
Proof. intros H. rewrite lookahead_align. now apply ascending_dropWhile. Qed.

Lemma started_align i c :
  (forall c0, c = Some c0 -> started c0 = true) ->
  forall c1, align i c = Some c1 -> started c1 = true.
Proof.
  intros H c1. destruct c as [c|]; [|discriminate]. cbn [align].
  intros [= <-]. destruct (headBefore i c); [reflexivity | now apply H].
Qed.

Section MergeSpec.
Variable combine : list float -> float.

Lemma ahead_stepPast_started c :
  started c = true -> ahead (stepPast c) = tl (ahead c).
Proof. intros H. now rewrite ahead_stepPast, H. Qed.

(** A candidate after [x] in the driving stream is not affected by what a
    pass on [x] does to the other clauses. *)
Lemma later_not_before (x : item) (l : list item) z :
  ascending (x :: l) = true -> In z l ->
  (index.Compare (fst z) (fst x) <? 0)%Z = false.
Proof.
  intros Ha Hz. pose proof (ascending_after _ _ Ha z Hz) as H.
  pose proof (Compare_antisym (fst x) (fst z)). apply Z.ltb_ge. lia.
Qed.

(** Closes the side goals of [mergeStep_spec]. *)
Ltac step_done Hl Hlater :=
  repeat split;
  first
    [ assumption
    | solve [auto using ascending_align]
    | solve [cbn [lookahead]; rewrite Hl; assumption]
    | solve [intros ? [= <-]; apply started_stepPast]
    | solve [intros ? [=]]
    | solve [apply started_align; assumption]
    | match goal with
      | Hz : In ?z _ |- _ =>
          rewrite ?(member_align _ _ _ (Hlater z Hz)),
                  ?(scoreAt_align _ _ _ (Hlater z Hz)),
                  ?optionalShould_align, ?scaled_stepPast;
          try match goal with
              | Ho : optionalShould _ = _ |- _ => rewrite Ho
              end;
          reflexivity
      end ].

(** One step of the merge, read on the streams: the head of the driving
    stream is consumed; it is emitted exactly when it qualifies; the
    candidates behind it qualify, and are scored, as before. *)
Lemma mergeStep_spec k r k' :
  sortedKids k -> startedKids k ->
  mergeStep combine k = Some (r, k') ->
  exists x l,
    driver k = x :: l /\ driver k' = l /\
    sortedKids k' /\ startedKids k' /\
    r = (if qualifies k x then Some (expect combine k x) else None) /\
    (forall z, In z l ->
               qualifies k' z = qualifies k z /\
               expect combine k' z = expect combine k z).
Proof.
  destruct k as [[cm cs] cn]. intros (Sm & Ss & Sn) (Tm & Ts & Tn).
  destruct cm as [cm|]; [|destruct cs as [cs|]; [|discriminate]];
    cbn [mergeStep lookahead] in *.
  - (* a must child drives *)
    destruct (ahead cm) as [|x l] eqn:Ha; [discriminate|]. cbv zeta.
    rewrite !atCandidate_align by assumption.
    pose proof (Tm cm eq_refl) as Hst.
    assert (Hl : ahead (stepPast cm) = l)
      by (rewrite (ahead_stepPast_started _ Hst), Ha; reflexivity).
    assert (Hsl : ascending l = true) by (eapply ascending_tail; eauto).
    assert (Hlater : forall z, In z l ->
              (index.Compare (fst z) (fst x) <? 0)%Z = false)
      by (intros z Hz; eapply later_not_before; eauto).
    intros H. exists x, l.
    destruct (member (fst x) (lookahead cn)) eqn:Hn.
    + injection H as <- <-. cbn [driver qualifies expect lookahead].
      rewrite Hl, Hn. cbn [negb andb]. step_done Hl Hlater.
    + destruct (member (fst x) (lookahead cs)) eqn:Hs.
      * injection H as <- <-. cbn [driver qualifies expect lookahead].
        rewrite Hl, Hn, Hs, orb_true_r.
        rewrite headScore_at with (i := fst x)
          by (rewrite atCandidate_align; assumption).
        rewrite scoreAt_align by (now rewrite Compare_refl).
        cbn [negb andb]. step_done Hl Hlater.
      * destruct (optionalShould cs) eqn:Ho; injection H as <- <-;
          cbn [driver qualifies expect lookahead];
          rewrite Hl, Hn, Hs, ?(scoreAt_absent _ _ Hs), ?Ho;
          cbn [negb andb orb]; step_done Hl Hlater.
  - (* the should child drives *)
    destruct (ahead cs) as [|x l] eqn:Ha; [discriminate|]. cbv zeta.
    rewrite !atCandidate_align by assumption.
    pose proof (Ts cs eq_refl) as Hst.
    assert (Hl : ahead (stepPast cs) = l)
      by (rewrite (ahead_stepPast_started _ Hst), Ha; reflexivity).
    assert (Hsl : ascending l = true) by (eapply ascending_tail; eauto).
    assert (Hlater : forall z, In z l ->
              (index.Compare (fst z) (fst x) <? 0)%Z = false)
      by (intros z Hz; eapply later_not_before; eauto).
    intros H. exists x, l.
    destruct (member (fst x) (lookahead cn)) eqn:Hn; injection H as <- <-;
      cbn [driver qualifies expect lookahead];
      rewrite Hl, ?Hn; cbn [negb andb]; step_done Hl Hlater.
Qed.

Lemma driver_nil k : mergeStep combine k = None -> driver k = [].
Proof.
  intros H. apply mergeStep_None in H. unfold driverID in H.
  destruct (driver k); [reflexivity | discriminate].
Qed.

Lemma expected_nil k : driver k = [] -> expected combine k = [].
Proof. unfold expected. now intros ->. Qed.

Lemma map_filter_ext {A B} (f g : A -> B) (p q : A -> bool) (l : list A) :
  (forall z, In z l -> q z = p z /\ g z = f z) ->
  map g (filter q l) = map f (filter p l).
Proof.
  induction l as [|y l IH]; intros H; [reflexivity|]. simpl.
  destruct (H y (or_introl eq_refl)) as [-> Hg].
  assert (IH' := IH (fun z Hz => H z (or_intror Hz))).
  destruct (p y); simpl; [now rewrite Hg, IH' | exact IH'].
Qed.

(** The loop of the merge returns the first match the streams promise and
    leaves the rest to come. *)
Lemma mergeLoop_spec fuel : forall k,
  sortedKids k -> startedKids k -> List.length (driver k) < fuel ->
  exists k',
    mergeLoop combine fuel k = Some (hd_error (expected combine k), k') /\
    sortedKids k' /\ startedKids k' /\
    expected combine k' = tl (expected combine k) /\
    List.length (driver k') <= List.length (driver k) /\
    (expected combine k <> [] -> List.length (driver k') < List.length (driver k)).
Proof.
  induction fuel as [|fuel IH]; intros k Sk Tk Hlen; [lia|].
  cbn [mergeLoop].
  destruct (mergeStep combine k) as [[r k1]|] eqn:Hstep.
  - destruct (mergeStep_spec _ _ _ Sk Tk Hstep)
      as (x & l & Hd & Hd1 & Sk1 & Tk1 & -> & Hlater).
    assert (He : expected combine k =
                 (if qualifies k x then [expect combine k x] else []) ++
                 expected combine k1).
    { unfold expected. rewrite Hd, Hd1. cbn [filter].
      rewrite (map_filter_ext _ _ _ _ _ Hlater).
      destruct (qualifies k x); reflexivity. }
    rewrite Hd in Hlen; cbn [List.length] in Hlen.
    destruct (qualifies k x) eqn:Hq.
    + exists k1. rewrite He, Hd, Hd1. cbn [app hd_error tl List.length].
      repeat split; auto; lia.
    + destruct (IH k1 Sk1 Tk1) as (k' & Hl & Sk' & Tk' & He' & Hle & Hlt);
        [rewrite Hd1; lia|].
      exists k'. rewrite He, Hd. cbn [app List.length]. rewrite Hd1 in Hle, Hlt.
      repeat split; auto; lia.
  - exists k. rewrite (expected_nil _ (driver_nil _ Hstep)).
    repeat split; auto; congruence.
Qed.

End MergeSpec.

(** ** Iterating a boolean searcher over streams *)

Section Iteration.
Variable combine : list float -> float.

Local Abbreviation BS :=
  (BooleanSearcher StreamSearcher StreamSearcher StreamSearcher).

Lemma ready_position (s : BS) : ready s -> position s = kids s.
Proof. intros (Hi & _). unfold position. now rewrite Hi. Qed.

Lemma positioned_started c cur :
  positioned c cur -> forall c0, c = Some c0 -> started c0 = true.
Proof. intros H c0 ->. apply H. Qed.

Lemma consistent_started (s : BS) : consistent s -> startedKids (position s).
Proof.
  intros [Hr|Hf].
  - rewrite (ready_position _ Hr). destruct Hr as (_ & Pm & Ps & Pn & _).
    unfold kids. repeat split; eapply positioned_started; eauto.
  - destruct Hf as (Hi & _). unfold position, kids, startAll. rewrite Hi.
    repeat split; intros c0 H;
      match type of H with
      | option_map _ ?c = _ => destruct c; [|discriminate]
      end; injection H as <-; apply started_stepPast.
Qed.

Lemma reports_head res (l : list item) :
  reports res (hd_error l) ->
  match l with
  | [] => res = None
  | x :: _ => exists m, res = Some m /\ emitted [m] = [x]
  end.
Proof.
  destruct l as [|x l], res as [m|]; cbn [hd_error reports];
    try contradiction; auto.
  intros [Hi Hs]. exists m. split; [reflexivity|]. unfold emitted; simpl.
  rewrite Hi, Hs. now destruct x.
Qed.

(** One call of [Next] from a consistent state. *)
Lemma Next_spec fuel (s : BS) ctx :
  consistent s -> sortedKids (position s) ->
  List.length (driver (position s)) < fuel ->
  exists res s' ctx',
    Next combine fuel (s, ctx) = (Ok res, (s', ctx')) /\
    ready s' /\ sortedKids (kids s') /\
    reports res (hd_error (expected combine (position s))) /\
    expected combine (kids s') = tl (expected combine (position s)) /\
    List.length (driver (kids s')) <= List.length (driver (position s)) /\
    (expected combine (position s) <> [] ->
     List.length (driver (kids s')) < List.length (driver (position s))).
Proof.
  intros Hc Hs Hlen.
  destruct (mergeLoop_spec combine fuel _ Hs (consistent_started _ Hc) Hlen)
    as (k' & Hl & Sk' & _ & He & Hle & Hlt).
  destruct (@run_Next combine fuel s _ _ Hc Hl ctx) as (res & s' & ctx' & Hrun & Hr & Hk & Hrep).
  exists res, s', ctx'. rewrite Hk. auto 10.
Qed.

(** Iterating to exhaustion returns exactly the matches the streams
    promise, in order, and then the end of the stream. *)
Lemma drain_spec calls : forall fuel (s : BS) ctx,
  consistent s -> sortedKids (position s) ->
  List.length (driver (position s)) < calls ->
  List.length (driver (position s)) < fuel ->
  exists ms s' ctx',
    drain combine calls fuel (s, ctx) = (ms, Ok tt, (s', ctx')) /\
    emitted ms = expected combine (position s) /\
    ready s'.
Proof.
  induction calls as [|calls IH]; intros fuel s ctx Hc Hs Hcalls Hfuel; [lia|].
  destruct (Next_spec fuel s ctx Hc Hs Hfuel)
    as (res & s1 & ctx1 & Hrun & Hr1 & Hs1 & Hrep & He & Hle & Hlt).
  cbn [drain]. rewrite Hrun. apply reports_head in Hrep.
  destruct (expected combine (position s)) as [|x rest] eqn:Hexp.
  - subst res. exists [], s1, ctx1.
    split; [reflexivity | split; [reflexivity | exact Hr1]].
  - destruct Hrep as (m & -> & Hm).
    assert (Hlt' : List.length (driver (kids s1)) <
                   List.length (driver (position s)))
      by (apply Hlt; discriminate).
    rewrite <- (ready_position _ Hr1) in Hs1, He, Hlt', Hle.
    destruct (IH fuel s1 ctx1 (or_introl Hr1) Hs1) as
      (ms & s' & ctx' & Hd & Hem & Hr'); [lia | lia |].
    rewrite Hd. exists (m :: ms), s', ctx'. split; [reflexivity|].
    split; [|exact Hr'].
    change (emitted (m :: ms)) with (emitted [m] ++ emitted ms).
    rewrite Hm, Hem, He. reflexivity.
Qed.

(** *** Skipping ahead *)

Lemma lookahead_skipTo X c :
  lookahead (option_map (skipTo X) c) = dropWhile (before X) (lookahead c).
Proof. destruct c; reflexivity. Qed.

Lemma driver_skipAll X k :
  driver (skipAll X k) = dropWhile (before X) (driver k).
Proof. destruct k as [[[cm|] [cs|]] cn]; reflexivity. Qed.

Lemma length_dropWhile {A} (p : A -> bool) (L : list A) :
  List.length (dropWhile p L) <= List.length L.
Proof.
  induction L as [|y L IH]; simpl; [lia|]. destruct (p y); simpl; lia.
Qed.

Lemma sortedKids_skipAll X k : sortedKids k -> sortedKids (skipAll X k).
Proof.
  destruct k as [[cm cs] cn]. intros (Hm & Hs & Hn). cbn [skipAll sortedKids].
  rewrite !lookahead_skipTo. repeat split; now apply ascending_dropWhile.
Qed.

Lemma startedKids_skipAll X k : startedKids (skipAll X k).
Proof.
  destruct k as [[cm cs] cn]. cbn [skipAll startedKids].
  repeat split; intros c0 H;
    match type of H with
    | option_map _ ?c = _ => destruct c; [|discriminate]
    end; injection H as <-; reflexivity.
Qed.

(** In an ascending stream, what is left after skipping to [X] is at or
    after [X]. *)
Lemma dropWhile_not_before X (L : list item) z :
  ascending L = true -> In z (dropWhile (before X) L) -> before X z = false.
Proof.
  intros Ha Hz.
  destruct (dropWhile (before X) L) as [|y L'] eqn:E; [contradiction|].
  pose proof (dropWhile_head _ _ _ _ E) as Hy.
  assert (Ha' : ascending (y :: L') = true)
    by (rewrite <- E; now apply ascending_dropWhile).
  destruct Hz as [<-|Hz]; [exact Hy|].
  pose proof (ascending_after _ _ Ha' z Hz) as Hyz.
  unfold before in *. apply Z.ltb_ge. apply Z.ltb_ge in Hy.
  destruct (Z.ltb_spec (index.Compare (fst z) X) 0) as [Hlt|]; [|lia].
  pose proof (Compare_trans _ _ _ Hyz Hlt). lia.
Qed.

Lemma qualifies_skipAll X k z :
  before X z = false -> qualifies (skipAll X k) z = qualifies k z.
Proof.
  intros Hz. destruct k as [[cm cs] cn]. cbn [skipAll qualifies].
  rewrite !lookahead_skipTo, !member_dropWhile by exact Hz.
  destruct cm; [|reflexivity]. destruct cs; reflexivity.
Qed.

Lemma scoreAt_skipTo X j c :
  (index.Compare j X <? 0)%Z = false ->
  scoreAt j (option_map (skipTo X) c) = scoreAt j c.
Proof.
  intros Hj. destruct c as [c|]; [|reflexivity].
  cbn [option_map scoreAt skipTo set_position ahead].
  now rewrite (find_dropWhile _ _ _ Hj).
Qed.

Lemma expect_skipAll X k z :
  before X z = false -> expect combine (skipAll X k) z = expect combine k z.
Proof.
  intros Hz. destruct k as [[[cm|] [cs|]] cn]; try reflexivity.
  cbn [skipAll expect]. now rewrite (scoreAt_skipTo X (fst z) (Some cs) Hz).
Qed.

Lemma filter_dropWhile (p q : item -> bool) (L : list item) :
  (forall z, In z (dropWhile p L) -> p z = false) ->
  dropWhile p (filter q L) = filter q (dropWhile p L).
Proof.
  induction L as [|y L IH]; intros H; [reflexivity|]. simpl in *.
  destruct (p y) eqn:Hp.
  - destruct (q y); simpl; rewrite ?Hp; now apply IH.
  - apply dropWhile_stays.
    destruct (filter q (y :: L)) as [|w W] eqn:E; [reflexivity|].
    apply H. apply (filter_In q w (y :: L)). rewrite E. now left.
Qed.

Lemma dropWhile_map_fst (f : item -> item) X (L : list item) :
  (forall z, fst (f z) = fst z) ->
  dropWhile (before X) (map f L) = map f (dropWhile (before X) L).
Proof.
  intros Hf. induction L as [|y L IH]; [reflexivity|]. simpl.
  unfold before at 1 3. rewrite Hf. fold (before X y).
  destruct (before X y); [exact IH | reflexivity].
Qed.

Lemma fst_expect k z : fst (expect combine k z) = fst z.
Proof. destruct k as [[[cm|] [cs|]] cn]; reflexivity. Qed.

(** Skipping every child to [X] leaves exactly the promised matches at or
    after [X]. *)
Lemma expected_skipAll X k :
  sortedKids k ->
  expected combine (skipAll X k) = dropWhile (before X) (expected combine k).
Proof.
  intros Hk. unfold expected.
  assert (Hd : ascending (driver k) = true)
    by (destruct k as [[[cm|] [cs|]] cn]; destruct Hk as (? & ? & ?);
        auto).
  rewrite driver_skipAll.
  rewrite (dropWhile_map_fst _ X _ (fst_expect k)).
  rewrite filter_dropWhile
    by (intros z Hz; eapply dropWhile_not_before; eauto).
  apply map_filter_ext. intros z Hz.
  pose proof (dropWhile_not_before _ _ _ Hd Hz) as Hb.
  split; [now apply qualifies_skipAll | now apply expect_skipAll].
Qed.

(** One call of [Advance] from a consistent state. *)
Lemma Advance_spec fuel X (s : BS) ctx :
  consistent s -> sortedKids (position s) ->
  List.length (driver (position s)) < fuel ->
  exists res s' ctx',
    Advance combine fuel X (s, ctx) = (Ok res, (s', ctx')) /\
    ready s' /\ sortedKids (kids s') /\
    reports res
      (hd_error (dropWhile (before X) (expected combine (position s)))) /\
    expected combine (kids s') =
      tl (dropWhile (before X) (expected combine (position s))) /\
    List.length (driver (kids s')) <= List.length (driver (position s)).
Proof.
  intros Hc Hs Hlen.
  assert (Hlen' : List.length (driver (skipAll X (position s))) < fuel).
  { rewrite driver_skipAll.
    eapply Nat.le_lt_trans; [apply length_dropWhile | exact Hlen]. }
  destruct (mergeLoop_spec combine fuel _ (sortedKids_skipAll X _ Hs)
              (startedKids_skipAll X _) Hlen')
    as (k' & Hl & Sk' & _ & He & Hle & _).
  destruct (@run_Advance combine fuel X s _ _ Hc Hl ctx)
    as (res & s' & ctx' & Hrun & Hr & Hk & Hrep).
  exists res, s', ctx'. rewrite Hk. rewrite expected_skipAll in Hrep, He by exact Hs.
  repeat split; try assumption. apply Hr. apply Hr. apply Hr. apply Hr. apply Hr.
  rewrite driver_skipAll in Hle.
  eapply Nat.le_trans; [exact Hle | apply length_dropWhile].
Qed.

(** Calling [Next] until a match at or after [X] comes. *)
Lemma nextUntil_spec calls : forall fuel X (s : BS) ctx,
  consistent s -> sortedKids (position s) ->
  List.length (driver (position s)) < calls ->
  List.length (driver (position s)) < fuel ->
  exists res w',
    nextUntil combine calls fuel X (s, ctx) = (Ok res, w') /\
    reports res
      (hd_error (dropWhile (before X) (expected combine (position s)))).
Proof.
  induction calls as [|calls IH]; intros fuel X s ctx Hc Hs Hcalls Hfuel; [lia|].
  destruct (Next_spec fuel s ctx Hc Hs Hfuel)
    as (res & s1 & ctx1 & Hrun & Hr1 & Hs1 & Hrep & He & Hle & Hlt).
  cbn [nextUntil]. rewrite Hrun. pose proof Hrep as Hrep'.
  apply reports_head in Hrep.
  destruct (expected combine (position s)) as [|x rest] eqn:Hexp.
  - subst res. exists None, (s1, ctx1). split; [reflexivity | exact I].
  - destruct Hrep as (m & -> & Hm). cbn [dropWhile].
    injection Hm as Hx.
    assert (Hb : (index.Compare (search.IndexInternalID m) X <? 0)%Z =
                 before X x) by (now rewrite <- Hx).
    rewrite Hb. destruct (before X x).
    + assert (Hlt' : List.length (driver (kids s1)) <
                     List.length (driver (position s)))
        by (apply Hlt; discriminate).
      rewrite <- (ready_position _ Hr1) in Hs1, He, Hlt'.
      destruct (IH fuel X s1 ctx1 (or_introl Hr1) Hs1) as
        (res & w' & Hn & Hrep2); [lia | lia |].
      exists res, w'. split; [exact Hn|]. now rewrite He in Hrep2.
    + exists (Some m), (s1, ctx1). split; [reflexivity | exact Hrep'].
Qed.

Lemma reports_seen res x : reports res x -> seen res = x.
Proof.
  destruct res as [m|], x as [[i sc]|]; cbn [reports seen option_map fst snd];
    try contradiction; auto.
  now intros [-> ->].
Qed.

End Iteration.

(* ===================================================================== *)
(** ** What a caller of [Next] and [Advance] gets *)
(* ===================================================================== *)

Lemma member_In i (l : list item) :
  member i l = true <-> In i (map fst l).
Proof.
  unfold member. rewrite existsb_exists, in_map_iff.
  split; intros (y & H1 & H2).
  - exists y. apply Equals_eq in H2. now split.
  - exists y. split; [exact H2 | now apply Equals_eq].
Qed.

Lemma identifiers_emitted ms : identifiers ms = map fst (emitted ms).
Proof. unfold identifiers, emitted. now rewrite map_map. Qed.

Lemma ascending_cons (y : item) L :
  ascending L = true ->
  (forall z, In z L -> (index.Compare (fst y) (fst z) < 0)%Z) ->
  ascending (y :: L) = true.
Proof.
  intros Ha Hy. destruct L as [|w L]; [reflexivity|].
  unfold ascending in *. cbn [map ascendingIDs] in *.
  apply andb_true_iff. split; [|exact Ha].
  apply Z.ltb_lt. apply Hy. now left.
Qed.

Lemma ascending_filter (p : item -> bool) L :
  ascending L = true -> ascending (filter p L) = true.
Proof.
  induction L as [|y L IH]; intros Ha; [reflexivity|]. cbn [filter].
  pose proof (ascending_tail _ _ Ha) as Ht.
  destruct (p y); [|now apply IH].
  apply ascending_cons; [now apply IH|].
  intros z Hz. apply filter_In in Hz as [Hz _].
  now apply (ascending_after _ _ Ha).
Qed.

Section Guarantees.
Variable combine : list float -> float.
Local Abbreviation BS :=
  (BooleanSearcher StreamSearcher StreamSearcher StreamSearcher).

Lemma fst_expected k :
  map fst (expected combine k) = map fst (filter (qualifies k) (driver k)).
Proof.
  unfold expected. rewrite map_map. apply map_ext. apply fst_expect.
Qed.

Lemma ascending_driver k : sortedKids k -> ascending (driver k) = true.
Proof.
  destruct k as [[[cm|] [cs|]] cn]; intros (Hm & Hs & Hn); auto.
Qed.

Lemma ascending_expected k :
  sortedKids k -> ascendingIDs (map fst (expected combine k)) = true.
Proof.
  intros Hk. rewrite fst_expected.
  apply (ascending_filter (qualifies k)). now apply ascending_driver.
Qed.

(** Whether a candidate qualifies depends on its identifier only. *)
Lemma qualifies_iff k (x : item) :
  qualifies k x = true <->
  ~ In (fst x) (map fst (lookahead (snd k))) /\
  (fst (fst k) <> None -> optionalShould (snd (fst k)) = false ->
   In (fst x) (map fst (lookahead (snd (fst k))))).
Proof.
  destruct k as [[cm cs] cn]. cbn [qualifies fst snd].
  rewrite andb_true_iff, negb_true_iff, <- !member_In.
  destruct (member (fst x) (lookahead cn)); [intuition congruence|].
  destruct cm as [cm|]; [|intuition congruence].
  destruct (optionalShould cs); cbn [orb]; [intuition congruence|].
  split.
  - intros [_ H]. split; [congruence | auto].
  - intros [_ H]. split; [reflexivity|]. apply H; congruence.
Qed.

Lemma In_expected k i :
  In i (map fst (expected combine k)) <->
  In i (map fst (driver k)) /\
  ~ In i (map fst (lookahead (snd k))) /\
  (fst (fst k) <> None -> optionalShould (snd (fst k)) = false ->
   In i (map fst (lookahead (snd (fst k))))).
Proof.
  rewrite fst_expected. split.
  - intros (x & <- & Hx)%in_map_iff. apply filter_In in Hx as [Hx Hq].
    split; [now apply in_map|]. now apply qualifies_iff.
  - intros ((x & <- & Hx)%in_map_iff & Hq). apply in_map.
    apply filter_In. split; [exact Hx|]. now apply qualifies_iff.
Qed.

(** The first pull of children that have not been called changes nothing
    of what they will emit. *)
Lemma stepPast_unstarted c :
  started c = false -> stepPast c = set_position true (ahead c) c.
Proof. unfold stepPast. now intros ->. Qed.

Lemma fresh_position (s : BS) :
  fresh s ->
  driver (position s) = driver (kids s) /\
  expected combine (position s) = expected combine (kids s) /\
  (sortedKids (kids s) -> sortedKids (position s)).
Proof.
  intros (Hi & _ & _ & _ & Um & Us & Un).
  unfold position, kids in *. rewrite Hi.
  destruct (mustSearcher s) as [cm|], (shouldSearcher s) as [cs|],
    (mustNotSearcher s) as [cn|]; cbn [unstarted] in *;
    repeat match goal with H : _ /\ _ |- _ => destruct H as [H _] end;
    cbn [startAll option_map];
    rewrite ?(stepPast_unstarted cm), ?(stepPast_unstarted cs),
      ?(stepPast_unstarted cn) by assumption;
    (split; [reflexivity | split; [reflexivity | intros H; exact H]]).
Qed.

Lemma consistent_sorted (s : BS) :
  consistent s -> sortedKids (kids s) -> sortedKids (position s).
Proof.
  intros [Hr|Hf] Hs.
  - now rewrite (ready_position _ Hr).
  - now apply (fresh_position s Hf).
Qed.

Lemma consistent_expected (s : BS) :
  consistent s ->
  expected combine (position s) = expected combine (kids s) /\
  driver (position s) = driver (kids s).
Proof.
  intros [Hr|Hf].
  - now rewrite (ready_position _ Hr).
  - split; now apply (fresh_position s Hf).
Qed.

(** X1.  What [Next] returns, over leaf children.  Hypotheses: the three
    children are leaf searchers over fixed streams that follow the
    Sub-Searcher Contract ([StreamSearcher]: in particular [Advance] to a
    target gives the first match at or after it and, when the child already
    stands at or past the target, its current match again without consuming
    it - a nested boolean searcher is no such child); they never fail; their
    streams are strictly increasing ([sortedKids]); the searcher is between
    two calls, new or after calls that returned without error
    ([consistent]); [calls] and [fuel] exceed the number of entries left in
    the driving stream.  Then calling [Next] until it reports the end
    returns, without error and in this order, exactly the candidates of the
    driving stream that qualify, each with the score made of the driving
    match and of the should match when the should stream has the document. *)
Theorem Next_returns_the_qualifying_candidates :
  forall (s : BS) (ctx : SearchContext) (calls fuel : nat),
    consistent s -> sortedKids (kids s) ->
    List.length (driver (kids s)) < calls ->
    List.length (driver (kids s)) < fuel ->
    let '(ms, o, _) := drain combine calls fuel (s, ctx) in
    o = Ok tt /\
    emitted ms =
      map (expect combine (kids s)) (filter (qualifies (kids s)) (driver (kids s))).
Proof.
  intros s ctx calls fuel Hc Hs Hcalls Hfuel.
  destruct (consistent_expected s Hc) as [He Hd].
  rewrite <- Hd in Hcalls, Hfuel.
  destruct (drain_spec combine calls fuel s ctx Hc (consistent_sorted s Hc Hs)
              Hcalls Hfuel) as (ms & s' & ctx' & -> & Hm & _).
  split; [reflexivity|]. rewrite Hm, He. reflexivity.
Qed.

(** X2.  The identifiers [Next] returns are strictly increasing: no
    document is returned twice and none out of order. *)
Theorem Next_results_are_strictly_ascending :
  forall (s : BS) (ctx : SearchContext) (calls fuel : nat),
    consistent s -> sortedKids (kids s) ->
    List.length (driver (kids s)) < calls ->
    List.length (driver (kids s)) < fuel ->
    ascendingIDs (identifiers (fst (fst (drain combine calls fuel (s, ctx))))) = true.
Proof.
  intros s ctx calls fuel Hc Hs Hcalls Hfuel.
  destruct (consistent_expected s Hc) as [He Hd].
  rewrite <- Hd in Hcalls, Hfuel.
  pose proof (consistent_sorted s Hc Hs) as Hs'.
  destruct (drain_spec combine calls fuel s ctx Hc Hs' Hcalls Hfuel)
    as (ms & s' & ctx' & -> & Hm & _).
  cbn [fst]. rewrite identifiers_emitted, Hm.
  now apply ascending_expected.
Qed.

(** C1, amended.  A new boolean searcher over leaf children that have not
    been called, follow the Sub-Searcher Contract ([StreamSearcher]: a fixed
    stream; [Advance] gives the first match at or after the target and does
    not consume the current match when the child already stands at or past
    it), never fail ([unstarted]: no failure scheduled) and emit strictly
    increasing identifiers ([sortedKids]), iterated to exhaustion by [Next]
    ([calls] and [fuel] above the length of the driving stream): a document
    is returned exactly when it is in the driving stream (the must child's,
    or the should child's without a must child), is not in the must-not
    stream and, when there is a must child and the should child's [Min] is
    not 0, is in the should stream. *)
Theorem a_document_is_returned_iff_it_qualifies :
  forall (cm cs cn : option StreamSearcher) (explain : bool)
         (ctx : SearchContext) (calls fuel : nat) (i : index.IndexInternalID),
    unstarted cm -> unstarted cs -> unstarted cn ->
    sortedKids (cm, cs, cn) ->
    List.length (driver (cm, cs, cn)) < calls ->
    List.length (driver (cm, cs, cn)) < fuel ->
    In i (identifiers (fst (fst
           (drain combine calls fuel
              (NewBooleanSearcher cm cs cn explain, ctx))))) <->
    In i (map fst (driver (cm, cs, cn))) /\
    ~ In i (map fst (lookahead cn)) /\
    (cm <> None -> optionalShould cs = false ->
     In i (map fst (lookahead cs))).
Proof.
  intros cm cs cn explain ctx calls fuel i Um Us Un Hs Hcalls Hfuel.
  set (s := NewBooleanSearcher cm cs cn explain).
  assert (Hf : fresh s).
  { unfold s. destruct cm as [cm|], cs as [cs|], cn as [cn|];
      cbn in *; repeat split; tauto. }
  assert (Hk : driver (kids s) = driver (cm, cs, cn) /\
               lookahead (mustNotSearcher s) = lookahead cn /\
               lookahead (shouldSearcher s) = lookahead cs /\
               optionalShould (shouldSearcher s) = optionalShould cs /\
               (mustSearcher s <> None <-> cm <> None) /\
               sortedKids (kids s)).
  { unfold s. destruct cm as [cm|], cs as [cs|], cn as [cn|];
      cbn in *; repeat split; try tauto; congruence. }
  destruct Hk as (Hd & Hn & Hsh & Ho & Hm & Hsk).
  destruct (consistent_expected s (or_intror Hf)) as [He Hd'].
  rewrite <- Hd, <- Hd' in Hcalls, Hfuel.
  destruct (drain_spec combine calls fuel s ctx (or_intror Hf)
              (consistent_sorted s (or_intror Hf) Hsk) Hcalls Hfuel)
    as (ms & s' & ctx' & -> & Hms & _).
  cbn [fst]. rewrite identifiers_emitted, Hms, He, In_expected.
  unfold kids at 2 3 4 5. cbn [fst snd].
  rewrite Hd, Hn, Hsh, Ho. tauto.
Qed.

(** X4.  The should clause as a score bonus, over leaf children.
    Hypotheses: the children are leaf searchers over fixed streams that
    follow the Sub-Searcher Contract ([StreamSearcher], whose [Advance] does
    not consume the current match when already at or past the target), never
    fail and emit strictly increasing identifiers ([sortedKids]); the
    searcher has a must child and is between two calls, new or after calls
    that returned without error ([consistent]); [calls] and [fuel] exceed
    the length of what is left of the must stream.  Then every match
    returned by [Next] until the end carries the ranking of the must child's
    score for the document followed by the should child's score for it when
    the should stream has the document, and of the must child's score alone
    otherwise. *)
Theorem should_match_is_a_score_bonus :
  forall (s : BS) (cm : StreamSearcher) (ctx : SearchContext)
         (calls fuel : nat) (m : DocumentMatch),
    consistent s -> sortedKids (kids s) ->
    mustSearcher s = Some cm ->
    List.length (ahead cm) < calls -> List.length (ahead cm) < fuel ->
    In m (fst (fst (drain combine calls fuel (s, ctx)))) ->
    exists raw,
      In (search.IndexInternalID m, raw) (ahead cm) /\
      search.Score m =
        combine (scaled cm raw ::
                 scoreAt (search.IndexInternalID m) (shouldSearcher s)).
Proof.
  intros s cm ctx calls fuel m Hc Hs Hcm Hcalls Hfuel.
  assert (Hd : driver (kids s) = ahead cm) by (unfold kids; now rewrite Hcm).
  destruct (consistent_expected s Hc) as [He Hd'].
  rewrite <- Hd, <- Hd' in Hcalls, Hfuel.
  destruct (drain_spec combine calls fuel s ctx Hc (consistent_sorted s Hc Hs)
              Hcalls Hfuel) as (ms & s' & ctx' & -> & Hms & _).
  cbn [fst]. intros Hin.
  assert (Hin' : In (search.IndexInternalID m, search.Score m) (emitted ms))
    by (unfold emitted; apply in_map_iff; now exists m).
  rewrite Hms, He in Hin'. unfold expected in Hin'.
  apply in_map_iff in Hin' as (x & Hx & Hxin).
  apply filter_In in Hxin as [Hxin _]. rewrite Hd in Hxin.
  unfold kids in Hx. rewrite Hcm in Hx. cbn [expect] in Hx.
  injection Hx as Hi Hsc. exists (snd x). rewrite <- Hi, <- Hsc.
  split; [now destruct x | reflexivity].
Qed.

(** X5.  [Advance] agrees with repeated [Next], over leaf children.
    Hypotheses: the children are leaf searchers over fixed streams that
    follow the Sub-Searcher Contract ([StreamSearcher]: [Advance] gives the
    first match at or after the target and, when the child already stands at
    or past it, the current match again without consuming it - a nested
    boolean searcher is no such child), never fail and emit strictly
    increasing identifiers ([sortedKids]); the searcher is between two
    calls, new or after calls that returned without error ([consistent]);
    [calls] and [fuel] exceed the length of what is left of the driving
    stream.  Then [Advance] and calling [Next] until a match at or after the
    target comes both return without error, and both return the end of the
    stream or a match with the same identifier and the same score, the first
    qualifying candidate at or after the target. *)
Theorem Advance_agrees_with_repeated_Next :
  forall (s : BS) (ctx : SearchContext) (calls fuel : nat)
         (X : index.IndexInternalID),
    consistent s -> sortedKids (kids s) ->
    List.length (driver (kids s)) < calls ->
    List.length (driver (kids s)) < fuel ->
    exists a b,
      fst (Advance combine fuel X (s, ctx)) = Ok a /\
      fst (nextUntil combine calls fuel X (s, ctx)) = Ok b /\
      seen a = seen b /\
      seen a = hd_error (dropWhile (before X) (expected combine (kids s))).
Proof.
  intros s ctx calls fuel X Hc Hs Hcalls Hfuel.
  destruct (consistent_expected s Hc) as [He Hd].
  rewrite <- Hd in Hcalls, Hfuel. rewrite <- He.
  pose proof (consistent_sorted s Hc Hs) as Hs'.
  destruct (Advance_spec combine fuel X s ctx Hc Hs' Hfuel)
    as (a & s1 & ctx1 & Ha & _ & _ & Hra & _).
  destruct (nextUntil_spec combine calls fuel X s ctx Hc Hs' Hcalls Hfuel)
    as (b & w' & Hb & Hrb).
  exists a, b. rewrite Ha, Hb. cbn [fst].
  apply reports_seen in Hra, Hrb.
  repeat split; congruence.
Qed.

(** X6.  Skipping loses nothing, over leaf children.  Hypotheses: the
    children are leaf searchers over fixed streams that follow the
    Sub-Searcher Contract ([StreamSearcher], whose [Advance] does not
    consume the current match when already at or past the target), never
    fail and emit strictly increasing identifiers ([sortedKids]); the
    searcher is between two calls, new or after calls that returned without
    error ([consistent]); [calls] and [fuel] exceed the length of what is
    left of the driving stream.  Then [Advance] returns without error, and
    [Advance] followed by [Next] until the end returns, in order and with
    the same scores, exactly the matches a run of [Next] alone would have
    returned at or after the target. *)
Theorem Advance_then_Next_returns_the_rest :
  forall (s : BS) (ctx : SearchContext) (calls fuel : nat)
         (X : index.IndexInternalID),
    consistent s -> sortedKids (kids s) ->
    List.length (driver (kids s)) < calls ->
    List.length (driver (kids s)) < fuel ->
    let '(r, w1) := Advance combine fuel X (s, ctx) in
    let '(ms, o, _) := drain combine calls fuel w1 in
    let '(all, _, _) := drain combine calls fuel (s, ctx) in
    exists a,
      r = Ok a /\ o = Ok tt /\
      emitted (andThen a ms) = dropWhile (before X) (emitted all).
Proof.
  intros s ctx calls fuel X Hc Hs Hcalls Hfuel.
  destruct (consistent_expected s Hc) as [He Hd].
  rewrite <- Hd in Hcalls, Hfuel.
  pose proof (consistent_sorted s Hc Hs) as Hs'.
  destruct (Advance_spec combine fuel X s ctx Hc Hs' Hfuel)
    as (a & s1 & ctx1 & -> & Hr1 & Hs1 & Hra & He1 & Hle).
  rewrite <- (ready_position _ Hr1) in Hs1, He1, Hle.
  destruct (drain_spec combine calls fuel s1 ctx1 (or_introl Hr1) Hs1)
    as (ms & s2 & ctx2 & -> & Hms & _); [lia | lia |].
  destruct (drain_spec combine calls fuel s ctx Hc Hs' Hcalls Hfuel)
    as (all & s3 & ctx3 & -> & Hall & _).
  exists a. split; [reflexivity|]. split; [reflexivity|].
  rewrite Hall. rewrite <- Hms in He1.
  destruct (dropWhile (before X) (expected combine (position s)))
    as [|x rest]; destruct a as [m|]; cbn [hd_error reports] in Hra;
    try contradiction; cbn [andThen tl] in *; [exact He1|].
  cbn [emitted map]. fold (emitted ms). rewrite He1. f_equal.
  destruct x; cbn [fst snd] in Hra. destruct Hra as [-> ->]. reflexivity.
Qed.

End Guarantees.

Lemma Next_returns_the_qualifying_candidates_witness :
  let '(ms, o, _) := drain sumScores 5 5 (threeClauses, NewSearchContext) in
  o = Ok tt /\
  emitted ms =
    map (expect sumScores (kids threeClauses))
      (filter (qualifies (kids threeClauses)) (driver (kids threeClauses))).
Proof.
  apply (Next_returns_the_qualifying_candidates sumScores threeClauses
           NewSearchContext 5 5).
  - right. vm_compute. repeat split.
  - vm_compute. repeat split.
  - vm_compute. lia.
  - vm_compute. lia.
Defined.

Lemma Next_results_are_strictly_ascending_witness :
  ascendingIDs (identifiers (fst (fst
    (drain sumScores 5 5 (threeClauses, NewSearchContext))))) = true.
Proof.
  apply (Next_results_are_strictly_ascending sumScores threeClauses
           NewSearchContext 5 5).
  - right. vm_compute. repeat split.
  - vm_compute. repeat split.
  - vm_compute. lia.
  - vm_compute. lia.
Defined.

Lemma a_document_is_returned_iff_it_qualifies_witness :
  In (docID "003")
     (identifiers (fst (fst
        (drain sumScores 5 5 (threeClauses, NewSearchContext))))) <->
  In (docID "003")
     (map fst (driver (Some threeMust, Some threeShould, Some threeMustNot))) /\
  ~ In (docID "003") (map fst (lookahead (Some threeMustNot))) /\
  (Some threeMust <> None -> optionalShould (Some threeShould) = false ->
   In (docID "003") (map fst (lookahead (Some threeShould)))).
Proof.
  apply (a_document_is_returned_iff_it_qualifies sumScores
           (Some threeMust) (Some threeShould) (Some threeMustNot) false
           NewSearchContext 5 5 (docID "003")).
  - vm_compute. repeat split.
  - vm_compute. repeat split.
  - vm_compute. repeat split.
  - vm_compute. repeat split.
  - vm_compute. lia.
  - vm_compute. lia.
Defined.

Lemma should_match_is_a_score_bonus_witness :
  exists raw,
    In (search.IndexInternalID threeFirst, raw)
       (ahead (search.SetQueryNorm threeMust (queryNorm threeClauses))) /\
    search.Score threeFirst =
      sumScores
        (scaled (search.SetQueryNorm threeMust (queryNorm threeClauses)) raw ::
         scoreAt (search.IndexInternalID threeFirst)
           (shouldSearcher threeClauses)).
Proof.
  apply (should_match_is_a_score_bonus sumScores threeClauses
           (search.SetQueryNorm threeMust (queryNorm threeClauses))
           NewSearchContext 5 5 threeFirst).
  - right. vm_compute. repeat split.
  - vm_compute. repeat split.
  - vm_compute. reflexivity.
  - vm_compute. lia.
  - vm_compute. lia.
  - vm_compute. left. reflexivity.
Defined.

Lemma Advance_agrees_with_repeated_Next_witness :
  exists a b,
    fst (Advance sumScores 5 (docID "002") (threeClauses, NewSearchContext)) =
      Ok a /\
    fst (nextUntil sumScores 5 5 (docID "002")
           (threeClauses, NewSearchContext)) = Ok b /\
    seen a = seen b /\
    seen a =
      hd_error (dropWhile (before (docID "002"))
                  (expected sumScores (kids threeClauses))).
Proof.
  apply (Advance_agrees_with_repeated_Next sumScores threeClauses
           NewSearchContext 5 5 (docID "002")).
  - right. vm_compute. repeat split.
  - vm_compute. repeat split.
  - vm_compute. lia.
  - vm_compute. lia.
Defined.

Lemma Advance_then_Next_returns_the_rest_witness :
  let '(r, w1) :=
    Advance sumScores 5 (docID "002") (threeClauses, NewSearchContext) in
  let '(ms, o, _) := drain sumScores 5 5 w1 in
  let '(all, _, _) := drain sumScores 5 5 (threeClauses, NewSearchContext) in
  exists a,
    r = Ok a /\ o = Ok tt /\
    emitted (andThen a ms) = dropWhile (before (docID "002")) (emitted all).
Proof.
  apply (Advance_then_Next_returns_the_rest sumScores threeClauses
           NewSearchContext 5 5 (docID "002")).
  - right. vm_compute. repeat split.
  - vm_compute. repeat split.
  - vm_compute. lia.
  - vm_compute. lia.
Defined.

(* ===================================================================== *)
(** ** The pool: every match is in one place *)
(* ===================================================================== *)

Lemma count_absent_not_released p (l : list DocumentMatch) :
  count_occ Nat.eq_dec (map search.ptr l) p = 0 ->
  existsb (fun m => Nat.eqb (search.ptr m) p) l = false.
Proof.
  induction l as [|m l IH]; [reflexivity|]. cbn [map count_occ existsb].
  destruct (Nat.eq_dec (search.ptr m) p) as [E|E]; [discriminate|].
  intros H. apply Nat.eqb_neq in E. rewrite E. now apply IH.
Qed.

Lemma stale_Put d ctx : search.stale (search.Put d ctx) = search.stale ctx.
Proof. now destruct d. Qed.

Lemma touch_live m ctx :
  search.released (search.ptr m) ctx = false -> search.touch m ctx = ctx.
Proof. unfold search.touch. now intros ->. Qed.

Section Pool.
Context {TM TS TN : Type}.
Context {searcherM : search.Searcher TM}.
Context {searcherS : search.Searcher TS}.
Context {searcherN : search.Searcher TN}.
Variable combine : list float -> float.

Local Abbreviation BS := (BooleanSearcher TM TS TN).
Local Abbreviation World := (BooleanSearcher TM TS TN * SearchContext)%type.

Lemma yields_ret {A} (a : A) (w : World) (Q : A -> World -> Prop) :
  Q a w -> yields (ret a) w Q.
Proof. exact (fun H => H). Qed.

Lemma yields_bind {A B} (c : Comp World A) (k : A -> Comp World B) w
    (Q : A -> World -> Prop) (R : B -> World -> Prop) :
  yields c w Q -> (forall a w', Q a w' -> yields (k a) w' R) ->
  yields (bind c k) w R.
Proof.
  unfold yields, bind. destruct (c w) as [[a|e|f] w']; auto.
  intros H K. exact (K a w' H).
Qed.

Lemma yields_get {A} (k : World -> Comp World A) w (R : A -> World -> Prop) :
  yields (k w) w R -> yields (bind get k) w R.
Proof. exact (fun H => H). Qed.

Lemma yields_weaken {A} (c : Comp World A) w (Q R : A -> World -> Prop) :
  yields c w Q -> (forall a w', Q a w' -> R a w') -> yields c w R.
Proof.
  unfold yields. destruct (c w) as [[a|e|f] w']; auto.
Qed.

(** A run that is known. *)
Lemma yields_run {A} (c : Comp World A) w a w' (Q : A -> World -> Prop) :
  c w = (Ok a, w') -> Q a w' -> yields c w Q.
Proof. unfold yields. now intros ->. Qed.

(** *** Reading a match that is held *)

Lemma held_live out (s : BS) ctx p :
  accounted out (s, ctx) -> In p (held s) -> search.released p ctx = false.
Proof.
  intros [H _] Hp. specialize (H p). unfold places in H. cbn [fst snd] in H.
  rewrite !count_occ_app in H.
  apply (count_occ_In Nat.eq_dec) in Hp.
  apply count_absent_not_released.
  destruct (p <? search.acquired ctx); lia.
Qed.

Lemma readID_live (s : BS) ctx m :
  search.released (search.ptr m) ctx = false ->
  readID m (s, ctx) = (Ok (search.IndexInternalID m), (s, ctx)).
Proof.
  intros H. unfold readID, bind, withCtx, ret. cbn [fst snd].
  now rewrite (touch_live _ _ H).
Qed.

Lemma isBefore_live (s : BS) ctx d cid :
  (forall m, d = Some m -> search.released (search.ptr m) ctx = false) ->
  exists b, isBefore d cid (s, ctx) = (Ok b, (s, ctx)).
Proof.
  intros H. destruct d as [m|]; [|now exists false].
  unfold isBefore, bind. rewrite (readID_live s ctx m (H m eq_refl)).
  eexists. reflexivity.
Qed.

Lemma isAt_live (s : BS) ctx d cid :
  (forall m, d = Some m -> search.released (search.ptr m) ctx = false) ->
  exists b, isAt d cid (s, ctx) = (Ok b, (s, ctx)).
Proof.
  intros H. destruct d as [m|]; [|now exists false].
  unfold isAt, bind. rewrite (readID_live s ctx m (H m eq_refl)).
  eexists. reflexivity.
Qed.

Lemma touchAll_live (s : BS) ctx ms :
  (forall m, In m ms -> search.released (search.ptr m) ctx = false) ->
  touchAll ms (s, ctx) = (Ok tt, (s, ctx)).
Proof.
  induction ms as [|m ms IH]; intros H; [reflexivity|].
  cbn [touchAll]. unfold bind, withCtx. cbn [fst snd].
  rewrite (touch_live _ _ (H m (or_introl eq_refl))).
  apply IH. intros m' Hm'. apply H. now right.
Qed.

Lemma constituents_In cons ms m :
  constituents cons = Some ms -> In m ms -> In (Some m) cons.
Proof.
  revert ms. induction cons as [|[m0|] cons IH]; intros ms; cbn [constituents].
  - intros [= <-] [].
  - destruct (constituents cons) as [ms'|]; [|discriminate].
    intros [= <-] [->|H]; [now left | right; eauto].
  - discriminate.
Qed.

(** The scorer reads its constituents and gives back the first one. *)
Lemma yields_Score sc cons (s : BS) ctx :
  (forall m, In (Some m) cons -> search.released (search.ptr m) ctx = false) ->
  yields (Score combine sc cons) (s, ctx)
    (fun rv w' =>
       w' = (s, ctx) /\
       exists m0, hd_error cons = Some (Some m0) /\
                  search.ptr rv = search.ptr m0).
Proof.
  intros H. unfold yields, Score.
  destruct (constituents cons) as [[|m0 rest]|] eqn:E; try exact I.
  unfold bind. rewrite touchAll_live
    by (intros m Hm; apply H; eapply constituents_In; eauto).
  cbn [ret]. split; [reflexivity|]. exists m0. split; [|reflexivity].
  destruct cons as [|[m|] cons]; cbn [constituents] in E; try discriminate.
  destruct (constituents cons); [|discriminate]. now injection E as -> _.
Qed.

(** *** Moving a match from one place to another *)

Ltac tally_open H :=
  let Hst := fresh "Hst" in
  let p := fresh "p" in
  destruct H as [H Hst]; split;
    [|first [exact Hst
            |cbn [fst snd search.stale] in *; rewrite ?stale_Put; exact Hst]];
  intros p; specialize (H p); unfold places, held in *;
  cbn [fst snd mustSearcher shouldSearcher mustNotSearcher currMust
       currShould currMustNot currentID matches initialized
       set_mustSearcher set_shouldSearcher set_mustNotSearcher
       set_currMust set_currShould set_currMustNot set_currentID
       set_matches set_initialized
       search.Put search.avail search.acquired search.stale] in *;
  rewrite ?count_occ_app in *.

Ltac tally_close :=
  cbn [optPtr count_occ map search.Put search.avail search.acquired
       search.stale] in *;
  repeat match goal with
         | H : context [Nat.eq_dec ?a ?b] |- _ => destruct (Nat.eq_dec a b)
         | |- context [Nat.eq_dec ?a ?b] => destruct (Nat.eq_dec a b)
         end;
  repeat match goal with
         | H : context [?a <? ?b] |- _ => destruct (Nat.ltb_spec a b)
         | |- context [?a <? ?b] => destruct (Nat.ltb_spec a b)
         end;
  try lia.

(** The match in a slot is put back: lines 76, 86, 96, 121, 129, 183, 210,
    293, 302, 311. *)
Lemma put_slot_must out (s : BS) ctx :
  accounted out (s, ctx) ->
  accounted out (set_currMust None s, search.Put (currMust s) ctx).
Proof. intros H. tally_open H. destruct (currMust s) as [m|]; tally_close. Qed.

Lemma put_slot_should out (s : BS) ctx :
  accounted out (s, ctx) ->
  accounted out (set_currShould None s, search.Put (currShould s) ctx).
Proof. intros H. tally_open H. destruct (currShould s) as [m|]; tally_close. Qed.

Lemma put_slot_mustNot out (s : BS) ctx :
  accounted out (s, ctx) ->
  accounted out (set_currMustNot None s, search.Put (currMustNot s) ctx).
Proof. intros H. tally_open H. destruct (currMustNot s) as [m|]; tally_close. Qed.

(** The match in a slot goes to the caller. *)
Lemma give_slot_must out (s : BS) ctx m rv :
  accounted out (s, ctx) -> currMust s = Some m ->
  search.ptr rv = search.ptr m ->
  accounted (rv :: out) (set_currMust None s, ctx).
Proof. intros H E Hp. tally_open H. rewrite E in H. tally_close. Qed.

Lemma give_slot_should out (s : BS) ctx m rv :
  accounted out (s, ctx) -> currShould s = Some m ->
  search.ptr rv = search.ptr m ->
  accounted (rv :: out) (set_currShould None s, ctx).
Proof. intros H E Hp. tally_open H. rewrite E in H. tally_close. Qed.

(** An empty slot takes what the child gives. *)
Lemma fill_slot_must out (s : BS) ctx m err (c c' : TM) ctx' :
  accounted out (set_currMust None s, ctx) ->
  drawsOne ctx (Reply m err, c', ctx') ->
  accounted out (set_currMust m (set_mustSearcher (Some c') s), ctx').
Proof.
  intros H D. cbn [drawsOne] in D.
  destruct m as [m|]; [destruct D as [Hp ->] | subst ctx'];
    tally_open H; tally_close.
Qed.

Lemma fill_slot_should out (s : BS) ctx m err (c c' : TS) ctx' :
  accounted out (set_currShould None s, ctx) ->
  drawsOne ctx (Reply m err, c', ctx') ->
  accounted out (set_currShould m (set_shouldSearcher (Some c') s), ctx').
Proof.
  intros H D. cbn [drawsOne] in D.
  destruct m as [m|]; [destruct D as [Hp ->] | subst ctx'];
    tally_open H; tally_close.
Qed.

Lemma fill_slot_mustNot out (s : BS) ctx m err (c c' : TN) ctx' :
  accounted out (set_currMustNot None s, ctx) ->
  drawsOne ctx (Reply m err, c', ctx') ->
  accounted out (set_currMustNot m (set_mustNotSearcher (Some c') s), ctx').
Proof.
  intros H D. cbn [drawsOne] in D.
  destruct m as [m|]; [destruct D as [Hp ->] | subst ctx'];
    tally_open H; tally_close.
Qed.

(** *** The calls of the children *)

Hypothesis frugalM : frugal TM.
Hypothesis frugalS : frugal TS.
Hypothesis frugalN : frugal TN.

Lemma yields_step {A B} (c : Comp World A) (k : A -> Comp World B) w a w'
    (R : B -> World -> Prop) :
  c w = (Ok a, w') -> yields (k a) w' R -> yields (bind c k) w R.
Proof. intros E. unfold yields, bind. now rewrite E. Qed.

Lemma yields_inv {A} (c : Comp World A) w a w' (Q : A -> World -> Prop) :
  yields c w Q -> c w = (Ok a, w') -> Q a w'.
Proof. unfold yields. intros H E. now rewrite E in H. Qed.

Lemma accounted_frame out (s s' : BS) ctx :
  currMust s' = currMust s -> currShould s' = currShould s ->
  currMustNot s' = currMustNot s ->
  accounted out (s, ctx) -> accounted out (s', ctx).
Proof.
  unfold accounted, places, held. cbn [fst snd]. now intros -> -> ->.
Qed.

Lemma recycle_run d (s : BS) ctx :
  (if notNil d then poolPut d else ret tt) (s, ctx) =
  (Ok tt, (s, search.Put d ctx)).
Proof. now destruct d. Qed.

Lemma recycle_unless_nil d (s : BS) ctx :
  (if negb (search.same d None) then poolPut d else ret tt) (s, ctx) =
  (Ok tt, (s, search.Put d ctx)).
Proof. now destruct d. Qed.

Lemma recycle_unless_same m rv (s : BS) ctx :
  search.ptr rv = search.ptr m ->
  (if negb (search.same (Some m) (Some rv)) then poolPut (Some m) else ret tt)
    (s, ctx) = (Ok tt, (s, ctx)).
Proof. intros H. cbn [search.same]. now rewrite H, Nat.eqb_refl. Qed.

Lemma Next_draws {T} `{search.Searcher T} :
  frugal T -> forall (c : T) ctx, drawsOne ctx (search.Next c ctx).
Proof. intros F c ctx. apply F. Qed.

Lemma advanceTo_draws {T} `{search.Searcher T} ID :
  frugal T -> forall (c : T) ctx, drawsOne ctx (advanceTo ID c ctx).
Proof. intros F c ctx. apply F. Qed.

Lemma yields_pullMust op out (s : BS) ctx :
  (forall c ctx, drawsOne ctx (op c ctx)) ->
  accounted out (set_currMust None s, ctx) ->
  yields (pullMust op) (s, ctx)
    (fun _ w' =>
       accounted out w' /\
       exists m c', fst w' = set_currMust m (set_mustSearcher (Some c') s)).
Proof.
  intros Hop H. unfold yields, pullMust. cbn [fst snd].
  destruct (mustSearcher s) as [c|]; [|exact I].
  specialize (Hop c ctx).
  destruct (op c ctx) as [[[m err|f] c'] ctx']; [|exact I].
  destruct err; [exact I|]. split; [|now exists m, c'].
  eapply fill_slot_must; eauto.
Qed.

Lemma yields_pullShould op out (s : BS) ctx :
  (forall c ctx, drawsOne ctx (op c ctx)) ->
  accounted out (set_currShould None s, ctx) ->
  yields (pullShould op) (s, ctx)
    (fun _ w' =>
       accounted out w' /\
       exists m c', fst w' = set_currShould m (set_shouldSearcher (Some c') s)).
Proof.
  intros Hop H. unfold yields, pullShould. cbn [fst snd].
  destruct (shouldSearcher s) as [c|]; [|exact I].
  specialize (Hop c ctx).
  destruct (op c ctx) as [[[m err|f] c'] ctx']; [|exact I].
  destruct err; [exact I|]. split; [|now exists m, c'].
  eapply fill_slot_should; eauto.
Qed.

Lemma yields_pullMustNot op out (s : BS) ctx :
  (forall c ctx, drawsOne ctx (op c ctx)) ->
  accounted out (set_currMustNot None s, ctx) ->
  yields (pullMustNot op) (s, ctx)
    (fun _ w' =>
       accounted out w' /\
       exists m c',
         fst w' = set_currMustNot m (set_mustNotSearcher (Some c') s)).
Proof.
  intros Hop H. unfold yields, pullMustNot. cbn [fst snd].
  destruct (mustNotSearcher s) as [c|]; [|exact I].
  specialize (Hop c ctx).
  destruct (op c ctx) as [[[m err|f] c'] ctx']; [|exact I].
  destruct err; [exact I|]. split; [|now exists m, c'].
  eapply fill_slot_mustNot; eauto.
Qed.

(** Put the slot's match back, then call the child: the pattern of lines
    75-78, 85-88, 95-98, 292-295, 301-304, 310-313. *)
Lemma yields_refill_must op out (s : BS) ctx :
  (forall c ctx, drawsOne ctx (op c ctx)) ->
  accounted out (s, ctx) -> tidy s ->
  yields
    (if notNil (mustSearcher s) then
       (if notNil (currMust s) then poolPut (currMust s) else ret tt) ;;;
       pullMust op
     else ret tt) (s, ctx)
    (fun _ w' => accounted out w' /\ tidy (fst w')).
Proof.
  intros Hop H Ht. destruct (mustSearcher s) as [c|] eqn:Em; cbn [notNil].
  - eapply yields_step; [apply recycle_run|]; cbv beta.
    eapply yields_weaken;
      [apply (yields_pullMust _ out); [exact Hop | now apply put_slot_must]|].
    intros _ [s' ctx'] [Ha (m & c' & Hs)]. cbn [fst] in *. subst s'.
    split; [exact Ha | intros [=]].
  - apply yields_ret. now split.
Qed.

Lemma yields_refill_should op out (s : BS) ctx :
  (forall c ctx, drawsOne ctx (op c ctx)) ->
  accounted out (s, ctx) -> tidy s ->
  yields
    (if notNil (shouldSearcher s) then
       (if notNil (currShould s) then poolPut (currShould s) else ret tt) ;;;
       pullShould op
     else ret tt) (s, ctx)
    (fun _ w' => accounted out w' /\ tidy (fst w')).
Proof.
  intros Hop H Ht. destruct (shouldSearcher s) as [c|] eqn:Em; cbn [notNil].
  - eapply yields_step; [apply recycle_run|]; cbv beta.
    eapply yields_weaken;
      [apply (yields_pullShould _ out); [exact Hop | now apply put_slot_should]|].
    intros _ [s' ctx'] [Ha (m & c' & Hs)]. cbn [fst] in *. subst s'.
    split; [exact Ha | exact Ht].
  - apply yields_ret. now split.
Qed.

Lemma yields_refill_mustNot op out (s : BS) ctx :
  (forall c ctx, drawsOne ctx (op c ctx)) ->
  accounted out (s, ctx) -> tidy s ->
  yields
    (if notNil (mustNotSearcher s) then
       (if notNil (currMustNot s) then poolPut (currMustNot s) else ret tt) ;;;
       pullMustNot op
     else ret tt) (s, ctx)
    (fun _ w' => accounted out w' /\ tidy (fst w')).
Proof.
  intros Hop H Ht. destruct (mustNotSearcher s) as [c|] eqn:Em; cbn [notNil].
  - eapply yields_step; [apply recycle_run|]; cbv beta.
    eapply yields_weaken;
      [apply (yields_pullMustNot _ out); [exact Hop | now apply put_slot_mustNot]|].
    intros _ [s' ctx'] [Ha (m & c' & Hs)]. cbn [fst] in *. subst s'.
    split; [exact Ha | exact Ht].
  - apply yields_ret. now split.
Qed.

(** *** The candidate *)

Lemma held_must (s : BS) m : currMust s = Some m -> In (search.ptr m) (held s).
Proof. unfold held. intros ->. now left. Qed.

Lemma held_should (s : BS) m :
  currShould s = Some m -> In (search.ptr m) (held s).
Proof.
  unfold held. intros ->. apply in_or_app. right. now left.
Qed.

Lemma held_mustNot (s : BS) m :
  currMustNot s = Some m -> In (search.ptr m) (held s).
Proof.
  unfold held. intros ->. apply in_or_app. right.
  apply in_or_app. right. now left.
Qed.

Lemma yields_setCurrentID out (s : BS) ctx :
  accounted out (s, ctx) -> tidy s ->
  yields setCurrentID (s, ctx)
    (fun _ w' => accounted out w' /\ driven (fst w')).
Proof.
  intros H Ht. unfold setCurrentID. apply yields_get. cbn [fst].
  assert (Hset : forall i, accounted out (set_currentID i s, ctx))
    by (intros i; now apply (accounted_frame out s)).
  destruct (mustSearcher s) as [c|] eqn:Em.
  - destruct (currMust s) as [m|] eqn:Ec.
    + eapply yields_step;
        [apply readID_live, (held_live out s), held_must; eassumption|]; cbv beta.
      unfold yields, modify. cbn [fst snd]. split; [apply Hset|].
      split; cbn [set_currentID mustSearcher currMust currentID];
        rewrite ?Em, ?Ec; congruence.
    + unfold yields, modify. cbn [fst snd]. split; [apply Hset|].
      split; cbn [set_currentID mustSearcher currMust currentID];
        rewrite ?Em, ?Ec; congruence.
  - assert (Ec : currMust s = None) by now apply Ht.
    destruct (currShould s) as [m|] eqn:Es.
    + eapply yields_step;
        [apply readID_live, (held_live out s), held_should; eassumption|]; cbv beta.
      unfold yields, modify. cbn [fst snd]. split; [apply Hset|].
      split; cbn [set_currentID mustSearcher currMust currentID];
        rewrite ?Em, ?Ec; congruence.
    + unfold yields, modify. cbn [fst snd]. split; [apply Hset|].
      split; cbn [set_currentID mustSearcher currMust currentID];
        rewrite ?Em, ?Ec; congruence.
Qed.

(** [advanceNextMust(ctx, nil)]: the driving match is put back. *)
Lemma yields_advanceNextMust_nil out (s : BS) ctx :
  accounted out (s, ctx) -> tidy s ->
  yields (advanceNextMust None) (s, ctx)
    (fun _ w' => accounted out w' /\ driven (fst w')).
Proof.
  intros H Ht. unfold advanceNextMust. apply yields_get. cbn [fst].
  eapply yields_bind with
    (Q := fun _ w' => accounted out w' /\ tidy (fst w')).
  - destruct (mustSearcher s) as [c|] eqn:Em; cbn [notNil].
    + eapply yields_step; [apply recycle_unless_nil|]; cbv beta.
      eapply yields_weaken;
        [apply (yields_pullMust _ out);
         [apply Next_draws, frugalM | now apply put_slot_must]|].
      intros _ [s' ctx'] [Ha (m & c' & Hs)]. cbn [fst] in *. subst s'.
      split; [exact Ha | intros [=]].
    + eapply yields_step; [apply recycle_unless_nil|]; cbv beta.
      eapply yields_weaken;
        [apply (yields_pullShould _ out);
         [apply Next_draws, frugalS | now apply put_slot_should]|].
      intros _ [s' ctx'] [Ha (m & c' & Hs)]. cbn [fst] in *. subst s'.
      split; [exact Ha|]. unfold tidy in *. exact Ht.
  - intros _ [s' ctx'] [Ha Ht']. now apply yields_setCurrentID.
Qed.

(** [advanceNextMust(ctx, rv)]: the driving match, which is [rv], is left
    to the caller. *)
Lemma yields_advanceNextMust_rv out (s : BS) ctx m rv :
  accounted out (s, ctx) -> tidy s ->
  drivingSlot s = Some m -> search.ptr rv = search.ptr m ->
  yields (advanceNextMust (Some rv)) (s, ctx)
    (fun _ w' => accounted (rv :: out) w' /\ driven (fst w')).
Proof.
  intros H Ht Hd Hp. unfold advanceNextMust. apply yields_get. cbn [fst].
  unfold drivingSlot in Hd.
  eapply yields_bind with
    (Q := fun _ w' => accounted (rv :: out) w' /\ tidy (fst w')).
  - destruct (mustSearcher s) as [c|] eqn:Em; cbn [notNil] in *.
    + rewrite Hd.
      eapply yields_step; [now apply recycle_unless_same|]; cbv beta.
      eapply yields_weaken;
        [apply (yields_pullMust _ (rv :: out));
         [apply Next_draws, frugalM | eapply give_slot_must; eauto]|].
      intros _ [s' ctx'] [Ha (m' & c' & Hs)]. cbn [fst] in *. subst s'.
      split; [exact Ha | intros [=]].
    + rewrite Hd.
      eapply yields_step; [now apply recycle_unless_same|]; cbv beta.
      eapply yields_weaken;
        [apply (yields_pullShould _ (rv :: out));
         [apply Next_draws, frugalS | eapply give_slot_should; eauto]|].
      intros _ [s' ctx'] [Ha (m' & c' & Hs)]. cbn [fst] in *. subst s'.
      split; [exact Ha|]. unfold tidy in *. exact Ht.
  - intros _ [s' ctx'] [Ha Ht']. now apply yields_setCurrentID.
Qed.

(** *** One pass of the loop *)

Lemma inLoop_frame (s s' : BS) :
  (mustSearcher s' = None <-> mustSearcher s = None) ->
  currMust s' = currMust s -> inLoop s -> inLoop s'.
Proof.
  unfold inLoop, tidy. intros Hm Hc [H1 H2]. rewrite Hc.
  split; intros H; [apply H1 | apply H2]; tauto.
Qed.

Lemma yields_scoreBonus out (s : BS) ctx :
  accounted out (s, ctx) -> inLoop s ->
  yields (scoreBonus combine) (s, ctx) (settled out).
Proof.
  intros H [Ht Hl]. unfold scoreBonus. apply yields_get. cbn [fst].
  eapply yields_step; [reflexivity|]; cbv beta. cbn [fst snd].
  match goal with |- yields _ (?s2, _) _ => set (s' := s2) end.
  assert (H' : accounted out (s', ctx)) by now apply (accounted_frame out s).
  eapply yields_bind.
  - apply yields_Score. intros m Hm.
    apply (held_live out s ctx _ H).
    destruct (currMust s) as [m1|] eqn:E1; cbn [notNil] in Hm.
    + destruct Hm as [[= <-]|[Hm|[]]]; [now apply held_must|].
      now apply held_should.
    + destruct Hm as [Hm|[]]. now apply held_should.
  - intros rv w' [-> (m0 & Hhd & Hp)].
    eapply yields_bind.
    + apply (yields_advanceNextMust_rv out s' ctx m0 rv H'); [exact Ht| |exact Hp].
      unfold drivingSlot, s'.
      cbn [set_matches mustSearcher currMust currShould].
      destruct (mustSearcher s) as [c|] eqn:Em; cbn [notNil].
      * destruct (currMust s) as [m1|] eqn:E1;
          [cbn in Hhd; congruence | exfalso; apply Hl; congruence].
      * rewrite (Ht Em) in Hhd. cbn in Hhd. congruence.
    + intros _ w' [Ha Hd]. apply yields_ret. now split.
Qed.

Lemma yields_scoreMustOnly out (s : BS) ctx :
  accounted out (s, ctx) -> inLoop s ->
  yields (scoreMustOnly combine) (s, ctx) (settled out).
Proof.
  intros H [Ht Hl]. unfold scoreMustOnly. apply yields_get. cbn [fst].
  eapply yields_step; [reflexivity|]; cbv beta. cbn [fst snd].
  match goal with |- yields _ (?s2, _) _ => set (s' := s2) end.
  assert (H' : accounted out (s', ctx)) by now apply (accounted_frame out s).
  destruct (mustSearcher s) as [c|] eqn:Em.
  - eapply yields_bind.
    + apply yields_Score. intros m [Hm|[]].
      apply (held_live out s ctx _ H). now apply held_must.
    + intros rv w' [-> (m0 & Hhd & Hp)].
      eapply yields_bind.
      * apply (yields_advanceNextMust_rv out s' ctx m0 rv H');
          [exact Ht| |exact Hp].
        unfold drivingSlot, s'.
        cbn [set_matches mustSearcher currMust currShould].
        rewrite Em. cbn [notNil]. cbn in Hhd. congruence.
      * intros _ w' [Ha Hd]. apply yields_ret. now split.
  - rewrite (Ht Em). exact I.
Qed.

Lemma yields_reject out (s : BS) ctx :
  accounted out (s, ctx) -> tidy s ->
  yields reject (s, ctx) (settled out).
Proof.
  intros H Ht. unfold reject. eapply yields_bind.
  - apply (yields_advanceNextMust_nil out); assumption.
  - intros _ w' [Ha Hd]. apply yields_ret. now split.
Qed.

Lemma yields_excluded out (s : BS) ctx :
  accounted out (s, ctx) -> tidy s ->
  yields (advanceNextMust None ;;; ret Continue) (s, ctx) (settled out).
Proof. exact (yields_reject out s ctx). Qed.

Lemma shouldMin_run (s : BS) ctx :
  yields shouldMin (s, ctx) (fun _ w' => w' = (s, ctx)).
Proof.
  unfold yields, shouldMin, bind, get. cbn [fst].
  now destruct (shouldSearcher s).
Qed.

Lemma yields_shouldStage out cid (s : BS) ctx :
  accounted out (s, ctx) -> inLoop s ->
  yields (shouldStage combine cid) (s, ctx) (settled out).
Proof.
  intros H Hl. unfold shouldStage. apply yields_get. cbn [fst].
  assert (Hlive : forall m, currShould s = Some m ->
                            search.released (search.ptr m) ctx = false)
    by (intros m Hm; apply (held_live out s ctx _ H); now apply held_should).
  destruct (isBefore_live s ctx (currShould s) cid Hlive) as [b Hb].
  eapply yields_step; [exact Hb|]; cbv beta.
  destruct b.
  - eapply yields_step; [apply recycle_run|]; cbv beta.
    eapply yields_bind;
      [apply (yields_pullShould _ out);
       [apply advanceTo_draws, frugalS | now apply put_slot_should]|].
    intros _ [s1 ctx1] [Ha (m & c' & Hs)]. cbn [fst] in Hs. subst s1.
    apply yields_get. cbn [fst].
    match goal with |- yields _ (?s2, _) _ => set (s1 := s2) in * end.
    assert (Hl1 : inLoop s1) by (apply (inLoop_frame s); [reflexivity..|exact Hl]).
    assert (Hlive1 : forall m, currShould s1 = Some m ->
                               search.released (search.ptr m) ctx1 = false)
      by (intros m' Hm; apply (held_live out s1 ctx1 _ Ha);
          now apply held_should).
    destruct (isAt_live s1 ctx1 (currShould s1) cid Hlive1) as [b Hb'].
    eapply yields_step; [exact Hb'|]; cbv beta.
    destruct b; [now apply yields_scoreBonus|].
    eapply yields_bind; [apply shouldMin_run|].
    intros z w' ->. destruct (z =? 0)%Z;
      [now apply yields_scoreMustOnly | apply yields_reject; [exact Ha | apply Hl1]].
  - destruct (isAt_live s ctx (currShould s) cid Hlive) as [b Hb'].
    eapply yields_step; [exact Hb'|]; cbv beta.
    destruct b; [now apply yields_scoreBonus|].
    eapply yields_bind with (Q := fun _ w' => w' = (s, ctx)).
    + destruct (shouldSearcher s) as [c|] eqn:Es; cbn [notNil].
      * eapply yields_bind; [apply shouldMin_run|].
        intros z w' ->. reflexivity.
      * reflexivity.
    + intros o w' ->. destruct o;
        [now apply yields_scoreMustOnly | apply yields_reject; [exact H | apply Hl]].
Qed.

Lemma yields_Next_body out cid (s : BS) ctx :
  accounted out (s, ctx) -> inLoop s ->
  yields (Next_body combine cid) (s, ctx) (settled out).
Proof.
  intros H Hl. unfold Next_body. apply yields_get. cbn [fst].
  assert (Hlive : forall m, currMustNot s = Some m ->
                            search.released (search.ptr m) ctx = false)
    by (intros m Hm; apply (held_live out s ctx _ H); now apply held_mustNot).
  destruct (isBefore_live s ctx (currMustNot s) cid Hlive) as [b Hb].
  eapply yields_step; [exact Hb|]; cbv beta.
  destruct b.
  - eapply yields_step; [apply recycle_run|]; cbv beta.
    eapply yields_bind;
      [apply (yields_pullMustNot _ out);
       [apply advanceTo_draws, frugalN | now apply put_slot_mustNot]|].
    intros _ [s1 ctx1] [Ha (m & c' & Hs)]. cbn [fst] in Hs. subst s1.
    apply yields_get. cbn [fst].
    match goal with |- yields _ (?s2, _) _ => set (s1 := s2) in * end.
    assert (Hl1 : inLoop s1) by (apply (inLoop_frame s); [reflexivity..|exact Hl]).
    assert (Hlive1 : forall m, currMustNot s1 = Some m ->
                               search.released (search.ptr m) ctx1 = false)
      by (intros m' Hm; apply (held_live out s1 ctx1 _ Ha);
          now apply held_mustNot).
    destruct (isAt_live s1 ctx1 (currMustNot s1) cid Hlive1) as [b Hb'].
    eapply yields_step; [exact Hb'|]; cbv beta.
    destruct b; [apply yields_excluded; [exact Ha | apply Hl1]|].
    now apply yields_shouldStage.
  - destruct (isAt_live s ctx (currMustNot s) cid Hlive) as [b Hb'].
    eapply yields_step; [exact Hb'|]; cbv beta.
    destruct b; [apply yields_excluded; [exact H | apply Hl]|].
    now apply yields_shouldStage.
Qed.

(** *** The methods *)

Lemma driven_inLoop (s : BS) cid :
  driven s -> currentID s = Some cid -> inLoop s.
Proof.
  intros [H1 H2] Hc. split; [exact H1|]. intros Hm. apply H2; congruence.
Qed.

Lemma yields_Next_loop fuel : forall out (s : BS) ctx,
  accounted out (s, ctx) -> driven s ->
  yields (Next_loop combine fuel) (s, ctx)
    (fun r w' => accounted (andThen r out) w' /\ driven (fst w')).
Proof.
  induction fuel as [|fuel IH]; intros out s ctx H Hd; cbn [Next_loop];
    apply yields_get; cbn [fst];
    destruct (currentID s) as [cid|] eqn:Ec;
    try (apply yields_ret; now split); [exact I|].
  eapply yields_bind;
    [apply (yields_Next_body out); [exact H | eapply driven_inLoop; eauto]|].
  intros [|rv] [s' ctx'] [Ha Hd']; cbn [fst] in Hd'.
  - now apply IH.
  - apply yields_ret. now split.
Qed.

Lemma yields_initSearchers out (s : BS) ctx :
  accounted out (s, ctx) -> tidy s ->
  yields initSearchers (s, ctx)
    (fun _ w' => accounted out w' /\ driven (fst w')).
Proof.
  intros H Ht. unfold initSearchers. apply yields_get. cbn [fst].
  eapply yields_bind;
    [apply (yields_refill_must _ out);
     [apply Next_draws, frugalM | exact H | exact Ht]|].
  intros _ [s1 ctx1] [H1 Ht1]. cbn [fst] in Ht1.
  apply yields_get. cbn [fst].
  eapply yields_bind;
    [apply (yields_refill_should _ out);
     [apply Next_draws, frugalS | exact H1 | exact Ht1]|].
  intros _ [s2 ctx2] [H2 Ht2]. cbn [fst] in Ht2.
  apply yields_get. cbn [fst].
  eapply yields_bind;
    [apply (yields_refill_mustNot _ out);
     [apply Next_draws, frugalN | exact H2 | exact Ht2]|].
  intros _ [s3 ctx3] [H3 Ht3]. cbn [fst] in Ht3.
  eapply yields_bind; [now apply (yields_setCurrentID out)|].
  intros _ [s4 ctx4] [H4 Hd4]. cbn [fst] in Hd4.
  unfold yields, modify. cbn [fst snd].
  split; [now apply (accounted_frame out s4) | exact Hd4].
Qed.

Lemma yields_ensure_initialized out (s : BS) ctx :
  accounted out (s, ctx) -> driven s ->
  yields (if negb (initialized s) then initSearchers else ret tt) (s, ctx)
    (fun _ w' => accounted out w' /\ driven (fst w')).
Proof.
  intros H Hd. destruct (initialized s); cbn [negb].
  - apply yields_ret. now split.
  - apply yields_initSearchers; [exact H | exact (proj1 Hd)].
Qed.

Lemma yields_Next fuel out (s : BS) ctx :
  accounted out (s, ctx) -> driven s ->
  yields (Next combine fuel) (s, ctx)
    (fun r w' => accounted (andThen r out) w' /\ driven (fst w')).
Proof.
  intros H Hd. unfold Next. apply yields_get. cbn [fst].
  eapply yields_bind; [now apply (yields_ensure_initialized out)|].
  intros _ [s1 ctx1] [H1 Hd1]. now apply yields_Next_loop.
Qed.

Lemma yields_Advance fuel ID out (s : BS) ctx :
  accounted out (s, ctx) -> driven s ->
  yields (Advance combine fuel ID) (s, ctx)
    (fun r w' => accounted (andThen r out) w' /\ driven (fst w')).
Proof.
  intros H Hd. unfold Advance. apply yields_get. cbn [fst].
  eapply yields_bind; [now apply (yields_ensure_initialized out)|].
  intros _ [s0 ctx0] [H0 Hd0]. cbn [fst] in Hd0.
  apply yields_get. cbn [fst].
  eapply yields_bind;
    [apply (yields_refill_must _ out);
     [apply advanceTo_draws, frugalM | exact H0 | exact (proj1 Hd0)]|].
  intros _ [s1 ctx1] [H1 Ht1]. cbn [fst] in Ht1.
  apply yields_get. cbn [fst].
  eapply yields_bind;
    [apply (yields_refill_should _ out);
     [apply advanceTo_draws, frugalS | exact H1 | exact Ht1]|].
  intros _ [s2 ctx2] [H2 Ht2]. cbn [fst] in Ht2.
  apply yields_get. cbn [fst].
  eapply yields_bind;
    [apply (yields_refill_mustNot _ out);
     [apply advanceTo_draws, frugalN | exact H2 | exact Ht2]|].
  intros _ [s3 ctx3] [H3 Ht3]. cbn [fst] in Ht3.
  eapply yields_bind; [now apply (yields_setCurrentID out)|].
  intros _ [s4 ctx4] [H4 Hd4]. cbn [fst] in Hd4.
  now apply yields_Next.
Qed.

Lemma accounted_session fuel script : forall out (w : World) ms w',
  accounted out w -> driven (fst w) ->
  session combine fuel script w = Some (ms, w') ->
  accounted (ms ++ out) w' /\ driven (fst w').
Proof.
  induction script as [|c script IH]; intros out [s ctx] ms w' H Hd;
    cbn [session].
  - intros [= <- <-]. now split.
  - destruct (perform combine fuel c (s, ctx)) as [[r|e|f] w1] eqn:Ep;
      try discriminate.
    assert (H1 : accounted (andThen r out) w1 /\ driven (fst w1)).
    { destruct c as [|ID]; cbn [perform] in Ep.
      - exact (yields_inv _ _ _ _ _ (yields_Next fuel out s ctx H Hd) Ep).
      - exact (yields_inv _ _ _ _ _ (yields_Advance fuel ID out s ctx H Hd) Ep). }
    destruct H1 as [H1 Hd1].
    destruct (session combine fuel script w1) as [[ms1 w2]|] eqn:Es;
      [|discriminate].
    intros [= <- <-].
    destruct (IH _ _ _ _ H1 Hd1 Es) as [H2 Hd2]. split; [|exact Hd2].
    rewrite <- app_assoc. now destruct r.
Qed.

End Pool.

(** *** What the accounting says *)

Lemma count_occ_seq n p :
  count_occ Nat.eq_dec (seq 0 n) p = if p <? n then 1 else 0.
Proof.
  destruct (Nat.ltb_spec p n) as [Hlt|Hge].
  - apply (proj1 (NoDup_count_occ' Nat.eq_dec (seq 0 n)) (seq_NoDup n 0)).
    apply in_seq. lia.
  - apply (proj1 (count_occ_not_In Nat.eq_dec (seq 0 n) p)).
    rewrite in_seq. lia.
Qed.

Lemma tally_length (l : list nat) n :
  (forall p, count_occ Nat.eq_dec l p = if p <? n then 1 else 0) ->
  NoDup l /\ List.length l = n.
Proof.
  intros H. split.
  - apply (NoDup_count_occ Nat.eq_dec). intros p. rewrite H.
    destruct (p <? n); lia.
  - transitivity (List.length (seq 0 n)); [|apply length_seq].
    apply Permutation_length.
    apply (Permutation_count_occ Nat.eq_dec).
    intros p. now rewrite H, count_occ_seq.
Qed.

Lemma int_small z : (- 2 ^ 63 <= z < 2 ^ 63)%Z -> int z = z.
Proof. intros H. unfold int. rewrite Z.mod_small by lia. lia. Qed.

Lemma uint64_small z : (0 <= z < 2 ^ 64)%Z -> uint64 z = z.
Proof. intros H. unfold uint64. now rewrite Z.mod_small. Qed.

Lemma held_at_most_three {TM TS TN} (s : BooleanSearcher TM TS TN) :
  List.length (held s) <= 3.
Proof.
  unfold held. rewrite !length_app.
  destruct (currMust s), (currShould s), (currMustNot s); cbn; lia.
Qed.

(** The leaf over a stream takes from the pool the match it gives out. *)
Lemma StreamSearcher_frugal : frugal StreamSearcher.
Proof.
  assert (E : forall c ctx, drawsOne ctx (emit c ctx)).
  { intros c ctx. unfold emit. destruct (ahead c) as [|[i raw] l];
      cbn; auto. }
  assert (S : forall move c ctx, drawsOne ctx (serve move c ctx)).
  { intros move c ctx. unfold serve.
    destruct (faults c) as [|[e|] fs]; try apply E. reflexivity. }
  intros c ctx. split; [apply S | intros ID; apply S].
Qed.

(** X7.  The matches of the pool, over children that take from the pool
    exactly the match they give out: after any sequence of calls of [Next]
    and [Advance] on a new searcher that all return without error, every
    match acquired so far is in exactly one place - a slot of the searcher
    ([currMust], [currShould], [currMustNot]), the pool, or the hands of the
    caller.  So no match is put back twice, no match given to the caller is
    put back or kept in a slot, none is lost, and none was read after it had
    been put back. *)
Theorem every_match_is_in_exactly_one_place :
  forall {TM TS TN : Type} {searcherM : search.Searcher TM}
         {searcherS : search.Searcher TS} {searcherN : search.Searcher TN}
         (combine : list float -> float)
         (cm : option TM) (cs : option TS) (cn : option TN) (explain : bool)
         (fuel : nat) (script : list call) (ms : list DocumentMatch)
         (w' : BooleanSearcher TM TS TN * SearchContext),
    frugal TM -> frugal TS -> frugal TN ->
    session combine fuel script
      (NewBooleanSearcher cm cs cn explain, NewSearchContext) = Some (ms, w') ->
    NoDup (places ms w') /\
    List.length (places ms w') = search.acquired (snd w') /\
    search.stale (snd w') = [].
Proof.
  intros TM TS TN searcherM searcherS searcherN combine cm cs cn explain
    fuel script ms w' FM FS FN Hs.
  assert (H0 : accounted [] (NewBooleanSearcher cm cs cn explain,
                             NewSearchContext)).
  { split; [|reflexivity]. intros p.
    unfold places, held, NewBooleanSearcher.
    destruct cm, cs; reflexivity. }
  assert (Hd0 : driven (NewBooleanSearcher cm cs cn explain)).
  { unfold NewBooleanSearcher. split; destruct cm, cs; cbn; congruence. }
  destruct (accounted_session combine FM FS FN fuel script [] _ ms w' H0 Hd0 Hs)
    as [[Hc Hst] _].
  rewrite app_nil_r in Hc.
  destruct (tally_length _ _ Hc) as [Hn Hl]. now repeat split.
Qed.

(** X8.  The 3 that [DocumentMatchPoolSize] adds to the sizes of the
    children cover the searcher's own needs: the matches taken from the pool
    that are neither back in it nor in the hands of the caller are never more
    than [DocumentMatchPoolSize] says (children that report a size between 0
    and 2^60, and hold no match themselves). *)
Theorem DocumentMatchPoolSize_covers_the_slots :
  forall {TM TS TN : Type} {searcherM : search.Searcher TM}
         {searcherS : search.Searcher TS} {searcherN : search.Searcher TN}
         {sizedM : sized.Searcher TM} {sizedS : sized.Searcher TS}
         {sizedN : sized.Searcher TN}
         (combine : list float -> float)
         (cm : option TM) (cs : option TS) (cn : option TN) (explain : bool)
         (fuel : nat) (script : list call) (ms : list DocumentMatch)
         (w' : BooleanSearcher TM TS TN * SearchContext),
    frugal TM -> frugal TS -> frugal TN ->
    (forall c : TM, 0 <= sized.DocumentMatchPoolSize c < 2 ^ 60)%Z ->
    (forall c : TS, 0 <= sized.DocumentMatchPoolSize c < 2 ^ 60)%Z ->
    (forall c : TN, 0 <= sized.DocumentMatchPoolSize c < 2 ^ 60)%Z ->
    session combine fuel script
      (NewBooleanSearcher cm cs cn explain, NewSearchContext) = Some (ms, w') ->
    (Z.of_nat (search.acquired (snd w')
               - List.length (search.avail (snd w')) - List.length ms)
     <= DocumentMatchPoolSize (fst w'))%Z.
Proof.
  intros TM TS TN searcherM searcherS searcherN sizedM sizedS sizedN combine
    cm cs cn explain fuel script ms w' FM FS FN ZM ZS ZN Hs.
  assert (H0 : accounted [] (NewBooleanSearcher cm cs cn explain,
                             NewSearchContext)).
  { split; [|reflexivity]. intros p.
    unfold places, held, NewBooleanSearcher.
    destruct cm, cs; reflexivity. }
  assert (Hd0 : driven (NewBooleanSearcher cm cs cn explain)).
  { unfold NewBooleanSearcher. split; destruct cm, cs; cbn; congruence. }
  destruct (accounted_session combine FM FS FN fuel script [] _ ms w' H0 Hd0 Hs)
    as [[Hc Hst] _].
  rewrite app_nil_r in Hc.
  destruct (tally_length _ _ Hc) as [_ Hl].
  unfold places in Hl. rewrite !length_app, !length_map in Hl.
  pose proof (held_at_most_three (fst w')) as H3.
  assert (Hsize : (3 <= DocumentMatchPoolSize (fst w'))%Z).
  { unfold DocumentMatchPoolSize.
    destruct (mustSearcher (fst w')) as [c1|];
      [pose proof (ZM c1)|];
      (destruct (shouldSearcher (fst w')) as [c2|]; [pose proof (ZS c2)|]);
      (destruct (mustNotSearcher (fst w')) as [c3|]; [pose proof (ZN c3)|]);
      cbv zeta;
      repeat match goal with
             | |- context [int (?a + ?b)] =>
                 rewrite (int_small (a + b)) by lia
             end;
      lia. }
  lia.
Qed.

(** X9.  [Count] is a worst case: over children that never fail, emit in
    strictly increasing order and do not under-report what they still have
    to give, [Next] never returns more matches than [Count] says, as long as
    the sum of the children's counts fits in 64 bits. *)
Theorem Count_is_a_worst_case :
  forall (sizedC : sized.Searcher StreamSearcher)
         (combine : list float -> float)
         (s : BooleanSearcher StreamSearcher StreamSearcher StreamSearcher)
         (ctx : SearchContext) (calls fuel : nat),
    consistent s -> sortedKids (kids s) ->
    List.length (driver (kids s)) < calls ->
    List.length (driver (kids s)) < fuel ->
    (forall c, mustSearcher s = Some c \/ shouldSearcher s = Some c ->
               (Z.of_nat (List.length (ahead c)) <= @sized.Count _ sizedC c)%Z) ->
    (match mustSearcher s with Some c => @sized.Count _ sizedC c | None => 0 end +
     match shouldSearcher s with Some c => @sized.Count _ sizedC c | None => 0 end
     < 2 ^ 64)%Z ->
    (Z.of_nat (List.length (fst (fst (drain combine calls fuel (s, ctx)))))
     <= @Count _ _ _ sizedC sizedC s)%Z.
Proof.
  intros sizedC combine s ctx calls fuel Hc Hs Hcalls Hfuel Hcount Hsum.
  destruct (consistent_expected combine s Hc) as [He Hd].
  rewrite <- Hd in Hcalls, Hfuel.
  destruct (drain_spec combine calls fuel s ctx Hc
              (consistent_sorted combine s Hc Hs) Hcalls Hfuel)
    as (ms & s' & ctx' & -> & Hm & _).
  cbn [fst].
  assert (Hlen : List.length ms <= List.length (driver (kids s))).
  { rewrite <- (length_map (fun m => (search.IndexInternalID m, search.Score m))).
    fold (emitted ms). rewrite Hm, He. unfold expected.
    rewrite length_map. apply filter_length_le. }
  assert (Hbound : (Z.of_nat (List.length (driver (kids s)))
                    <= @Count _ _ _ sizedC sizedC s)%Z).
  { clear Hlen Hm He Hd Hcalls Hfuel. unfold Count, kids, driver.
    destruct (mustSearcher s) as [c1|]; destruct (shouldSearcher s) as [c2|];
      cbv zeta;
      try pose proof (Hcount c1 (or_introl eq_refl));
      try pose proof (Hcount c2 (or_intror eq_refl));
      repeat match goal with
             | |- context [uint64 (?a + ?b)] =>
                 rewrite (uint64_small (a + b)) by lia
             end;
      unfold item in *; first [lia | cbn; lia]. }
  unfold item in *. lia.
Qed.

Lemma every_match_is_in_exactly_one_place_witness :
  NoDup (places (fst threeAfter) (snd threeAfter)) /\
  List.length (places (fst threeAfter) (snd threeAfter)) =
    search.acquired (snd (snd threeAfter)) /\
  search.stale (snd (snd threeAfter)) = [].
Proof.
  apply (every_match_is_in_exactly_one_place sumScores
           (Some threeMust) (Some threeShould) (Some threeMustNot) false
           5 threeScript (fst threeAfter) (snd threeAfter)
           StreamSearcher_frugal StreamSearcher_frugal StreamSearcher_frugal).
  vm_compute. reflexivity.
Defined.

Lemma DocumentMatchPoolSize_covers_the_slots_witness :
  (Z.of_nat (search.acquired (snd (snd threeAfter))
             - List.length (search.avail (snd (snd threeAfter)))
             - List.length (fst threeAfter))
   <= DocumentMatchPoolSize (fst (snd threeAfter)))%Z.
Proof.
  apply (DocumentMatchPoolSize_covers_the_slots sumScores
           (Some threeMust) (Some threeShould) (Some threeMustNot) false
           5 threeScript (fst threeAfter) (snd threeAfter)
           StreamSearcher_frugal StreamSearcher_frugal StreamSearcher_frugal).
  - intros c. cbn. lia.
  - intros c. cbn. lia.
  - intros c. cbn. lia.
  - vm_compute. reflexivity.
Defined.

Lemma Count_is_a_worst_case_witness :
  (Z.of_nat (List.length (fst (fst
     (drain sumScores 5 5 (threeClauses, NewSearchContext)))))
   <= Count threeClauses)%Z.
Proof.
  apply (Count_is_a_worst_case StreamSearcher_sized sumScores threeClauses
           NewSearchContext 5 5).
  - right. vm_compute. repeat split.
  - vm_compute. repeat split.
  - vm_compute. lia.
  - vm_compute. lia.
  - intros c [[= <-]|[= <-]]; vm_compute; discriminate.
  - vm_compute. reflexivity.
Defined.

(* ===================================================================== *)
(** ** No nil dereference *)
(* ===================================================================== *)

Section Safety.
Context {TM TS TN : Type}.
Context {searcherM : search.Searcher TM}.
Context {searcherS : search.Searcher TS}.
Context {searcherN : search.Searcher TN}.
Variable combine : list float -> float.
Variable okM : TM -> Prop.
Variable okS : TS -> Prop.
Variable okN : TN -> Prop.
Hypothesis soundM : sound TM okM.
Hypothesis soundS : sound TS okS.
Hypothesis soundN : sound TN okN.

Local Abbreviation BS := (BooleanSearcher TM TS TN).
Local Abbreviation World := (BooleanSearcher TM TS TN * SearchContext)%type.
Local Abbreviation staffed' := (staffed okM okS okN).
Local Abbreviation wellFormed' := (wellFormed okM okS okN).

Lemma safely_runs {A} (c : Comp World A) (s : BS) (Q : A -> BS -> Prop) :
  runs c s Q -> safely c s Q.
Proof.
  intros H ctx. destruct (H ctx) as (a & s' & ctx' & E & HQ). now rewrite E.
Qed.

Lemma safely_ret {A} (a : A) (s : BS) (Q : A -> BS -> Prop) :
  Q a s -> safely (ret a : Comp World A) s Q.
Proof. intros H ctx. exact H. Qed.

Lemma safely_bind {A B} (c : Comp World A) (k : A -> Comp World B) (s : BS)
    (Q : A -> BS -> Prop) (R : B -> BS -> Prop) :
  safely c s Q -> (forall a s1, Q a s1 -> safely (k a) s1 R) ->
  safely (bind c k) s R.
Proof.
  intros Hc Hk ctx. specialize (Hc ctx). unfold bind.
  destruct (c (s, ctx)) as [[a|e|[|]] [s1 ctx1]]; auto.
  exact (Hk a s1 Hc ctx1).
Qed.

Lemma safely_get {B} (k : World -> Comp World B) (s : BS)
    (R : B -> BS -> Prop) :
  (forall ctx0, safely (k (s, ctx0)) s R) -> safely (bind get k) s R.
Proof. intros H ctx. exact (H ctx ctx). Qed.

Lemma safely_weaken {A} (c : Comp World A) (s : BS) (Q R : A -> BS -> Prop) :
  safely c s Q -> (forall a s', Q a s' -> R a s') -> safely c s R.
Proof.
  intros Hc HQ ctx. specialize (Hc ctx).
  destruct (c (s, ctx)) as [[a|e|[|]] [s1 ctx1]]; auto.
Qed.

Lemma runs_recycle (b : bool) (cur : option DocumentMatch) (s : BS) :
  runs (if b then poolPut cur else ret tt) s (fun a s' => a = tt /\ s' = s).
Proof. destruct b; [apply run_poolPut | now apply runs_ret]. Qed.

(** *** The calls of the children *)

Lemma Next_calm {T} `{search.Searcher T} (ok : T -> Prop) :
  sound T ok -> forall c ctx, ok c -> calm ok (search.Next c ctx).
Proof. intros F c ctx Hc. now apply F. Qed.

Lemma advanceTo_calm {T} `{search.Searcher T} (ok : T -> Prop) ID :
  sound T ok -> forall c ctx, ok c -> calm ok (advanceTo ID c ctx).
Proof. intros F c ctx Hc. now apply F. Qed.

Lemma safely_pullMust op (s : BS) c :
  (forall c ctx, okM c -> calm okM (op c ctx)) ->
  mustSearcher s = Some c -> okM c ->
  safely (pullMust op) s
    (fun _ s' =>
       exists m c',
         s' = set_currMust m (set_mustSearcher (Some c') s) /\ okM c').
Proof.
  intros Hop Hc Hok ctx. unfold pullMust. cbn [fst snd]. rewrite Hc.
  specialize (Hop c ctx Hok).
  destruct (op c ctx) as [[[m [e|]|[|]] c'] ctx']; cbn [calm] in Hop; auto.
  now exists m, c'.
Qed.

Lemma safely_pullShould op (s : BS) c :
  (forall c ctx, okS c -> calm okS (op c ctx)) ->
  shouldSearcher s = Some c -> okS c ->
  safely (pullShould op) s
    (fun _ s' =>
       exists m c',
         s' = set_currShould m (set_shouldSearcher (Some c') s) /\ okS c').
Proof.
  intros Hop Hc Hok ctx. unfold pullShould. cbn [fst snd]. rewrite Hc.
  specialize (Hop c ctx Hok).
  destruct (op c ctx) as [[[m [e|]|[|]] c'] ctx']; cbn [calm] in Hop; auto.
  now exists m, c'.
Qed.

Lemma safely_pullMustNot op (s : BS) c :
  (forall c ctx, okN c -> calm okN (op c ctx)) ->
  mustNotSearcher s = Some c -> okN c ->
  safely (pullMustNot op) s
    (fun _ s' =>
       exists m c',
         s' = set_currMustNot m (set_mustNotSearcher (Some c') s) /\ okN c').
Proof.
  intros Hop Hc Hok ctx. unfold pullMustNot. cbn [fst snd]. rewrite Hc.
  specialize (Hop c ctx Hok).
  destruct (op c ctx) as [[[m [e|]|[|]] c'] ctx']; cbn [calm] in Hop; auto.
  now exists m, c'.
Qed.

(** Settles the shape of a state after updates. *)
Ltac shape :=
  unfold wellFormed, staffed, backed, candidate, drivingSlot, okChild in *;
  cbn [mustSearcher shouldSearcher mustNotSearcher currMust currShould
       currMustNot currentID matches initialized
       set_mustSearcher set_shouldSearcher set_mustNotSearcher
       set_currMust set_currShould set_currMustNot set_currentID
       set_matches set_initialized notNil] in *;
  repeat match goal with
         | H : _ /\ _ |- _ => destruct H
         end;
  repeat split; try assumption; try congruence; try tauto;
  try solve [intuition congruence].

Lemma safely_refill_must op (s : BS) :
  (forall c ctx, okM c -> calm okM (op c ctx)) ->
  staffed' s -> backed s ->
  safely
    (if notNil (mustSearcher s) then
       (if notNil (currMust s) then poolPut (currMust s) else ret tt) ;;;
       pullMust op
     else ret tt) s
    (fun _ s' => staffed' s' /\ backed s').
Proof.
  intros Hop Hst Hb. destruct (mustSearcher s) as [c|] eqn:Em; cbn [notNil];
    [|apply safely_ret; now split].
  eapply safely_bind; [apply safely_runs, runs_recycle|].
  intros _ s1 [_ ->].
  eapply safely_weaken; [apply (safely_pullMust op s c Hop Em)|].
  - unfold staffed in Hst. rewrite Em in Hst. apply Hst.
  - intros _ s' (m & c' & -> & Hok). split; shape.
Qed.

Lemma safely_refill_should op (s : BS) :
  (forall c ctx, okS c -> calm okS (op c ctx)) ->
  staffed' s -> backed s ->
  safely
    (if notNil (shouldSearcher s) then
       (if notNil (currShould s) then poolPut (currShould s) else ret tt) ;;;
       pullShould op
     else ret tt) s
    (fun _ s' => staffed' s' /\ backed s').
Proof.
  intros Hop Hst Hb. destruct (shouldSearcher s) as [c|] eqn:Em; cbn [notNil];
    [|apply safely_ret; now split].
  eapply safely_bind; [apply safely_runs, runs_recycle|].
  intros _ s1 [_ ->].
  eapply safely_weaken; [apply (safely_pullShould op s c Hop Em)|].
  - unfold staffed in Hst. rewrite Em in Hst. apply Hst.
  - intros _ s' (m & c' & -> & Hok). split; shape.
Qed.

Lemma safely_refill_mustNot op (s : BS) :
  (forall c ctx, okN c -> calm okN (op c ctx)) ->
  staffed' s -> backed s ->
  safely
    (if notNil (mustNotSearcher s) then
       (if notNil (currMustNot s) then poolPut (currMustNot s) else ret tt) ;;;
       pullMustNot op
     else ret tt) s
    (fun _ s' => staffed' s' /\ backed s').
Proof.
  intros Hop Hst Hb. destruct (mustNotSearcher s) as [c|] eqn:Em;
    cbn [notNil]; [|apply safely_ret; now split].
  eapply safely_bind; [apply safely_runs, runs_recycle|].
  intros _ s1 [_ ->].
  eapply safely_weaken; [apply (safely_pullMustNot op s c Hop Em)|].
  - unfold staffed in Hst. rewrite Em in Hst. apply Hst.
  - intros _ s' (m & c' & -> & Hok). split; shape.
Qed.

(** *** The candidate *)

Lemma safely_setCurrentID (s : BS) :
  staffed' s -> backed s ->
  safely setCurrentID s (fun _ s' => wellFormed' s').
Proof.
  intros Hst Hb.
  eapply safely_weaken; [apply safely_runs, run_setCurrentID|].
  intros _ s' [_ ->]. split; [exact Hst|]. split; [exact Hb|].
  intros cid. unfold candidate, drivingSlot.
  cbn [set_currentID currentID mustSearcher currMust currShould].
  destruct (mustSearcher s); cbn [notNil];
    [destruct (currMust s) as [m|] | destruct (currShould s) as [m|]];
    cbn [option_map]; intros [= <-]; eauto.
Qed.

Lemma safely_advanceNextMust skip (s : BS) :
  staffed' s -> backed s ->
  (mustSearcher s = None -> shouldSearcher s <> None) ->
  safely (advanceNextMust skip) s (fun _ s' => wellFormed' s').
Proof.
  intros Hst Hb Hdrv. unfold advanceNextMust.
  apply safely_get; intros ctx0. cbn [fst].
  eapply safely_bind with (Q := fun _ s' => staffed' s' /\ backed s').
  - destruct (mustSearcher s) as [c|] eqn:Em; cbn [notNil].
    + eapply safely_bind; [apply safely_runs, runs_recycle|].
      intros _ s1 [_ ->].
      eapply safely_weaken;
        [apply (safely_pullMust _ s c (Next_calm okM soundM) Em)|].
      * unfold staffed in Hst. rewrite Em in Hst. apply Hst.
      * intros _ s' (m & c' & -> & Hok). split; shape.
    + destruct (shouldSearcher s) as [c|] eqn:Es; [|now elim Hdrv].
      eapply safely_bind; [apply safely_runs, runs_recycle|].
      intros _ s1 [_ ->].
      eapply safely_weaken;
        [apply (safely_pullShould _ s c (Next_calm okS soundS) Es)|].
      * unfold staffed in Hst. rewrite Es in Hst. apply Hst.
      * intros _ s' (m & c' & -> & Hok). split; shape.
  - intros _ s1 [H1 H2]. now apply safely_setCurrentID.
Qed.

(** *** One pass of the loop *)

Lemma safely_scoreBonus (s : BS) :
  staffed' s -> backed s -> currShould s <> None ->
  safely (scoreBonus combine) s (fun _ s' => wellFormed' s').
Proof.
  intros Hst Hb Hs. unfold scoreBonus.
  apply safely_get; intros ctx0. cbn [fst].
  eapply safely_bind; [apply safely_runs, run_modify|].
  intros _ s1 [_ Hs1].
  destruct (currShould s) as [m2|] eqn:Es; [|congruence].
  eapply safely_bind with (Q := fun _ s' => s' = s1).
  - subst s1. destruct (currMust s) as [m1|]; cbn [notNil].
    + eapply safely_weaken;
        [apply safely_runs, (run_Score combine _ m1 [m2])|].
      now intros rv s' [_ ->].
    + eapply safely_weaken;
        [apply safely_runs, (run_Score combine _ m2 [])|].
      now intros rv s' [_ ->].
  - intros rv s' ->.
    eapply safely_bind; [|intros ? s' H; apply safely_ret; exact H].
    subst s1. apply safely_advanceNextMust; shape.
Qed.

Lemma safely_scoreMustOnly (s : BS) :
  staffed' s -> backed s -> currMust s <> None ->
  safely (scoreMustOnly combine) s (fun _ s' => wellFormed' s').
Proof.
  intros Hst Hb Hm. unfold scoreMustOnly.
  apply safely_get; intros ctx0. cbn [fst].
  eapply safely_bind; [apply safely_runs, run_modify|].
  intros _ s1 [_ Hs1].
  destruct (currMust s) as [m1|] eqn:Ec; [|congruence].
  eapply safely_bind with (Q := fun _ s' => s' = s1).
  - subst s1.
    eapply safely_weaken;
      [apply safely_runs, (run_Score combine _ m1 [])|].
    now intros rv s' [_ ->].
  - intros rv s' ->.
    eapply safely_bind; [|intros ? s' H; apply safely_ret; exact H].
    subst s1. apply safely_advanceNextMust; shape.
Qed.

Lemma safely_reject (s : BS) :
  staffed' s -> backed s ->
  (mustSearcher s = None -> shouldSearcher s <> None) ->
  safely (advanceNextMust None ;;; ret Continue) s
    (fun _ s' => wellFormed' s').
Proof.
  intros Hst Hb Hd.
  eapply safely_bind; [now apply safely_advanceNextMust|].
  intros ? s' H. apply safely_ret. exact H.
Qed.

(** The candidate is not before itself, and is at itself. *)
Lemma candidate_should_only cid (s : BS) :
  candidate cid s -> mustSearcher s = None ->
  exists m, currShould s = Some m /\ search.IndexInternalID m = cid.
Proof.
  unfold candidate, drivingSlot. intros (m & H & Hi) Hm.
  rewrite Hm in H. cbn [notNil] in H. eauto.
Qed.

Lemma candidate_must cid (s : BS) :
  candidate cid s -> mustSearcher s <> None -> currMust s <> None.
Proof.
  unfold candidate, drivingSlot. intros (m & H & _) Hm.
  destruct (mustSearcher s); [cbn in H; congruence | congruence].
Qed.

Lemma safely_shouldStage cid (s : BS) :
  staffed' s -> backed s -> candidate cid s ->
  safely (shouldStage combine cid) s (fun _ s' => wellFormed' s').
Proof.
  intros Hst Hb Hc. unfold shouldStage.
  apply safely_get; intros ctx0. cbn [fst].
  eapply safely_bind; [apply safely_runs, run_isBefore|].
  intros b s1 [-> ->].
  assert (Hdrv : mustSearcher s = None -> shouldSearcher s <> None).
  { intros Hm. destruct (candidate_should_only cid s Hc Hm) as (m & Hs & _).
    apply Hb. congruence. }
  destruct (currShould s) as [m2|] eqn:Es.
  - destruct (index.Compare (search.IndexInternalID m2) cid <? 0)%Z eqn:Hlt.
    + (* advance should searcher to our candidate entry *)
      assert (Hm : mustSearcher s <> None).
      { intros Hm. destruct (candidate_should_only cid s Hc Hm) as (m & Hs & Hi).
        rewrite Es in Hs. injection Hs as <-. subst cid.
        rewrite Compare_refl in Hlt. discriminate. }
      pose proof (candidate_must cid s Hc Hm) as Hcm.
      destruct (shouldSearcher s) as [c|] eqn:Ess;
        [|exfalso; apply (proj1 (proj2 Hb)); congruence].
      eapply safely_bind; [apply safely_runs, runs_recycle|].
      intros _ s1 [_ ->].
      eapply safely_bind;
        [apply (safely_pullShould _ s c (advanceTo_calm okS cid soundS) Ess)|].
      * unfold staffed in Hst. rewrite Ess in Hst. apply Hst.
      * intros _ s1 (m & c' & -> & Hok).
        apply safely_get; intros ctx1. cbn [fst].
        eapply safely_bind; [apply safely_runs, run_isAt|].
        intros b s2 [-> ->].
        cbn [set_currShould currShould].
        destruct m as [m|];
          [destruct (index.Equals (search.IndexInternalID m) cid)|].
        -- apply safely_scoreBonus; shape.
        -- eapply safely_bind;
             [apply safely_runs, run_shouldMin; reflexivity|].
           intros z s2 [-> ->].
           destruct (search.Min c' =? 0)%Z;
             [apply safely_scoreMustOnly | apply safely_reject]; shape.
        -- eapply safely_bind;
             [apply safely_runs, run_shouldMin; reflexivity|].
           intros z s2 [-> ->].
           destruct (search.Min c' =? 0)%Z;
             [apply safely_scoreMustOnly | apply safely_reject]; shape.
    + eapply safely_bind; [apply safely_runs, run_isAt|].
      intros b s1 [-> ->].
      destruct (index.Equals (search.IndexInternalID m2) cid) eqn:Heq.
      * apply safely_scoreBonus; [exact Hst | exact Hb | congruence].
      * assert (Hm : mustSearcher s <> None).
        { intros Hm.
          destruct (candidate_should_only cid s Hc Hm) as (m & Hs & Hi).
          rewrite Es in Hs. injection Hs as <-. subst cid.
          assert (E : index.Equals (search.IndexInternalID m2)
                        (search.IndexInternalID m2) = true)
            by now apply Equals_eq.
          congruence. }
        pose proof (candidate_must cid s Hc Hm) as Hcm.
        eapply safely_bind with (Q := fun _ s' => s' = s).
        -- destruct (shouldSearcher s) as [c|] eqn:Ess; cbn [notNil].
           ++ eapply safely_bind;
                [apply safely_runs, run_shouldMin; exact Ess|].
              intros z s2 [_ ->]. now apply safely_ret.
           ++ now apply safely_ret.
        -- intros o s1 ->.
           destruct o; [now apply safely_scoreMustOnly | now apply safely_reject].
  - eapply safely_bind; [apply safely_runs, run_isAt|].
    intros b s1 [-> ->].
    assert (Hm : mustSearcher s <> None).
    { intros Hm. destruct (candidate_should_only cid s Hc Hm) as (m & Hs & _).
      congruence. }
    pose proof (candidate_must cid s Hc Hm) as Hcm.
    eapply safely_bind with (Q := fun _ s' => s' = s).
    + destruct (shouldSearcher s) as [c|] eqn:Ess; cbn [notNil].
      * eapply safely_bind;
          [apply safely_runs, run_shouldMin; exact Ess|].
        intros z s2 [_ ->]. now apply safely_ret.
      * now apply safely_ret.
    + intros o s1 ->.
      destruct o; [now apply safely_scoreMustOnly | now apply safely_reject].
Qed.

Lemma safely_Next_body cid (s : BS) :
  staffed' s -> backed s -> candidate cid s ->
  safely (Next_body combine cid) s (fun _ s' => wellFormed' s').
Proof.
  intros Hst Hb Hc. unfold Next_body.
  apply safely_get; intros ctx0. cbn [fst].
  eapply safely_bind; [apply safely_runs, run_isBefore|].
  intros b s1 [-> ->].
  assert (Hdrv : mustSearcher s = None -> shouldSearcher s <> None).
  { intros Hm. destruct (candidate_should_only cid s Hc Hm) as (m & Hs & _).
    apply Hb. congruence. }
  destruct (currMustNot s) as [m3|] eqn:En.
  - destruct (index.Compare (search.IndexInternalID m3) cid <? 0)%Z.
    + destruct (mustNotSearcher s) as [c|] eqn:Enn;
        [|exfalso; apply (proj2 (proj2 Hb)); congruence].
      eapply safely_bind; [apply safely_runs, runs_recycle|].
      intros _ s1 [_ ->].
      eapply safely_bind;
        [apply (safely_pullMustNot _ s c (advanceTo_calm okN cid soundN) Enn)|].
      * unfold staffed in Hst. rewrite Enn in Hst. apply Hst.
      * intros _ s1 (m & c' & -> & Hok).
        apply safely_get; intros ctx1. cbn [fst].
        eapply safely_bind; [apply safely_runs, run_isAt|].
        intros b s2 [-> ->].
        match goal with
        | |- safely (if ?b then _ else _) _ _ => destruct b
        end; [apply safely_reject | apply safely_shouldStage]; shape.
    + eapply safely_bind; [apply safely_runs, run_isAt|].
      intros b s1 [-> ->].
      destruct (index.Equals (search.IndexInternalID m3) cid);
        [now apply safely_reject | now apply safely_shouldStage].
  - eapply safely_bind; [apply safely_runs, run_isAt|].
    intros b s1 [-> ->]. now apply safely_shouldStage.
Qed.

(** *** The methods *)

Lemma safely_Next_loop fuel : forall s : BS,
  wellFormed' s ->
  safely (Next_loop combine fuel) s (fun _ s' => wellFormed' s').
Proof.
  induction fuel as [|fuel IH]; intros s Hw; cbn [Next_loop];
    apply safely_get; intros ctx0; cbn [fst];
    destruct (currentID s) as [cid|] eqn:Ec;
    try (now apply safely_ret); [intros ctx; exact I|].
  destruct Hw as (Hst & Hb & Hc).
  eapply safely_bind; [apply (safely_Next_body cid s Hst Hb (Hc cid Ec))|].
  intros [|rv] s1 Hw1; [now apply IH | now apply safely_ret].
Qed.

Lemma safely_initSearchers (s : BS) :
  staffed' s -> backed s ->
  safely initSearchers s (fun _ s' => wellFormed' s').
Proof.
  intros Hst Hb. unfold initSearchers.
  apply safely_get; intros ctx0. cbn [fst].
  eapply safely_bind;
    [apply (safely_refill_must _ s (Next_calm okM soundM) Hst Hb)|].
  intros _ s1 [Hst1 Hb1].
  apply safely_get; intros ctx1. cbn [fst].
  eapply safely_bind;
    [apply (safely_refill_should _ s1 (Next_calm okS soundS) Hst1 Hb1)|].
  intros _ s2 [Hst2 Hb2].
  apply safely_get; intros ctx2. cbn [fst].
  eapply safely_bind;
    [apply (safely_refill_mustNot _ s2 (Next_calm okN soundN) Hst2 Hb2)|].
  intros _ s3 [Hst3 Hb3].
  eapply safely_bind; [now apply safely_setCurrentID|].
  intros ? s4 Hw4.
  eapply safely_weaken; [apply safely_runs, run_modify|].
  intros _ s5 [_ ->]. exact Hw4.
Qed.

Lemma safely_ensure_initialized (s : BS) :
  wellFormed' s ->
  safely (if negb (initialized s) then initSearchers else ret tt) s
    (fun _ s' => wellFormed' s').
Proof.
  intros Hw. destruct (initialized s); cbn [negb].
  - now apply safely_ret.
  - apply safely_initSearchers; apply Hw.
Qed.

Lemma safely_Next fuel (s : BS) :
  wellFormed' s ->
  safely (Next combine fuel) s (fun _ s' => wellFormed' s').
Proof.
  intros Hw. unfold Next. apply safely_get; intros ctx0. cbn [fst].
  eapply safely_bind; [now apply safely_ensure_initialized|].
  intros ? s1 Hw1. now apply safely_Next_loop.
Qed.

Lemma safely_Advance fuel ID (s : BS) :
  wellFormed' s ->
  safely (Advance combine fuel ID) s (fun _ s' => wellFormed' s').
Proof.
  intros Hw. unfold Advance. apply safely_get; intros ctx0. cbn [fst].
  eapply safely_bind; [now apply safely_ensure_initialized|].
  intros _ s0 (Hst0 & Hb0 & _).
  apply safely_get; intros ctx1. cbn [fst].
  eapply safely_bind;
    [apply (safely_refill_must _ s0 (advanceTo_calm okM ID soundM) Hst0 Hb0)|].
  intros _ s1 [Hst1 Hb1].
  apply safely_get; intros ctx2. cbn [fst].
  eapply safely_bind;
    [apply (safely_refill_should _ s1 (advanceTo_calm okS ID soundS) Hst1 Hb1)|].
  intros _ s2 [Hst2 Hb2].
  apply safely_get; intros ctx3. cbn [fst].
  eapply safely_bind;
    [apply (safely_refill_mustNot _ s2 (advanceTo_calm okN ID soundN) Hst2 Hb2)|].
  intros _ s3 [Hst3 Hb3].
  eapply safely_bind; [now apply safely_setCurrentID|].
  intros ? s4 Hw4. now apply safely_Next.
Qed.

Lemma safely_perform fuel c (s : BS) :
  wellFormed' s ->
  safely (perform combine fuel c) s (fun _ s' => wellFormed' s').
Proof.
  destruct c as [|ID]; cbn [perform];
    [apply safely_Next | apply safely_Advance].
Qed.

Lemma play_safe fuel script : forall (s : BS) ctx,
  wellFormed' s -> play combine fuel script (s, ctx) <> Stop Panic.
Proof.
  induction script as [|c script IH]; intros s ctx Hw; cbn [play];
    [discriminate|].
  pose proof (safely_perform fuel c s Hw ctx) as H.
  destruct (perform combine fuel c (s, ctx)) as [[r|e|[|]] [s1 ctx1]];
    try discriminate; [now apply IH | contradiction].
Qed.

Lemma wellFormed_new (cm : option TM) (cs : option TS) (cn : option TN)
    explain :
  (forall c q, okM c -> okM (search.SetQueryNorm c q)) ->
  (forall c q, okS c -> okS (search.SetQueryNorm c q)) ->
  okChild okM cm -> okChild okS cs -> okChild okN cn ->
  wellFormed' (NewBooleanSearcher cm cs cn explain).
Proof.
  intros HM HS Hm Hs Hn. unfold NewBooleanSearcher, computeQueryNorm.
  destruct cm as [cm|], cs as [cs|]; cbn in *;
    repeat split; cbn; auto; try congruence; try discriminate.
Qed.

End Safety.

(** The leaf over a stream never panics. *)
Lemma StreamSearcher_sound : sound StreamSearcher (fun _ => True).
Proof.
  assert (E : forall c ctx, calm (fun _ : StreamSearcher => True) (emit c ctx)).
  { intros c ctx. unfold emit. destruct (ahead c) as [|[i raw] l]; exact I. }
  assert (S : forall move c ctx,
             calm (fun _ : StreamSearcher => True) (serve move c ctx)).
  { intros move c ctx. unfold serve.
    destruct (faults c) as [|[e|] fs]; try apply E. exact I. }
  intros c ctx _. split; [apply S | intros ID; apply S].
Qed.

(** X10.  No nil dereference: on a new boolean searcher, whatever the
    children give and whichever of them are nil, a sequence of calls of
    [Next] and [Advance] never panics - it goes on until a child returns an
    error, or a loop runs out of the bound put on it - as long as the
    children do not panic themselves. *)
Theorem Next_and_Advance_never_panic :
  forall {TM TS TN : Type} {searcherM : search.Searcher TM}
         {searcherS : search.Searcher TS} {searcherN : search.Searcher TN}
         (combine : list float -> float)
         (okM : TM -> Prop) (okS : TS -> Prop) (okN : TN -> Prop)
         (cm : option TM) (cs : option TS) (cn : option TN) (explain : bool)
         (fuel : nat) (script : list call) (ctx : SearchContext),
    sound TM okM -> sound TS okS -> sound TN okN ->
    (forall c q, okM c -> okM (search.SetQueryNorm c q)) ->
    (forall c q, okS c -> okS (search.SetQueryNorm c q)) ->
    okChild okM cm -> okChild okS cs -> okChild okN cn ->
    play combine fuel script (NewBooleanSearcher cm cs cn explain, ctx)
      <> Stop Panic.
Proof.
  intros TM TS TN searcherM searcherS searcherN combine okM okS okN
    cm cs cn explain fuel script ctx SM SS SN HM HS Hm Hs Hn.
  apply (play_safe combine okM okS okN SM SS SN).
  now apply wellFormed_new.
Qed.

(** X11.  Boolean searchers nest safely: over children that do not panic, a
    boolean searcher used as a child does not panic either and, after every
    call that returns without error, is again in a state in which it does
    not. *)
Theorem a_boolean_searcher_is_a_sound_child :
  forall {TM TS TN : Type} {searcherM : search.Searcher TM}
         {searcherS : search.Searcher TS} {searcherN : search.Searcher TN}
         (combine : list float -> float)
         (okM : TM -> Prop) (okS : TS -> Prop) (okN : TN -> Prop)
         (fuel : nat),
    sound TM okM -> sound TS okS -> sound TN okN ->
    @sound (BooleanSearcher TM TS TN) (BooleanSearcher_Searcher combine fuel)
      (wellFormed okM okS okN).
Proof.
  intros TM TS TN searcherM searcherS searcherN combine okM okS okN fuel
    SM SS SN s ctx Hw.
  split; [|intros ID];
    cbn [search.Next search.Advance BooleanSearcher_Searcher calm].
  - pose proof (safely_Next combine okM okS okN SM SS SN fuel s Hw ctx) as H.
    destruct (Next combine fuel (s, ctx)) as [[r|e|[|]] [s1 ctx1]];
      cbn [asReply calm]; auto.
  - pose proof (safely_Advance combine okM okS okN SM SS SN fuel ID s Hw ctx)
      as H.
    destruct (Advance combine fuel ID (s, ctx)) as [[r|e|[|]] [s1 ctx1]];
      cbn [asReply calm]; auto.
Qed.

(** X12.  The weight and the norm.  The norm the constructor computes is
    1 / sqrt of the searcher's own [Weight]; [SetQueryNorm] changes neither
    the [Weight] of the searcher nor its field [queryNorm], which keeps the
    value of the constructor when an enclosing searcher pushes another norm
    (children whose [Weight] does not depend on the norm). *)
Theorem queryNorm_is_the_inverse_root_of_Weight :
  forall {TM TS TN : Type} {searcherM : search.Searcher TM}
         {searcherS : search.Searcher TS}
         (cm : option TM) (cs : option TS) (cn : option TN) (explain : bool),
    (forall (c : TM) q, search.Weight (search.SetQueryNorm c q) = search.Weight c) ->
    (forall (c : TS) q, search.Weight (search.SetQueryNorm c q) = search.Weight c) ->
    let s := NewBooleanSearcher cm cs cn explain in
    queryNorm s = (1 / sqrt (Weight s))%float /\
    forall q,
      Weight (SetQueryNorm s q) = Weight s /\
      queryNorm (SetQueryNorm s q) = queryNorm s /\
      mustNotSearcher (SetQueryNorm s q) = cn.
Proof.
  intros TM TS TN searcherM searcherS cm cs cn explain HM HS.
  unfold NewBooleanSearcher, computeQueryNorm, Weight, SetQueryNorm.
  destruct cm as [cm|], cs as [cs|]; cbn; rewrite ?HM, ?HS;
    (split; [reflexivity|]); intros q; rewrite ?HM, ?HS; repeat split.
Qed.

Lemma Next_and_Advance_never_panic_witness :
  play sumScores 5 threeScript (threeClauses, NewSearchContext) <> Stop Panic.
Proof.
  apply (Next_and_Advance_never_panic sumScores
           (fun _ => True) (fun _ => True) (fun _ => True)
           (Some threeMust) (Some threeShould) (Some threeMustNot) false
           5 threeScript NewSearchContext
           StreamSearcher_sound StreamSearcher_sound StreamSearcher_sound);
    try exact I; intros; exact I.
Defined.

Lemma a_boolean_searcher_is_a_sound_child_witness :
  @sound (BooleanSearcher StreamSearcher StreamSearcher StreamSearcher)
    (BooleanSearcher_Searcher sumScores 8)
    (wellFormed (fun _ => True) (fun _ => True) (fun _ => True)).
Proof.
  apply (a_boolean_searcher_is_a_sound_child sumScores
           (fun _ => True) (fun _ => True) (fun _ => True) 8
           StreamSearcher_sound StreamSearcher_sound StreamSearcher_sound).
Defined.

Lemma queryNorm_is_the_inverse_root_of_Weight_witness :
  queryNorm threeClauses = (1 / sqrt (Weight threeClauses))%float /\
  forall q,
    Weight (SetQueryNorm threeClauses q) = Weight threeClauses /\
    queryNorm (SetQueryNorm threeClauses q) = queryNorm threeClauses /\
    mustNotSearcher (SetQueryNorm threeClauses q) = Some threeMustNot.
Proof.
  apply (queryNorm_is_the_inverse_root_of_Weight
           (Some threeMust) (Some threeShould) (Some threeMustNot) false);
    intros c q; reflexivity.
Defined.

(* ===================================================================== *)
(** ** Any mix of [Next] and [Advance] *)
(* ===================================================================== *)

Lemma In_dropWhile {A} (p : A -> bool) (L : list A) x :
  In x (dropWhile p L) -> In x L.
Proof.
  induction L as [|y L IH]; cbn [dropWhile]; [auto|].
  destruct (p y); [right; auto | auto].
Qed.

Lemma emitted_app ms1 ms2 : emitted (ms1 ++ ms2) = emitted ms1 ++ emitted ms2.
Proof. unfold emitted. apply map_app. Qed.

Lemma emitted_rev ms : emitted (rev ms) = rev (emitted ms).
Proof. unfold emitted. apply map_rev. Qed.

Section Scripts.
Variable combine : list float -> float.
Local Abbreviation BS :=
  (BooleanSearcher StreamSearcher StreamSearcher StreamSearcher).

(** One call, [Next] or [Advance]: it returns the head of a final part [D]
    of what the searcher had still to emit, and leaves the tail of [D]. *)
Lemma perform_spec fuel c (s : BS) ctx :
  consistent s -> sortedKids (position s) ->
  List.length (driver (position s)) < fuel ->
  exists res s' ctx' D,
    perform combine fuel c (s, ctx) = (Ok res, (s', ctx')) /\
    ready s' /\ sortedKids (kids s') /\
    List.length (driver (kids s')) < fuel /\
    reports res (hd_error D) /\ expected combine (kids s') = tl D /\
    ascending D = true /\
    forall x, In x D -> In x (expected combine (position s)).
Proof.
  intros Hc Hs Hfuel.
  pose proof (ascending_expected combine _ Hs) as Ha.
  destruct c as [|X]; cbn [perform].
  - destruct (Next_spec combine fuel s ctx Hc Hs Hfuel)
      as (res & s' & ctx' & Hrun & Hr & Hs' & Hrep & He & Hle & _).
    exists res, s', ctx', (expected combine (position s)).
    split; [exact Hrun|]. split; [exact Hr|]. split; [exact Hs'|].
    split; [eapply Nat.le_lt_trans; eassumption|].
    split; [exact Hrep|]. split; [exact He|]. split; [exact Ha | auto].
  - destruct (Advance_spec combine fuel X s ctx Hc Hs Hfuel)
      as (res & s' & ctx' & Hrun & Hr & Hs' & Hrep & He & Hle).
    exists res, s', ctx',
      (dropWhile (before X) (expected combine (position s))).
    split; [exact Hrun|]. split; [exact Hr|]. split; [exact Hs'|].
    split; [eapply Nat.le_lt_trans; eassumption|].
    split; [exact Hrep|]. split; [exact He|].
    split; [now apply ascending_dropWhile|].
    intros x. apply In_dropWhile.
Qed.

Lemma session_spec fuel script : forall (s : BS) ctx,
  consistent s -> sortedKids (position s) ->
  List.length (driver (position s)) < fuel ->
  exists ms s' ctx',
    session combine fuel script (s, ctx) = Some (ms, (s', ctx')) /\
    consistent s' /\ sortedKids (position s') /\
    (forall x, In x (emitted ms) -> In x (expected combine (position s))) /\
    ascending (rev (emitted ms)) = true.
Proof.
  induction script as [|c script IH]; intros s ctx Hc Hs Hfuel;
    cbn [session].
  - exists [], s, ctx. repeat split; auto. intros x [].
  - destruct (perform_spec fuel c s ctx Hc Hs Hfuel)
      as (res & s1 & ctx1 & D & Hrun & Hr & Hs1 & Hf1 & Hrep & He & HaD & HD).
    rewrite Hrun.
    rewrite <- (ready_position _ Hr) in Hs1, Hf1, He.
    destruct (IH s1 ctx1 (or_introl Hr) Hs1 Hf1)
      as (ms & s' & ctx' & Hses & Hc' & Hs' & Hin & Hasc).
    rewrite Hses. eexists _, s', ctx'. split; [reflexivity|].
    split; [exact Hc'|]. split; [exact Hs'|].
    rewrite He in Hin.
    destruct res as [m|], D as [|x D']; cbn [hd_error reports tl] in *;
      try contradiction.
    + assert (Hx : (search.IndexInternalID m, search.Score m) = x)
        by (destruct x; cbn [fst snd] in Hrep; destruct Hrep; congruence).
      rewrite emitted_app. cbn [emitted map]. rewrite Hx. split.
      * intros z Hz. apply in_app_or in Hz as [Hz|[<-|[]]];
          apply HD; [right; now apply Hin | now left].
      * rewrite rev_app_distr. cbn [rev app].
        apply ascending_cons; [exact Hasc|].
        intros z Hz. apply (ascending_after x D' HaD).
        apply Hin. now apply in_rev.
    + rewrite app_nil_r. split; [|exact Hasc].
      intros z Hz. destruct (Hin z Hz).
Qed.

(** X13.  Any mix of calls, over leaf children.  Hypotheses: the searcher
    is new; its children are leaf searchers over fixed streams that have not
    been called and follow the Sub-Searcher Contract ([StreamSearcher],
    whose [Advance] does not consume the current match when already at or
    past the target - a nested boolean searcher is no such child), never
    fail ([unstarted]) and emit strictly increasing identifiers
    ([sortedKids]); [fuel] exceeds the length of the driving stream.  Then
    every sequence of calls of [Next] and [Advance] returns without error;
    the matches returned come in strictly increasing order of identifier;
    and each of them is a document of the driving stream that is not in the
    must-not stream and, with a must child and a should child whose [Min] is
    not 0, is in the should stream. *)
Theorem any_mix_of_calls_returns_ascending_qualifying_matches :
  forall (cm cs cn : option StreamSearcher) (explain : bool)
         (ctx : SearchContext) (fuel : nat) (script : list call),
    unstarted cm -> unstarted cs -> unstarted cn ->
    sortedKids (cm, cs, cn) ->
    List.length (driver (cm, cs, cn)) < fuel ->
    exists ms w',
      session combine fuel script
        (NewBooleanSearcher cm cs cn explain, ctx) = Some (ms, w') /\
      ascendingIDs (identifiers (rev ms)) = true /\
      forall i, In i (identifiers ms) ->
        In i (map fst (driver (cm, cs, cn))) /\
        ~ In i (map fst (lookahead cn)) /\
        (cm <> None -> optionalShould cs = false ->
         In i (map fst (lookahead cs))).
Proof.
  intros cm cs cn explain ctx fuel script Um Us Un Hs Hfuel.
  set (s := NewBooleanSearcher cm cs cn explain).
  assert (Hf : fresh s).
  { unfold s. destruct cm as [cm|], cs as [cs|], cn as [cn|];
      cbn in *; repeat split; tauto. }
  assert (Hk : driver (kids s) = driver (cm, cs, cn) /\
               lookahead (mustNotSearcher s) = lookahead cn /\
               lookahead (shouldSearcher s) = lookahead cs /\
               optionalShould (shouldSearcher s) = optionalShould cs /\
               (mustSearcher s <> None <-> cm <> None) /\
               sortedKids (kids s)).
  { unfold s. destruct cm as [cm|], cs as [cs|], cn as [cn|];
      cbn in *; repeat split; try tauto; congruence. }
  destruct Hk as (Hd & Hn & Hsh & Ho & Hm & Hsk).
  destruct (consistent_expected combine s (or_intror Hf)) as [He Hd'].
  rewrite <- Hd, <- Hd' in Hfuel.
  destruct (session_spec fuel script s ctx (or_intror Hf)
              (consistent_sorted combine s (or_intror Hf) Hsk) Hfuel)
    as (ms & s' & ctx' & Hses & _ & _ & Hin & Hasc).
  exists ms, (s', ctx'). split; [exact Hses|]. split.
  - rewrite identifiers_emitted, emitted_rev. exact Hasc.
  - intros i Hi. rewrite identifiers_emitted in Hi.
    apply in_map_iff in Hi as (x & <- & Hx).
    apply Hin in Hx. rewrite He in Hx.
    assert (Hx' : In (fst x) (map fst (expected combine (kids s))))
      by now apply in_map.
    apply In_expected in Hx'. unfold kids in Hx' at 2 3 4 5.
    cbn [fst snd] in Hx'. rewrite Hd, Hn, Hsh, Ho in Hx'. tauto.
Qed.

End Scripts.

Lemma any_mix_of_calls_returns_ascending_qualifying_matches_witness :
  exists ms w',
    session sumScores 5 threeScript
      (NewBooleanSearcher (Some threeMust) (Some threeShould)
         (Some threeMustNot) false, NewSearchContext) = Some (ms, w') /\
    ascendingIDs (identifiers (rev ms)) = true /\
    forall i, In i (identifiers ms) ->
      In i (map fst (driver (Some threeMust, Some threeShould,
                             Some threeMustNot))) /\
      ~ In i (map fst (lookahead (Some threeMustNot))) /\
      (Some threeMust <> None -> optionalShould (Some threeShould) = false ->
       In i (map fst (lookahead (Some threeShould)))).
Proof.
  apply (any_mix_of_calls_returns_ascending_qualifying_matches sumScores
           (Some threeMust) (Some threeShould) (Some threeMustNot) false
           NewSearchContext 5 threeScript).
  - vm_compute. repeat split.
  - vm_compute. repeat split.
  - vm_compute. repeat split.
  - vm_compute. repeat split.
  - vm_compute. lia.
Defined.

(* ===================================================================== *)
(** ** Ordering, exclusion and the pool: the iteration as a whole *)
(* ===================================================================== *)

(** C1, as stated, fails.  [flatOuter] has the must stream [1,2], the should
    stream [2] with minimum 1 and no must-not child: document 1 is in the
    must stream and in no must-not stream, and is not returned. *)
Lemma required_should_vetoes_a_must_document :
  In (docID "001") (map fst (ahead outerMust)) /\
  search.Min requiringLeaf = 1%Z /\
  mustNotSearcher flatOuter = None /\
  (let '(ms, o, _) := drain sumScores 4 8 (flatOuter, NewSearchContext) in
   o = Ok tt /\ identifiers ms = [docID "002"] /\
   ~ In (docID "001") (identifiers ms)).
Proof.
  vm_compute. repeat split; auto.
  intros [H|[]]. discriminate H.
Qed.

(** C3: where the code departs from it.  [excludingOuter] has a boolean
    searcher as must-not child, which never fails and emits the one
    identifier 5.  On the new searcher [Advance] to 2 returns the match 5,
    while calling [Next] until a match at or after 2 comes returns 1 and
    then reaches the end of the stream: 5 is excluded.  The inner searcher,
    asked to advance to 2 when the match 5 it has returned is its current
    position, does not return it again, as the Sub-Searcher Contract has a
    searcher do, but moves on and reports the end. *)
Lemma Advance_differs_through_a_nested_child :
  option_map search.IndexInternalID
    (match fst (@Advance _ _ _ _ _ (BooleanSearcher_Searcher sumScores 8)
                  sumScores 8 (docID "002")
                  (excludingOuter, NewSearchContext)) with
     | Ok r => r
     | _ => None
     end) = Some (docID "005") /\
  fst (@nextUntil _ _ _ _ _ (BooleanSearcher_Searcher sumScores 8)
         sumScores 8 8 (docID "002") (excludingOuter, NewSearchContext))
    = Ok None.
Proof. vm_compute. split; reflexivity. Qed.


Section Exhaustion.
Variable combine : list float -> float.
Local Abbreviation BS :=
  (BooleanSearcher StreamSearcher StreamSearcher StreamSearcher).

(** X3.  From any state between two calls, also after calls of [Advance],
    two successive calls of [Next] that give matches give them with
    strictly increasing identifiers, so none comes twice: over leaf children that
    never fail and emit their matches in strictly increasing order of
    identifier ([sortedKids]), in a state between two calls, new or after
    calls that returned without error ([consistent]), with a loop bound
    above the length of what is left of the driving stream.  The state after
    the first of the two calls is of the same kind, so that the same holds
    of every later pair of calls. *)
Theorem successive_results_have_increasing_identifiers :
  forall (s : BS) (ctx : SearchContext) (fuel : nat)
         (m1 m2 : DocumentMatch) (w1 w2 : BS * SearchContext),
    consistent s -> sortedKids (kids s) ->
    List.length (driver (kids s)) < fuel ->
    Next combine fuel (s, ctx) = (Ok (Some m1), w1) ->
    Next combine fuel w1 = (Ok (Some m2), w2) ->
    (index.Compare (search.IndexInternalID m1) (search.IndexInternalID m2)
     < 0)%Z /\
    consistent (fst w1) /\ sortedKids (kids (fst w1)) /\
    List.length (driver (kids (fst w1))) < fuel.
Proof.
  intros s ctx fuel m1 m2 w1 w2 Hc Hs Hfuel H1 H2.
  destruct (consistent_expected combine s Hc) as [He Hd].
  rewrite <- Hd in Hfuel.
  pose proof (consistent_sorted combine s Hc Hs) as Hs'.
  pose proof (ascending_expected combine _ Hs') as Ha.
  destruct (Next_spec combine fuel s ctx Hc Hs' Hfuel)
    as (res & s1 & ctx1 & Hrun & Hr1 & Hs1 & Hrep & He1 & Hle & _).
  rewrite H1 in Hrun. injection Hrun as Hres Hw1. subst res w1. cbn [fst].
  assert (Hf1 : List.length (driver (kids s1)) < fuel)
    by (eapply Nat.le_lt_trans; eassumption).
  rewrite <- (ready_position _ Hr1) in Hs1, He1, Hf1.
  destruct (Next_spec combine fuel s1 ctx1 (or_introl Hr1) Hs1 Hf1)
    as (res2 & s2 & ctx2 & Hrun2 & _ & _ & Hrep2 & _).
  rewrite H2 in Hrun2. injection Hrun2 as Hres2 Hw2. subst res2 w2.
  rewrite (ready_position _ Hr1) in Hs1, Hf1.
  split; [|split; [now left | now split]].
  rewrite He1 in Hrep2.
  destruct (expected combine (position s)) as [|x E]; [contradiction|].
  cbn [hd_error tl reports] in Hrep, Hrep2.
  destruct E as [|y E]; [contradiction|]. cbn [hd_error reports] in Hrep2.
  destruct Hrep as [-> _], Hrep2 as [-> _].
  apply (ascending_after x (y :: E) Ha). now left.
Qed.

End Exhaustion.


Section Hygiene.
Context {TM TS TN : Type}.
Context {searcherM : search.Searcher TM}.
Context {searcherS : search.Searcher TS}.
Context {searcherN : search.Searcher TN}.
Variable combine : list float -> float.
Hypothesis frugalM : frugal TM.
Hypothesis frugalS : frugal TS.
Hypothesis frugalN : frugal TN.



End Hygiene.

Lemma successive_results_have_increasing_identifiers_witness :
  (index.Compare
     (search.IndexInternalID
        (theMatch (fst (Next sumScores 5 (mustAlone, NewSearchContext)))))
     (search.IndexInternalID
        (theMatch (fst (Next sumScores 5
           (snd (Next sumScores 5 (mustAlone, NewSearchContext)))))))
   < 0)%Z /\
  consistent (fst (snd (Next sumScores 5 (mustAlone, NewSearchContext)))) /\
  sortedKids
    (kids (fst (snd (Next sumScores 5 (mustAlone, NewSearchContext))))) /\
  List.length
    (driver
       (kids (fst (snd (Next sumScores 5 (mustAlone, NewSearchContext))))))
    < 5.
Proof.
  apply (successive_results_have_increasing_identifiers sumScores mustAlone
           NewSearchContext 5
           (theMatch (fst (Next sumScores 5 (mustAlone, NewSearchContext))))
           (theMatch (fst (Next sumScores 5
              (snd (Next sumScores 5 (mustAlone, NewSearchContext))))))
           (snd (Next sumScores 5 (mustAlone, NewSearchContext)))
           (snd (Next sumScores 5
              (snd (Next sumScores 5 (mustAlone, NewSearchContext)))))).
  - right. vm_compute. repeat split.
  - vm_compute. repeat split.
  - vm_compute. lia.
  - vm_compute. reflexivity.
  - vm_compute. reflexivity.
Defined.


Set Implicit Arguments.

Section Ordering.
Context {TM TS TN : Type}.
Context {searcherM : search.Searcher TM}.
Context {searcherS : search.Searcher TS}.
Context {searcherN : search.Searcher TN}.
Variable combine : list float -> float.

Local Abbreviation BS := (BooleanSearcher TM TS TN).
Local Abbreviation World := (BooleanSearcher TM TS TN * SearchContext)%type.

Lemma gives_ret {A} (a : A) (s : BS) (Q : A -> BS -> Prop) :
  Q a s -> gives (ret a : Comp World A) s Q.
Proof. intros H ctx. exact H. Qed.

Lemma gives_bind {A B} (c : Comp World A) (k : A -> Comp World B) (s : BS)
    (Q : A -> BS -> Prop) (R : B -> BS -> Prop) :
  gives c s Q -> (forall a s1, Q a s1 -> gives (k a) s1 R) ->
  gives (bind c k) s R.
Proof.
  intros Hc Hk ctx. specialize (Hc ctx). unfold bind.
  destruct (c (s, ctx)) as [[a|e|f] [s1 ctx1]]; try exact I.
  exact (Hk a s1 Hc ctx1).
Qed.

Lemma gives_get {B} (k : World -> Comp World B) (s : BS) (R : B -> BS -> Prop) :
  (forall ctx0, gives (k (s, ctx0)) s R) -> gives (bind get k) s R.
Proof. intros Hk ctx. exact (Hk ctx ctx). Qed.

Lemma gives_weaken {A} (c : Comp World A) (s : BS) (Q Q' : A -> BS -> Prop) :
  gives c s Q -> (forall a s', Q a s' -> Q' a s') -> gives c s Q'.
Proof.
  intros Hc HQ ctx. specialize (Hc ctx).
  destruct (c (s, ctx)) as [[a|e|f] [s1 ctx1]]; auto.
Qed.

Lemma gives_runs {A} (c : Comp World A) (s : BS) (Q : A -> BS -> Prop) :
  runs c s Q -> gives c s Q.
Proof.
  intros Hc ctx. destruct (Hc ctx) as (a & s1 & ctx1 & -> & H). exact H.
Qed.

Lemma gives_inv {A} (c : Comp World A) (s : BS) (Q : A -> BS -> Prop)
    ctx a w' :
  gives c s Q -> c (s, ctx) = (Ok a, w') -> Q a (fst w').
Proof.
  intros H E. specialize (H ctx). rewrite E in H. now destruct w'.
Qed.


Ltac proj :=
  cbn [mustSearcher shouldSearcher mustNotSearcher queryNorm currMust
       currShould currMustNot currentID min scorer matches initialized
       set_mustSearcher set_shouldSearcher set_mustNotSearcher set_queryNorm
       set_currMust set_currShould set_currMustNot set_currentID set_matches
       set_initialized fst snd notNil] in *.

(** *** Lists in increasing order *)

Lemma ascendingIDs_snoc_lt l x :
  ascendingIDs (l ++ [x]) = true ->
  forall i, In i l -> (index.Compare i x < 0)%Z.
Proof.
  induction l as [|a l IH]; intros H i; [intros []|].
  cbn [app ascendingIDs] in H.
  destruct (l ++ [x]) as [|b r] eqn:E; [now destruct l|].
  apply andb_prop in H. destruct H as [Hab Hr].
  apply Z.ltb_lt in Hab.
  intros [<-|Hi].
  - destruct l as [|b' l']; cbn [app] in E; injection E as <- E'.
    + exact Hab.
    + eapply Compare_trans; [exact Hab|]. apply IH; [exact Hr | now left].
  - now apply IH.
Qed.

Lemma ascendingIDs_snoc l x :
  ascendingIDs l = true ->
  (forall i, In i l -> (index.Compare i x < 0)%Z) ->
  ascendingIDs (l ++ [x]) = true.
Proof.
  induction l as [|a l IH]; intros H Hx; [reflexivity|].
  cbn [app ascendingIDs].
  destruct l as [|b l'].
  - cbn [app]. rewrite andb_true_r. apply Z.ltb_lt, Hx. now left.
  - cbn [app]. cbn [ascendingIDs] in H. apply andb_prop in H.
    destruct H as [Hab Hr]. rewrite Hab. cbn [andb].
    apply IH; [exact Hr|]. intros i Hi. apply Hx. now right.
Qed.

Lemma ascendingIDs_head_lt l :
  forall a, ascendingIDs (a :: l) = true ->
  forall i, In i l -> (index.Compare a i < 0)%Z.
Proof.
  induction l as [|b l IH]; intros a H i; [intros []|].
  cbn [ascendingIDs] in H. apply andb_prop in H. destruct H as [Hab Hr].
  apply Z.ltb_lt in Hab. intros [<-|Hi]; [exact Hab|].
  eapply Compare_trans; [exact Hab|]. now apply IH.
Qed.

Lemma ascendingIDs_tail a l :
  ascendingIDs (a :: l) = true -> ascendingIDs l = true.
Proof.
  cbn [ascendingIDs]. destruct l as [|b l]; [reflexivity|].
  intros H. now apply andb_prop in H.
Qed.

Lemma ascendingIDs_NoDup l : ascendingIDs l = true -> NoDup l.
Proof.
  induction l as [|a l IH]; intros H; constructor.
  - intros Hin. pose proof (@ascendingIDs_head_lt l a H a Hin) as Hlt.
    rewrite Compare_refl in Hlt. lia.
  - apply IH. exact (@ascendingIDs_tail a l H).
Qed.

Lemma ascendingIDs_app_l l l' :
  ascendingIDs (l ++ l') = true -> ascendingIDs l = true.
Proof.
  induction l as [|a l IH]; intros H; [reflexivity|].
  cbn [app] in H. pose proof (IH (@ascendingIDs_tail a (l ++ l') H)) as Hl.
  cbn [ascendingIDs]. destruct l as [|b l]; [reflexivity|].
  rewrite Hl, andb_true_r. cbn [app ascendingIDs] in H.
  apply andb_prop in H. now destruct H.
Qed.

(** *** The steps of the methods *)

Lemma gives_modify (f : BS -> BS) (s : BS) :
  gives (modify f : Comp World unit) s (fun _ s' => s' = f s).
Proof. intros ctx. reflexivity. Qed.

Lemma gives_put (b : bool) d (s : BS) :
  gives ((if b then poolPut d else ret tt) : Comp World unit) s
        (fun _ s' => s' = s).
Proof. intros ctx. now destruct b. Qed.

Lemma gives_pullMust op (s : BS) :
  gives (pullMust op) s
    (fun _ s' => exists c ctx m c' ctx',
         mustSearcher s = Some c /\ op c ctx = (Reply m None, c', ctx') /\
         s' = set_currMust m (set_mustSearcher (Some c') s)).
Proof.
  intros ctx. unfold pullMust. cbn [fst snd].
  destruct (mustSearcher s) as [c|] eqn:E; [|exact I].
  destruct (op c ctx) as [[r c'] ctx'] eqn:Eo.
  destruct r as [m [e|]|f]; try exact I.
  exists c, ctx, m, c', ctx'. repeat split. exact Eo.
Qed.

Lemma gives_pullShould op (s : BS) :
  gives (pullShould op) s
    (fun _ s' => exists c ctx m c' ctx',
         shouldSearcher s = Some c /\ op c ctx = (Reply m None, c', ctx') /\
         s' = set_currShould m (set_shouldSearcher (Some c') s)).
Proof.
  intros ctx. unfold pullShould. cbn [fst snd].
  destruct (shouldSearcher s) as [c|] eqn:E; [|exact I].
  destruct (op c ctx) as [[r c'] ctx'] eqn:Eo.
  destruct r as [m [e|]|f]; try exact I.
  exists c, ctx, m, c', ctx'. repeat split. exact Eo.
Qed.

Lemma gives_pullMustNot op (s : BS) :
  gives (pullMustNot op) s
    (fun _ s' => exists m c',
         s' = set_currMustNot m (set_mustNotSearcher (Some c') s)).
Proof.
  intros ctx. unfold pullMustNot. cbn [fst snd].
  destruct (mustNotSearcher s) as [c|] eqn:E; [|exact I].
  destruct (op c ctx) as [[r c'] ctx'] eqn:Eo.
  destruct r as [m [e|]|f]; try exact I.
  now exists m, c'.
Qed.

Lemma gives_shouldMin (s : BS) :
  gives shouldMin s (fun _ s' => s' = s).
Proof.
  intros ctx. unfold shouldMin, bind, get. cbn [fst].
  now destruct (shouldSearcher s).
Qed.

Lemma gives_Score sc cons (s : BS) :
  gives (Score combine sc cons) s
    (fun rv s' =>
       s' = s /\
       exists m0, hd_error cons = Some (Some m0) /\
                  search.IndexInternalID rv = search.IndexInternalID m0).
Proof.
  unfold Score.
  destruct (constituents cons) as [[|m0 rest]|] eqn:E;
    try (intros ctx; exact I).
  eapply gives_bind; [apply gives_runs, run_touchAll|].
  intros a s1 [_ ->]. apply gives_ret. split; [reflexivity|].
  exists m0. split; [|reflexivity].
  destruct cons as [|[m|] cons]; cbn [constituents] in E; try discriminate.
  destruct (constituents cons); [|discriminate]. now injection E as -> _.
Qed.

(** *** The driving child is only asked for its next match *)

Variable s0 : BS.
Hypothesis ascends : drivingAscends s0.

Lemma leads_ascending past cid (s : BS) :
  leads s0 past cid s -> ascendingIDs (past ++ [cid]) = true.
Proof.
  intros (_ & _ & m & ns & _ & _ & Htr & Hns). rewrite <- Hns.
  unfold trail in Htr. unfold drivingAscends in ascends.
  destruct (mustSearcher s0) as [c0|].
  - destruct Htr as (c & _ & Hrun). exact (ascends _ _ Hrun).
  - destruct Htr as [_ Htr]. destruct (shouldSearcher s0) as [c0|]; [|easy].
    destruct Htr as (c & _ & Hrun). exact (ascends _ _ Hrun).
Qed.


(** What does not touch the driving clause keeps [leads]. *)
Lemma leads_mustNot past cid (s : BS) m c :
  leads s0 past cid s ->
  leads s0 past cid (set_currMustNot m (set_mustNotSearcher c s)).
Proof. exact (fun H => H). Qed.

Lemma leads_matches past cid (s : BS) v :
  leads s0 past cid s -> leads s0 past cid (set_matches v s).
Proof. exact (fun H => H). Qed.

Lemma leads_should past cid (s : BS) cm m c :
  mustSearcher s = Some cm ->
  leads s0 past cid s ->
  leads s0 past cid (set_currShould m (set_shouldSearcher (Some c) s)).
Proof.
  intros Em (Hi & Ht & m1 & ns & Hslot & Hid & Htr & Hns).
  unfold leads, tidy, drivingSlot, trail in *. proj. rewrite Em in *. proj.
  split; [exact Hi|]. split; [exact Ht|]. exists m1, ns.
  split; [exact Hslot|]. split; [exact Hid|]. split; [|exact Hns].
  destruct (mustSearcher s0); [exact Htr|]. now destruct Htr.
Qed.

(** With the should child driving, its match is at the candidate. *)
Lemma leads_should_at past cid (s : BS) :
  leads s0 past cid s -> mustSearcher s = None ->
  exists m, currShould s = Some m /\ currMust s = None /\
            search.IndexInternalID m = cid.
Proof.
  intros (_ & Ht & m & ns & Hslot & Hid & _) Em.
  unfold drivingSlot in Hslot. rewrite Em in Hslot. proj.
  exists m. split; [exact Hslot|]. split; [exact (Ht Em) | exact Hid].
Qed.

(** The driving child moves on: lines 116-145. *)
Lemma gives_advanceNextMust skip past cid (s : BS) :
  leads s0 past cid s ->
  gives (advanceNextMust skip) s
        (fun _ s' => between s0 (past ++ [cid]) s').
Proof.
  intros (Hi & Ht & m & ns & Hslot & Hid & Htr & Hns).
  unfold advanceNextMust. apply gives_get; intros ctx0. cbn [fst].
  unfold drivingSlot in Hslot.
  destruct (mustSearcher s) as [c|] eqn:Em; proj.
  - eapply gives_bind.
    { eapply gives_bind; [apply gives_put|].
      intros _ s1 ->. apply gives_pullMust. }
    intros _ s1 (c1 & ctx & m' & c' & ctx' & Ec & Eop & ->).
    eapply gives_weaken; [apply gives_runs, run_setCurrentID|].
    intros a s2 [_ ->]. proj.
    split; [exact Hi|]. split; [intros [=]|].
    intros cid'. destruct m' as [m1|]; cbn [option_map]; [|discriminate].
    intros [= <-].
    split; [exact Hi|]. split; [intros [=]|].
    exists m1, (ns ++ [m1]). unfold drivingSlot, trail in *. proj.
    split; [reflexivity|]. split; [reflexivity|].
    split.
    + destruct (mustSearcher s0) as [c0|].
      * destruct Htr as (c2 & Ec2 & Hrun). exists c'. split; [reflexivity|].
        rewrite Em in Ec, Ec2. injection Ec as <-. injection Ec2 as <-.
        eapply nextRun_more; eassumption.
      * destruct Htr as [Hn _]. rewrite Em in Hn. discriminate.
    + unfold identifiers in *. now rewrite map_app, Hns.
  - pose proof (Ht Em) as Hcm.
    eapply gives_bind.
    { eapply gives_bind; [apply gives_put|].
      intros _ s1 ->. apply gives_pullShould. }
    intros _ s1 (c1 & ctx & m' & c' & ctx' & Ec & Eop & ->).
    eapply gives_weaken; [apply gives_runs, run_setCurrentID|].
    intros a s2 [_ ->]. proj. rewrite Em. proj.
    split; [exact Hi|]. split; [intros _; exact Hcm|].
    intros cid'. destruct m' as [m1|]; cbn [option_map]; [|discriminate].
    intros [= <-].
    split; [exact Hi|]. split; [intros _; exact Hcm|].
    exists m1, (ns ++ [m1]). unfold drivingSlot, trail in *. proj.
    rewrite Em. proj.
    split; [reflexivity|]. split; [reflexivity|].
    split.
    + destruct (mustSearcher s0) as [c0|].
      * destruct Htr as (c2 & Ec2 & _). rewrite Em in Ec2. discriminate.
      * destruct Htr as [_ Htr]. split; [reflexivity|].
        destruct (shouldSearcher s0) as [c0|]; [|exact Htr].
        destruct Htr as (c2 & Ec2 & Hrun). exists c'. split; [reflexivity|].
        rewrite Ec in Ec2. injection Ec2 as <-.
        eapply nextRun_more; eassumption.
    + unfold identifiers in *. now rewrite map_app, Hns.
Qed.

Lemma gives_reject past cid (s : BS) :
  leads s0 past cid s -> gives reject s (passed s0 past cid).
Proof.
  intros H. unfold reject.
  eapply gives_bind; [exact (gives_advanceNextMust None H)|].
  intros ? s1 H1. apply gives_ret. now split.
Qed.

Lemma gives_scoreBonus past cid (s : BS) :
  leads s0 past cid s -> gives (scoreBonus combine) s (passed s0 past cid).
Proof.
  intros H. unfold scoreBonus. apply gives_get; intros ctx0. cbn [fst].
  eapply gives_bind; [apply gives_modify|]. intros _ s1 ->.
  eapply gives_bind; [apply gives_Score|].
  intros rv s1 (-> & m0 & Hhd & Hrv).
  eapply gives_bind;
    [exact (gives_advanceNextMust (Some rv) (leads_matches _ H))|].
  intros ? s2 H2. apply gives_ret. split; [exact H2|].
  rewrite Hrv.
  destruct H as (_ & Ht & m & ns & Hslot & Hid & _).
  unfold drivingSlot in Hslot.
  destruct (mustSearcher s) as [c|] eqn:Em; proj.
  - rewrite Hslot in Hhd. proj. cbn [hd_error] in Hhd.
    now injection Hhd as <-.
  - rewrite (Ht Em) in Hhd. proj. cbn [hd_error] in Hhd.
    rewrite Hslot in Hhd. now injection Hhd as <-.
Qed.

Lemma gives_scoreMustOnly past cid (s : BS) :
  leads s0 past cid s -> gives (scoreMustOnly combine) s (passed s0 past cid).
Proof.
  intros H. unfold scoreMustOnly. apply gives_get; intros ctx0. cbn [fst].
  eapply gives_bind; [apply gives_modify|]. intros _ s1 ->.
  eapply gives_bind; [apply gives_Score|].
  intros rv s1 (-> & m0 & Hhd & Hrv).
  eapply gives_bind;
    [exact (gives_advanceNextMust (Some rv) (leads_matches _ H))|].
  intros ? s2 H2. apply gives_ret. split; [exact H2|].
  rewrite Hrv. cbn [hd_error] in Hhd.
  destruct H as (_ & Ht & m & ns & Hslot & Hid & _).
  unfold drivingSlot in Hslot.
  destruct (mustSearcher s) as [c|] eqn:Em; proj.
  - rewrite Hslot in Hhd. now injection Hhd as <-.
  - rewrite (Ht Em) in Hhd. discriminate.
Qed.


(** The should clause: lines 207-276. *)
Lemma gives_shouldStage past cid (s : BS) :
  leads s0 past cid s -> gives (shouldStage combine cid) s (passed s0 past cid).
Proof.
  intros H. unfold shouldStage. apply gives_get; intros ctx0. cbn [fst].
  eapply gives_bind; [apply gives_runs, run_isBefore|].
  intros before s1 [-> ->].
  destruct (currShould s) as [ms|] eqn:Es;
    [destruct (index.Compare (search.IndexInternalID ms) cid <? 0)%Z eqn:Eb|].
  - (* the should child is behind: the must child drives *)
    destruct (mustSearcher s) as [cm|] eqn:Em.
    2:{ destruct (leads_should_at H Em) as (m & Hm & _ & Hid).
        rewrite Es in Hm. injection Hm as <-. rewrite Hid, Compare_refl in Eb.
        discriminate. }
    eapply gives_bind; [apply gives_put|]. intros ? s1 ->.
    eapply gives_bind; [apply gives_pullShould|].
    intros ? s1 (c1 & ctx & m' & c' & ctx' & Ec & Eop & ->).
    pose proof (leads_should m' c' Em H) as H1.
    apply gives_get; intros ctx1. cbn [fst].
    eapply gives_bind; [apply gives_runs, run_isAt|].
    intros at_ s2 [-> ->].
    match goal with |- gives (if ?b then _ else _) _ _ => destruct b end.
    + now apply gives_scoreBonus.
    + eapply gives_bind; [apply gives_shouldMin|]. intros z s2 ->.
      destruct (z =? 0)%Z; [now apply gives_scoreMustOnly
                           | now apply gives_reject].
  - eapply gives_bind; [apply gives_runs, run_isAt|].
    intros at_ s2 [-> ->].
    destruct (index.Equals (search.IndexInternalID ms) cid);
      [now apply gives_scoreBonus|].
    eapply gives_bind with (Q := fun _ s' => s' = s).
    { destruct (notNil (shouldSearcher s)); [|now apply gives_ret].
      eapply gives_bind; [apply gives_shouldMin|]. intros z s2 ->.
      now apply gives_ret. }
    intros optional s2 ->.
    destruct optional; [now apply gives_scoreMustOnly
                       | now apply gives_reject].
  - eapply gives_bind; [apply gives_runs, run_isAt|].
    intros at_ s2 [-> ->].
    eapply gives_bind with (Q := fun _ s' => s' = s).
    { destruct (notNil (shouldSearcher s)); [|now apply gives_ret].
      eapply gives_bind; [apply gives_shouldMin|]. intros z s2 ->.
      now apply gives_ret. }
    intros optional s2 ->.
    destruct optional; [now apply gives_scoreMustOnly
                       | now apply gives_reject].
Qed.

(** The body of the loop: lines 181-276. *)
Lemma gives_Next_body past cid (s : BS) :
  leads s0 past cid s -> gives (Next_body combine cid) s (passed s0 past cid).
Proof.
  intros H. unfold Next_body. apply gives_get; intros ctx0. cbn [fst].
  eapply gives_bind; [apply gives_runs, run_isBefore|].
  intros before s1 [-> ->].
  match goal with |- gives (if ?b then _ else _) _ _ => destruct b end.
  - eapply gives_bind; [apply gives_put|]. intros ? s1 ->.
    eapply gives_bind; [apply gives_pullMustNot|].
    intros ? s1 (m' & c' & ->).
    pose proof (leads_mustNot m' (Some c') H) as H1.
    apply gives_get; intros ctx1. cbn [fst].
    eapply gives_bind; [apply gives_runs, run_isAt|].
    intros at_ s2 [-> ->].
    match goal with |- gives (if ?b then _ else _) _ _ => destruct b end.
    + exact (gives_reject H1).
    + now apply gives_shouldStage.
  - eapply gives_bind; [apply gives_runs, run_isAt|].
    intros at_ s2 [-> ->].
    match goal with |- gives (if ?b then _ else _) _ _ => destruct b end.
    + exact (gives_reject H).
    + now apply gives_shouldStage.
Qed.

Lemma gives_Next_loop fuel :
  forall past (s : BS),
    between s0 past s -> ascendingIDs past = true ->
    gives (Next_loop combine fuel) s (returned s0 past).
Proof.
  induction fuel as [|fuel IH]; intros past s Hb Ha;
    cbn [Next_loop]; apply gives_get; intros ctx0; cbn [fst];
    (destruct (currentID s) as [cid|] eqn:Ec;
     [|apply gives_ret; now exists past]).
  - intros ctx. exact I.
  - destruct Hb as (_ & _ & Hl). specialize (Hl cid Ec).
    pose proof (leads_ascending Hl) as Ha1.
    eapply gives_bind; [exact (gives_Next_body Hl)|].
    intros [|rv] s1 [Hb1 Hrv].
    + eapply gives_weaken; [exact (IH _ s1 Hb1 Ha1)|].
      intros [rv|] s2 (past' & Hb2 & Ha2 & Hr); exists past';
        (split; [exact Hb2|]; split; [exact Ha2|]); [|exact I].
      destruct Hr as (mid & ->). exists (cid :: mid).
      now rewrite <- app_assoc.
    + apply gives_ret. exists (past ++ [cid]).
      split; [exact Hb1|]. split; [exact Ha1|].
      exists []. now rewrite Hrv.
Qed.


(** The first call: lines 71-114. *)
Lemma gives_initSearchers :
  unused s0 -> gives initSearchers s0 (fun _ s' => between s0 [] s').
Proof.
  intros (Hi & Hm & Hs). unfold initSearchers.
  apply gives_get; intros ctx0. cbn [fst].
  eapply gives_bind with
    (Q := fun _ s1 =>
            s1 = s0 /\ mustSearcher s0 = None \/
            exists c ctx m c' ctx',
              mustSearcher s0 = Some c /\
              search.Next c ctx = (Reply m None, c', ctx') /\
              s1 = set_currMust m (set_mustSearcher (Some c') s0)).
  { destruct (mustSearcher s0) as [c|] eqn:Em; proj.
    - eapply gives_bind; [apply gives_put|]. intros ? s1 ->.
      eapply gives_weaken; [apply gives_pullMust|].
      intros ? s1 (c1 & ctx & m & c' & ctx' & Ec & Eop & ->).
      right. exists c1, ctx, m, c', ctx'. rewrite <- Ec, Em. now repeat split.
    - apply gives_ret. now left. }
  intros ? s1 H1. apply gives_get; intros ctx1. cbn [fst].
  eapply gives_bind with
    (Q := fun _ s2 =>
            s2 = s1 /\ shouldSearcher s1 = None \/
            exists c ctx m c' ctx',
              shouldSearcher s1 = Some c /\
              search.Next c ctx = (Reply m None, c', ctx') /\
              s2 = set_currShould m (set_shouldSearcher (Some c') s1)).
  { destruct (shouldSearcher s1) as [c|] eqn:Es; proj.
    - eapply gives_bind; [apply gives_put|]. intros ? s2 ->.
      eapply gives_weaken; [apply gives_pullShould|].
      intros ? s2 (c1 & ctx & m & c' & ctx' & Ec & Eop & ->).
      right. exists c1, ctx, m, c', ctx'. rewrite <- Ec, Es. now repeat split.
    - apply gives_ret. now left. }
  intros ? s2 H2. apply gives_get; intros ctx2. cbn [fst].
  eapply gives_bind with
    (Q := fun _ s3 =>
            s3 = s2 \/
            exists m c', s3 = set_currMustNot m (set_mustNotSearcher (Some c') s2)).
  { destruct (mustNotSearcher s2) as [c|] eqn:En; proj.
    - eapply gives_bind; [apply gives_put|]. intros ? s3 ->.
      eapply gives_weaken; [apply gives_pullMustNot|].
      intros ? s3 H. now right.
    - apply gives_ret. now left. }
  intros ? s3 H3.
  eapply gives_bind; [apply gives_runs, run_setCurrentID|].
  intros ? s4 [_ ->].
  eapply gives_weaken; [apply gives_modify|]. intros ? s5 ->.
  assert (Hgoal : forall s2',
    (s2' = s2 \/ exists m c',
        s2' = set_currMustNot m (set_mustNotSearcher (Some c') s2)) ->
    mustSearcher s2' = mustSearcher s2 /\ currMust s2' = currMust s2 /\
    shouldSearcher s2' = shouldSearcher s2 /\ currShould s2' = currShould s2).
  { intros s2' [->|(m & c' & ->)]; now repeat split. }
  destruct (Hgoal s3 H3) as (E1 & E2 & E3 & E4). clear Hgoal H3.
  unfold between, leads, tidy, drivingSlot, trail. proj.
  rewrite ?E1, ?E2, ?E3, ?E4. clear E1 E2 E3 E4.
  destruct H1 as [[-> Em]|(c & ctx & m & c' & ctx' & Em & Eop & ->)];
    destruct H2 as [[-> Es]|(d & dtx & n & d' & dtx' & Es & Dop & ->)];
    proj; rewrite ?Em, ?Es, ?Hm, ?Hs; proj.
  - split; [reflexivity|]. split; [intros _; first [exact Hm | reflexivity]|]. intros cid [=].
  - split; [reflexivity|]. split; [intros _; first [exact Hm | reflexivity]|].
    destruct n as [n|]; cbn [option_map]; intros cid [= <-].
    split; [reflexivity|]. split; [intros _; first [exact Hm | reflexivity]|].
    exists n, [n]. split; [reflexivity|]. split; [reflexivity|].
    split; [|reflexivity]. split; [reflexivity|].
    exists d'. split; [reflexivity|].
    change [n] with ([] ++ [n]).
    eapply nextRun_more; [apply nextRun_nil | exact Dop].
  - split; [reflexivity|]. split; [intros [=]|].
    destruct m as [m|]; cbn [option_map]; intros cid [= <-].
    split; [reflexivity|]. split; [intros [=]|].
    exists m, [m]. split; [reflexivity|]. split; [reflexivity|].
    split; [|reflexivity].
    exists c'. split; [reflexivity|].
    change [m] with ([] ++ [m]).
    eapply nextRun_more; [apply nextRun_nil | exact Eop].
  - split; [reflexivity|]. split; [intros [=]|].
    destruct m as [m|]; cbn [option_map]; intros cid [= <-].
    split; [reflexivity|]. split; [intros [=]|].
    exists m, [m]. split; [reflexivity|]. split; [reflexivity|].
    split; [|reflexivity].
    exists c'. split; [reflexivity|].
    change [m] with ([] ++ [m]).
    eapply nextRun_more; [apply nextRun_nil | exact Eop].
Qed.

Lemma gives_Next fuel past (s : BS) :
  poised s0 past s -> ascendingIDs past = true ->
  gives (Next combine fuel) s (returned s0 past).
Proof.
  intros [(-> & Hu & ->)|Hb] Ha; unfold Next; apply gives_get; intros ctx0;
    cbn [fst].
  - destruct Hu as (Hi & Hu). rewrite Hi. cbn [negb].
    eapply gives_bind; [exact (gives_initSearchers (conj Hi Hu))|].
    intros ? s1 H1. now apply gives_Next_loop.
  - destruct Hb as (Hi & Hb). rewrite Hi. cbn [negb].
    eapply gives_bind with (Q := fun _ s' => s' = s); [now apply gives_ret|].
    intros ? s1 ->. apply gives_Next_loop; [now split | exact Ha].
Qed.

(** One more result: it comes after every earlier one. *)
Lemma ordered_step fuel past out (s : BS) ctx m w' :
  poised s0 past s -> ascendingIDs past = true ->
  ascendingIDs out = true -> incl out past ->
  Next combine fuel (s, ctx) = (Ok (Some m), w') ->
  exists past',
    poised s0 past' (fst w') /\ ascendingIDs past' = true /\
    ascendingIDs (out ++ [search.IndexInternalID m]) = true /\
    incl (out ++ [search.IndexInternalID m]) past'.
Proof.
  intros Hp Ha Ho Hin Hrun.
  destruct (gives_inv _ (gives_Next fuel Hp Ha) Hrun)
    as (past' & Hb & Ha' & mid & ->).
  exists (past ++ mid ++ [search.IndexInternalID m]).
  split; [now right|]. split; [exact Ha'|]. split.
  - apply ascendingIDs_snoc; [exact Ho|]. intros i Hi.
    rewrite app_assoc in Ha'.
    apply (ascendingIDs_snoc_lt _ _ Ha'). apply in_or_app. left.
    now apply Hin.
  - intros i Hi. apply in_app_or in Hi. destruct Hi as [Hi|Hi].
    + apply in_or_app. left. now apply Hin.
    + apply in_or_app. right. apply in_or_app. now right.
Qed.

Lemma ordered_drain fuel calls :
  forall past out (s : BS) ctx ms o w',
    poised s0 past s -> ascendingIDs past = true ->
    ascendingIDs out = true -> incl out past ->
    drain combine calls fuel (s, ctx) = (ms, o, w') ->
    ascendingIDs (out ++ identifiers ms) = true.
Proof.
  induction calls as [|calls IH]; intros past out s ctx ms o w' Hp Ha Ho Hin;
    cbn [drain].
  - intros [= <- _ _]. now rewrite app_nil_r.
  - destruct (Next combine fuel (s, ctx)) as [[[m|]|e|f] w1] eqn:En;
      try (intros [= <- _ _]; now rewrite app_nil_r).
    destruct (ordered_step _ _ Hp Ha Ho Hin En) as (past' & Hp' & Ha' & Ho' & Hin').
    destruct w1 as [s1 ctx1].
    destruct (drain combine calls fuel (s1, ctx1)) as [[ms1 o1] w2] eqn:Ed.
    intros [= <- _ _]. cbn [identifiers map].
    change (search.IndexInternalID m :: map search.IndexInternalID ms1)
      with ([search.IndexInternalID m] ++ identifiers ms1).
    rewrite app_assoc. exact (IH _ _ _ _ _ _ _ Hp' Ha' Ho' Hin' Ed).
Qed.

End Ordering.

Section Increasing.
Context {TM TS TN : Type}.
Context {searcherM : search.Searcher TM}.
Context {searcherS : search.Searcher TS}.
Context {searcherN : search.Searcher TN}.
Variable combine : list float -> float.

Local Abbreviation BS := (BooleanSearcher TM TS TN).

(** C2.  Successive results of [Next] that are matches have strictly
    increasing identifiers, and no identifier comes twice.  The children are
    arbitrary searchers, of any type: leaves, boolean searchers, children
    that fail.  The one hypothesis is on the child that drives the
    iteration, the must child or, without one, the should child: asked for
    its next match again and again, it gives matches in strictly increasing
    order of identifier ([drivingAscends]).  [s] is a searcher no call was
    made on, as [NewBooleanSearcher] returns it; [drain] calls [Next] until
    a call gives no match, or fails, or the bound on the calls is reached,
    and [ms] are the matches returned, in order. *)
Theorem results_of_Next_come_in_increasing_order :
  forall (s : BS) (ctx : SearchContext) (calls fuel : nat)
         (ms : list DocumentMatch) (o : outcome unit)
         (w' : BS * SearchContext),
    unused s -> drivingAscends s ->
    drain combine calls fuel (s, ctx) = (ms, o, w') ->
    ascendingIDs (identifiers ms) = true /\ NoDup (identifiers ms).
Proof.
  intros s ctx calls fuel ms o w' Hu Ha Hrun.
  assert (H : ascendingIDs (identifiers ms) = true).
  { assert (Hp : poised s [] s) by (left; split; [reflexivity|]; split; [exact Hu | reflexivity]).
    assert (Hin : incl (@nil index.IndexInternalID) []) by (intros i []).
    assert (Hnil : ascendingIDs [] = true) by reflexivity.
    exact (ordered_drain combine Ha fuel calls ctx Hp Hnil Hnil Hin Hrun). }
  split; [exact H | now apply ascendingIDs_NoDup].
Qed.

(** X14.  The ordering guarantee nests.  A boolean searcher no call was
    made on, used as a child through [BooleanSearcher_Searcher], emits in
    strictly increasing order ([emitsAscending]: the matches of successive
    calls of [Next], for as long as they give matches without error) when
    the child that drives it does.  This is the hypothesis that the
    ordering of the results asks of a driving child, so the guarantee holds
    at every level of nested boolean searchers. *)
Theorem a_boolean_searcher_emits_in_increasing_order :
  forall (s : BS) (fuel : nat),
    unused s -> drivingAscends s ->
    @emitsAscending _ (BooleanSearcher_Searcher combine fuel) s.
Proof.
  intros s fuel Hu Ha ms c' Hrun.
  enough (H : exists past,
             poised s past c' /\ ascendingIDs past = true /\
             ascendingIDs (identifiers ms) = true /\
             incl (identifiers ms) past) by now destruct H as (? & _ & _ & H & _).
  induction Hrun as [|ms c1 ctx m c2 ctx' Hrun IH Hstep].
  - exists []. split; [left; split; [reflexivity|]; split; [exact Hu | reflexivity]|].
    split; [reflexivity|]. split; [reflexivity|]. intros i [].
  - destruct IH as (past & Hp & Hpa & Ho & Hin).
    cbn [search.Next BooleanSearcher_Searcher] in Hstep.
    destruct (Next combine fuel (c1, ctx)) as [[[m'|]|e|f] [s1 ctx1]] eqn:En;
      cbn [asReply] in Hstep; try discriminate.
    injection Hstep as -> -> ->.
    destruct (ordered_step combine Ha fuel ctx Hp Hpa Ho Hin En)
      as (past' & Hp' & Ha' & Ho' & Hin').
    exists past'. unfold identifiers in *. rewrite map_app. cbn [map].
    now repeat split.
Qed.

End Increasing.

(** A call of [Next] that gives a match leaves the leaf on that match. *)
Lemma StreamSearcher_Next_match (c : StreamSearcher) ctx m c2 ctx' :
  search.Next c ctx = (Reply (Some m) None, c2, ctx') ->
  started c2 = true /\
  exists raw,
    ahead c2 = (search.IndexInternalID m, raw) ::
               tl (if started c then tl (ahead c) else ahead c) /\
    (if started c then tl (ahead c) else ahead c) = ahead c2.
Proof.
  cbn [search.Next StreamSearcher_Searcher]. unfold serve.
  assert (He : forall c1 : StreamSearcher,
             emit c1 ctx = (Reply (Some m) None, c2, ctx') ->
             c2 = c1 /\ exists raw,
               ahead c1 = (search.IndexInternalID m, raw) :: tl (ahead c1)).
  { intros c1. unfold emit. destruct (ahead c1) as [|[id raw] l];
      [discriminate|]. cbn [search.Get]. intros [= <- <- _].
    split; [reflexivity|]. now exists raw. }
  assert (Hs : forall c1 : StreamSearcher,
             started c1 = started c -> ahead c1 = ahead c ->
             emit (stepPast c1) ctx = (Reply (Some m) None, c2, ctx') ->
             started c2 = true /\
             exists raw,
               ahead c2 = (search.IndexInternalID m, raw) ::
                          tl (if started c then tl (ahead c) else ahead c) /\
               (if started c then tl (ahead c) else ahead c) = ahead c2).
  { intros c1 E1 E2 H. destruct (He _ H) as (-> & raw & Hraw).
    unfold stepPast in *. rewrite E1, E2 in *.
    destruct (started c); cbn [started ahead set_position] in *;
      (split; [reflexivity|]); exists raw; (split; [exact Hraw | reflexivity]). }
  destruct (faults c) as [|[e|] fs]; [|discriminate|].
  - now apply Hs.
  - now apply Hs.
Qed.

(** A leaf over a stream in increasing order emits in increasing order,
    whatever its failure schedule and its query norm. *)
Lemma StreamSearcher_emitsAscending (c : StreamSearcher) :
  ascending (ahead c) = true -> emitsAscending c.
Proof.
  intros Ha ms c' Hrun.
  set (rest := fun c : StreamSearcher =>
                 if started c then tl (ahead c) else ahead c).
  enough (H : identifiers ms ++ map fst (rest c') = map fst (rest c)).
  { apply (ascendingIDs_app_l (identifiers ms) (map fst (rest c'))).
    rewrite H. unfold rest. unfold ascending in Ha.
    destruct (started c); [|exact Ha].
    destruct (ahead c) as [|x l]; [reflexivity|].
    exact (@ascendingIDs_tail _ _ Ha). }
  clear Ha. induction Hrun as [|ms c1 ctx m c2 ctx' Hrun IH Hstep];
    [reflexivity|].
  rewrite <- IH. unfold identifiers. rewrite map_app, <- app_assoc.
  f_equal. cbn [map app].
  destruct (StreamSearcher_Next_match _ _ Hstep) as (Hst & raw & Hah & Hrest).
  unfold rest. rewrite Hst, Hrest, Hah. reflexivity.
Qed.

Lemma unused_NewBooleanSearcher {TM TS TN : Type}
    {searcherM : search.Searcher TM} {searcherS : search.Searcher TS}
    (cm : option TM) (cs : option TS) (cn : option TN) (explain : bool) :
  unused (NewBooleanSearcher cm cs cn explain).
Proof.
  unfold unused, NewBooleanSearcher, computeQueryNorm.
  destruct cm, cs; repeat split.
Qed.

Lemma results_of_Next_come_in_increasing_order_witness :
  ascendingIDs
    (identifiers
       (fst (fst (@drain _ _ _ _ (BooleanSearcher_Searcher sumScores 8) _
                    sumScores 4 4 (nestedOuter, NewSearchContext))))) = true /\
  NoDup
    (identifiers
       (fst (fst (@drain _ _ _ _ (BooleanSearcher_Searcher sumScores 8) _
                    sumScores 4 4 (nestedOuter, NewSearchContext))))).
Proof.
  apply (@results_of_Next_come_in_increasing_order _ _ _
           _ (BooleanSearcher_Searcher sumScores 8) _ sumScores
           nestedOuter NewSearchContext 4 4
           (fst (fst (@drain _ _ _ _ (BooleanSearcher_Searcher sumScores 8) _
                        sumScores 4 4 (nestedOuter, NewSearchContext))))
           (snd (fst (@drain _ _ _ _ (BooleanSearcher_Searcher sumScores 8) _
                        sumScores 4 4 (nestedOuter, NewSearchContext))))
           (snd (@drain _ _ _ _ (BooleanSearcher_Searcher sumScores 8) _
                   sumScores 4 4 (nestedOuter, NewSearchContext)))).
  - apply unused_NewBooleanSearcher.
  - apply StreamSearcher_emitsAscending. reflexivity.
  - vm_compute. reflexivity.
Defined.

Lemma a_boolean_searcher_emits_in_increasing_order_witness :
  @emitsAscending _ (BooleanSearcher_Searcher sumScores 8) mustAlone.
Proof.
  apply (@a_boolean_searcher_emits_in_increasing_order _ _ _ _ _ _
           sumScores mustAlone 8).
  - apply unused_NewBooleanSearcher.
  - apply StreamSearcher_emitsAscending. reflexivity.
Defined.
